(** * timg: frame geometry, source selection, options and the playback loop

    A shallow embedding of [src/image-source.cc] and of [src/timg.cc], with
    the properties the specification states about them and further
    properties read off the code. *)

From Stdlib Require Import ZArith Bool List Ascii String DecimalString Lia.
From Stdlib Require Import SpecFloat.
From Stdlib Require DecimalPos.
Import ListNotations.

Local Open Scope Z_scope.

(** ** C [int] and C [float]

    [int] is a 32-bit two's complement integer, [float] is IEEE-754 binary32
    (24 bits of precision, exponent of the infinities 128), evaluated in
    single precision with round-to-nearest-even.  The float operations are
    those of the standard library's [SpecFloat], instantiated at binary32. *)

Module Int.
Definition min_signed : Z := - 2 ^ 31.
Definition max_signed : Z := 2 ^ 31 - 1.

Definition in_range (x : Z) : bool :=
  (min_signed <=? x) && (x <=? max_signed).

(** Two's complement wrap-around of a result that left the range. *)
Definition wrap (x : Z) : Z :=
  (x - min_signed) mod 2 ^ 32 + min_signed.

Definition sub (x y : Z) : Z := wrap (x - y).
Definition mul (x y : Z) : Z := wrap (x * y).

(** [x / y] truncates toward zero.  A zero divisor, and [INT_MIN / -1], trap:
    the process dies with SIGFPE. *)
Definition div (x y : Z) : option Z :=
  if y =? 0 then None
  else if (x =? min_signed) && (y =? -1) then None
  else Some (Z.quot x y).
End Int.

Module F32.
Definition prec : Z := 24.
Definition emax : Z := 128.

Definition float : Type := spec_float.

(** [(float) n] *)
Definition of_int (n : Z) : float := binary_normalize prec emax n 0 false.

Definition one : float := of_int 1.

Definition div (x y : float) : float := SFdiv prec emax x y.
Definition mul (x y : float) : float := SFmul prec emax x y.

(** [x < y] and [x > y]; both are false when an operand is a NaN. *)
Definition lt (x y : float) : bool := SFltb x y.
Definition gt (x y : float) : bool := SFltb y x.
Definition le (x y : float) : bool := SFleb x y.
Definition ge (x y : float) : bool := SFleb y x.

(** The integer nearest to the magnitude [m * 2^e], halfway cases away from
    zero. *)
Definition nearest_away (m : positive) (e : Z) : Z :=
  if 0 <=? e then Z.shiftl (Zpos m) e
  else
    let d := 2 ^ (- e) in
    let q := Zpos m / d in
    let r := Zpos m mod d in
    if d <=? 2 * r then q + 1 else q.

(** [roundf]: zeros, infinities and NaN are returned as they are. *)
Definition roundf (x : float) : float :=
  match x with
  | S754_finite s m e =>
      if 0 <=? e then x
      else binary_normalize prec emax (cond_Zopp s (nearest_away m e)) 0 s
  | _ => x
  end.

(** The integer part of [x], when [x] is a number. *)
Definition truncate (x : float) : option Z :=
  match x with
  | S754_zero _ => Some 0
  | S754_finite s m e =>
      Some (cond_Zopp s (if 0 <=? e then Z.shiftl (Zpos m) e
                         else Zpos m / 2 ^ (- e)))
  | _ => None
  end.

Section Conversion.
(** [(int) x] discards the fraction.  When the integer part does not fit
    an [int], or [x] is an infinity or a NaN, C++ leaves the result
    undefined; what the platform's conversion instruction delivers there
    is the parameter [out_of_range]. *)
Variable out_of_range : float -> Z.

Definition to_int (x : float) : Z :=
  match truncate x with
  | Some v => if Int.in_range v then v else out_of_range x
  | None => out_of_range x
  end.
End Conversion.

(** x86-64: [cvttss2si] delivers the "integer indefinite" value. *)
Definition cvttss2si_indefinite (_ : float) : Z := Int.min_signed.
End F32.

(** ** display-options.h

    The header is not among the files embedded here; these are the fields
    that [image-source.cc] and [timg.cc] read and write. *)
Record DisplayOptions : Type := mkDisplayOptions {
  width : Z;
  height : Z;
  upscale : bool;
  fill_width : bool;
  fill_height : bool;
  antialias : bool;
  scroll_animation : bool;
  scroll_dx : Z;
  scroll_dy : Z;
  show_filename : bool
}.

Definition set_width (o : DisplayOptions) (w : Z) : DisplayOptions :=
  mkDisplayOptions w (height o) (upscale o) (fill_width o) (fill_height o)
    (antialias o) (scroll_animation o) (scroll_dx o) (scroll_dy o)
    (show_filename o).

Definition set_height (o : DisplayOptions) (h : Z) : DisplayOptions :=
  mkDisplayOptions (width o) h (upscale o) (fill_width o) (fill_height o)
    (antialias o) (scroll_animation o) (scroll_dx o) (scroll_dy o)
    (show_filename o).

Definition set_fill (o : DisplayOptions) (fw fh : bool) : DisplayOptions :=
  mkDisplayOptions (width o) (height o) (upscale o) fw fh
    (antialias o) (scroll_animation o) (scroll_dx o) (scroll_dy o)
    (show_filename o).

Definition set_scroll_animation (o : DisplayOptions) (b : bool)
  : DisplayOptions :=
  mkDisplayOptions (width o) (height o) (upscale o) (fill_width o)
    (fill_height o) (antialias o) b (scroll_dx o) (scroll_dy o)
    (show_filename o).

(** ** image-source.cc: [ImageSource::CalcScaleToFitDisplay] *)

(** What the function leaves in [*target_width] and [*target_height], and
    the boolean it returns. *)
Record ScaledGeometry : Type := mkScaled {
  target_width : Z;
  target_height : Z;
  was_scaled : bool
}.

Section Geometry.
Variable out_of_range : F32.float -> Z.

Let to_int := F32.to_int out_of_range.

Definition width_fraction (img_width : Z) (options : DisplayOptions)
  : F32.float :=
  F32.div (F32.of_int (width options)) (F32.of_int img_width).

Definition height_fraction (img_height : Z) (options : DisplayOptions)
  : F32.float :=
  F32.div (F32.of_int (height options)) (F32.of_int img_height).

(** Lines 36-38: the condition of the early return. *)
Definition keeps_native_size (img_width img_height : Z)
    (options : DisplayOptions) : bool :=
  negb (upscale options)
  && (fill_height options
      || F32.gt (width_fraction img_width options) F32.one)
  && (fill_width options
      || F32.gt (height_fraction img_height options) F32.one).

(** Lines 44-74: the targets before the final clamp. *)
Definition scale_to_options (img_width img_height : Z)
    (options : DisplayOptions) : Z * Z :=
  let width_fraction := width_fraction img_width options in
  let height_fraction := height_fraction img_height options in
  let target_width := width options in
  let target_height := height options in
  if fill_width options && fill_height options then
    let larger_fraction :=
      if F32.gt width_fraction height_fraction
      then width_fraction else height_fraction in
    (to_int (F32.roundf (F32.mul larger_fraction (F32.of_int img_width))),
     to_int (F32.roundf (F32.mul larger_fraction (F32.of_int img_height))))
  else if fill_height options then
    (to_int (F32.roundf (F32.mul height_fraction (F32.of_int img_width))),
     target_height)
  else if fill_width options then
    (target_width,
     to_int (F32.roundf (F32.mul width_fraction (F32.of_int img_height))))
  else
    let smaller_fraction :=
      if F32.lt width_fraction height_fraction
      then width_fraction else height_fraction in
    (to_int (F32.roundf (F32.mul smaller_fraction (F32.of_int img_width))),
     to_int (F32.roundf (F32.mul smaller_fraction (F32.of_int img_height)))).

(** Lines 77-78: "Don't scale down to nothing". *)
Definition at_least_one (t : Z) : Z := if t <=? 0 then 1 else t.

Definition CalcScaleToFitDisplay (img_width img_height : Z)
    (options : DisplayOptions) : ScaledGeometry :=
  if keeps_native_size img_width img_height options then
    mkScaled img_width img_height false
  else
    let '(w, h) := scale_to_options img_width img_height options in
    let target_width := at_least_one w in
    let target_height := at_least_one h in
    mkScaled target_width target_height
      (negb (target_width =? img_width)
       || negb (target_height =? img_height)).
End Geometry.

(** ** The world around [main]

    [interrupt_received] is the only global the code reads; everything the
    program does to the outside is recorded as a list of events, oldest
    first.  A computation takes the flag as it finds it and returns its
    value, the events it caused and the flag as it leaves it. *)

Inductive SourceKind : Type := ImageLoader | VideoLoader.

(** [timg::Duration] of timg-time.h, which is not among the files embedded
    here: a number of milliseconds, or [Duration::InfiniteFuture()]. *)
Inductive Duration : Type :=
| Millis (ms : Z)
| InfiniteFuture.

Inductive Event : Type :=
| EvStderr (text : string)
| EvStdout (text : string)
| EvUsage (exit_code : Z)
| EvCursorOff
| EvCursorOn
| EvRendererCreate (options : DisplayOptions) (grid_cols grid_rows : Z)
| EvCreate (filename : string) (options : DisplayOptions)
    (attempt_image_loading attempt_video_loading : bool)
| EvLoadAndScale (kind : SourceKind) (filename : string)
    (options : DisplayOptions)
| EvSendFrames (kind : SourceKind) (filename : string) (duration : Duration)
    (max_frames loops : Z)
| EvRender (filename : string)
| EvDecodeError (filename : string).

Definition M (A : Type) : Type := bool -> A * list Event * bool.

Definition ret {A : Type} (a : A) : M A := fun flag => (a, [], flag).

Definition bind {A B : Type} (m : M A) (k : A -> M B) : M B :=
  fun flag =>
    let '(a, t1, flag1) := m flag in
    let '(b, t2, flag2) := k a flag1 in
    (b, t1 ++ t2, flag2).

Notation "x <- m ;; k" := (bind m (fun x => k))
  (at level 61, m at next level, right associativity).
Notation "m ;; k" := (bind m (fun _ => k))
  (at level 61, right associativity).

Definition emit (e : Event) : M unit := fun flag => (tt, [e], flag).

(** Reading the volatile flag. *)
Definition read_interrupt : M bool := fun flag => (flag, [], flag).

(** [InterruptHandler] runs when SIGINT or SIGTERM is delivered; it only ever
    stores 1.  [deliver true] is a point where a signal arrives. *)
Definition deliver (signalled : bool) : M unit :=
  fun flag => (tt, [], flag || signalled).

Definition value {A : Type} (r : A * list Event * bool) : A := fst (fst r).
Definition events {A : Type} (r : A * list Event * bool) : list Event :=
  snd (fst r).
Definition flag_after {A : Type} (r : A * list Event * bool) : bool := snd r.

Definition nl : string := String "010"%char EmptyString.

(** ** What the outside world does while one file is processed *)

(** One call of [LoadAndScale]: whether it succeeds, and whether a signal
    arrives while it runs. *)
Record Attempt : Type := mkAttempt {
  loads : bool;
  sigint_while_loading : bool
}.

(** Modelled from the spec: the decode backends are missing from the
    sources; this is the answer of [NextFrame()] in section 6, a frame with
    its delay and its loop-wrap mark, the end of the stream, or a failure.
    The pixel buffer itself plays no role here. *)
Inductive Decoded : Type :=
| Frame (per_frame_delay : Z) (is_loop_wrap : bool)
| EndOfStream
| DecodeFail.

(** Modelled from the spec: one cycle of the sequencer of section 4.3 as the
    outside world shapes it: the clock when the cycle begins (milliseconds
    since the sequence started), the backend's answer, and whether a signal
    arrives during the decode or during the delay after the frame. *)
Record Cycle : Type := mkCycle {
  elapsed : Z;
  sigint_while_decoding : bool;
  decoded : Decoded;
  sigint_while_suspended : bool
}.

(** One element of [argv] after the options, with what happens when it is
    opened and played.  [playback] describes the cycles of a playback as far
    as the run is observed. *)
Record Input : Type := mkInput {
  filename : string;
  image : Attempt;
  video : Attempt;
  playback : list Cycle
}.

(** ** The playback sequencer *)

(** Modelled from the spec: the reasons of [Stopped] in section 4.3, and the
    decode error of its last paragraph; the implementations of [SendFrames]
    are missing from the sources. *)
Inductive StopReason : Type :=
| Cancelled
| DurationExceeded
| FrameLimitReached
| LoopLimitReached
| SourceExhausted
| DecodeError.

(** Modelled from the spec: the counters of the PlaybackState of section 3;
    the implementations of [SendFrames] are missing from the sources. *)
Record PlaybackState : Type := mkPlayback {
  loop_index : Z;
  frames_emitted : Z
}.

Section Sequencer.
(** [timg::kNotInitialized], the value of an option that was not given;
    its definition is in a header that is not among the files embedded
    here. *)
Variable kNotInitialized : Z.

(** Modelled from the spec: [SendFrames] is implemented in
    image-display.cc and video-display.cc, which are missing.  Section 4.3:
    DurationExceeded is elapsed >= total_duration, with [InfiniteFuture] as
    the sentinel for unbounded. *)
Definition duration_exceeded (total_duration : Duration) (now : Z) : bool :=
  match total_duration with
  | Millis ms => ms <=? now
  | InfiniteFuture => false
  end.

(** Modelled from the spec: [SendFrames] is missing.  Section 4.3:
    FrameLimitReached is frames emitted >= max_frames, with the value of an
    option that was not given as the sentinel for unbounded. *)
Definition frame_limit_reached (max_frames : Z) (st : PlaybackState)
  : bool :=
  negb (max_frames =? kNotInitialized) && (max_frames <=? frames_emitted st).

(** Modelled from the spec: [SendFrames] is missing.  The usage text of
    timg.cc: "If not set, videos behave like --loop=1, animated images like
    --loop=-1". *)
Definition effective_loops (kind : SourceKind) (loops : Z) : Z :=
  if loops =? kNotInitialized then
    match kind with VideoLoader => 1 | ImageLoader => -1 end
  else loops.

(** Modelled from the spec: [SendFrames] is missing.  Section 4.3:
    LoopLimitReached is loop index >= max_loops, with -1 as the sentinel for
    "forever". *)
Definition loop_limit_reached (max_loops : Z) (st : PlaybackState) : bool :=
  negb (max_loops =? -1) && (max_loops <=? loop_index st).

(** Modelled from the spec: [SendFrames] is missing.  The source reported
    that it wrapped back to its first frame. *)
Definition wrapped (st : PlaybackState) : PlaybackState :=
  mkPlayback (loop_index st + 1) (frames_emitted st).

(** Modelled from the spec: [SendFrames] is missing.  A frame was handed to
    the render callback. *)
Definition counted (st : PlaybackState) : PlaybackState :=
  mkPlayback (loop_index st) (frames_emitted st + 1).

(** Modelled from the spec: [SendFrames] is missing.  The Playing state of
    section 4.3: each cycle checks, in this order, Cancelled,
    DurationExceeded and FrameLimitReached, then decodes, checks
    LoopLimitReached at a loop boundary and SourceExhausted, and otherwise
    hands the frame to the render callback, counts it and waits; the flag
    is polled again when the next cycle begins, that is after every frame
    and every delay (section 5).  [None]: the playback has not stopped
    within the cycles described. *)
Fixpoint play (name : string) (total_duration : Duration)
    (max_frames max_loops : Z) (script : list Cycle) (st : PlaybackState)
  : M (option StopReason * PlaybackState) :=
  cancelled <- read_interrupt ;;
  if cancelled then ret (Some Cancelled, st)
  else
    match script with
    | [] => ret (None, st)
    | c :: rest =>
        if duration_exceeded total_duration (elapsed c) then
          ret (Some DurationExceeded, st)
        else if frame_limit_reached max_frames st then
          ret (Some FrameLimitReached, st)
        else
          deliver (sigint_while_decoding c) ;;
          match decoded c with
          | EndOfStream => ret (Some SourceExhausted, st)
          | DecodeFail =>
              emit (EvDecodeError name) ;; ret (Some DecodeError, st)
          | Frame _ is_loop_wrap =>
              let st1 := if is_loop_wrap then wrapped st else st in
              if is_loop_wrap && loop_limit_reached max_loops st1 then
                ret (Some LoopLimitReached, st1)
              else
                emit (EvRender name) ;;
                deliver (sigint_while_suspended c) ;;
                play name total_duration max_frames max_loops rest
                  (counted st1)
          end
    end.

(** Modelled from the spec: [ImageSource::SendFrames] is implemented in
    image-display.cc and video-display.cc, which are missing.  Idle to
    Playing to Stopped, section 4.3. *)
Definition SendFrames (kind : SourceKind) (arg : Input)
    (duration : Duration) (max_frames loops : Z)
  : M (option StopReason * PlaybackState) :=
  emit (EvSendFrames kind (filename arg) duration max_frames loops) ;;
  play (filename arg) duration max_frames (effective_loops kind loops)
    (playback arg) (mkPlayback 0 0).
End Sequencer.

(** ** timg.cc: what [main] works with once the options are parsed *)

Inductive ExitCode : Type :=
| kSuccess
| kImageReadError
| kParameterError
| kNotATerminal.

Definition exit_status (c : ExitCode) : Z :=
  match c with
  | kSuccess => 0
  | kImageReadError => 1
  | kParameterError => 2
  | kNotATerminal => 3
  end.

(** [usage] prints the option summary and returns the status. *)
Definition usage (exit_code : ExitCode) : M Z :=
  emit (EvUsage (exit_status exit_code)) ;; ret (exit_status exit_code).

(** The locals of [main] when [getopt_long] has returned -1, the file
    arguments [argv[optind .. argc)], and whether a signal arrives between
    the installation of the handlers and the first test of the loop. *)
Record Locals : Type := mkLocals {
  size_valid : bool;
  term_width : Z;
  term_height : Z;
  display_opts : DisplayOptions;
  hide_cursor : bool;
  duration : Duration;
  max_frames : Z;
  loops : Z;
  grid_rows : Z;
  grid_cols : Z;
  fit_width : bool;
  do_image_loading : bool;
  do_video_loading : bool;
  files : list Input;
  sigint_before_loop : bool
}.

(** How a run ends as far as it is observed: [main] returns a status, the
    process dies on an integer division that traps, or a playback is still
    going on. *)
Inductive Outcome : Type :=
| Exited (status : Z)
| Trapped
| Running.

(** [%d]. *)
Definition decimal (n : Z) : string :=
  NilZero.string_of_int (Z.to_int n).

(** ** image-source.cc: [ImageSource::Create]; timg.cc: [main] *)

Section Program.
(** The compile-time switch [WITH_TIMG_VIDEO]. *)
Variable WITH_TIMG_VIDEO : bool.
Variable kNotInitialized : Z.

(** Modelled from the spec: [LoadAndScale] of [ImageLoader] and of
    [VideoLoader] is in image-display.cc and video-display.cc, which are
    missing.  Section 4.2: the backend opens the file, which succeeds or
    fails, and computes the source's geometry with [CalcScaleToFitDisplay]
    from the [options] it is handed here.  Whether the call succeeds is
    read from the input. *)
Definition LoadAndScale (kind : SourceKind) (arg : Input)
    (options : DisplayOptions) : M bool :=
  let attempt :=
    match kind with ImageLoader => image arg | VideoLoader => video arg end
  in
  emit (EvLoadAndScale kind (filename arg) options) ;;
  deliver (sigint_while_loading attempt) ;;
  ret (loads attempt).

(** Line 105: ["%s: couldn't load\n"]. *)
Definition couldnt_load (name : string) : string :=
  (name ++ ": couldn't load" ++ nl)%string.

(** Lines 108-109. *)
Definition stdin_hint : string :=
  ("If this is a video on stdin, use '-V' to skip image probing" ++ nl)
  %string.

(** Lines 83-113.  [Some kind]: the loader that was released to the caller;
    [None]: [nullptr]. *)
Definition Create (arg : Input) (options : DisplayOptions)
    (attempt_image_loading attempt_video_loading : bool)
  : M (option SourceKind) :=
  emit (EvCreate (filename arg) options attempt_image_loading
          attempt_video_loading) ;;
  image_loaded <-
    (if attempt_image_loading then LoadAndScale ImageLoader arg options
     else ret false) ;;
  if image_loaded then ret (Some ImageLoader)
  else
    video_loaded <-
      (if WITH_TIMG_VIDEO && attempt_video_loading
       then LoadAndScale VideoLoader arg options
       else ret false) ;;
    if video_loaded then ret (Some VideoLoader)
    else
      emit (EvStderr (couldnt_load (filename arg))) ;;
      (if WITH_TIMG_VIDEO
          && ((filename arg =? "-")%string
              || (filename arg =? "/dev/stdin")%string)
       then emit (EvStderr stdin_hint)
       else ret tt) ;;
      ret None.

(** timg.cc, lines 371-380.  [true]: the loop was left; [false]: a playback
    has not returned within the cycles described. *)
Fixpoint main_loop (display_opts : DisplayOptions) (duration : Duration)
    (max_frames loops : Z) (do_image_loading do_video_loading : bool)
    (args : list Input) : M bool :=
  match args with
  | [] => ret true
  | arg :: rest =>
      interrupted <- read_interrupt ;;
      if interrupted then ret true
      else
        source <- Create arg display_opts do_image_loading
                    do_video_loading ;;
        match source with
        | None =>
            main_loop display_opts duration max_frames loops
              do_image_loading do_video_loading rest
        | Some kind =>
            stopped <- SendFrames kNotInitialized kind arg duration
                         max_frames loops ;;
            match fst stopped with
            | Some _ =>
                main_loop display_opts duration max_frames loops
                  do_image_loading do_video_loading rest
            | None => ret false
            end
        end
  end.

(** timg.cc, lines 314-388: [main] from the end of option parsing. *)
Definition main (l : Locals) : M Outcome :=
  let display_opts := display_opts l in
  if (width display_opts <? 1) || (height display_opts <? 1) then
    (if negb (size_valid l) || (term_height l <? 0) || (term_width l <? 0)
     then emit (EvStderr
            ("Failed to read size from terminal; "
             ++ "Please supply -g<width>x<height> directly." ++ nl)%string)
     else emit (EvStderr
            (decimal (width display_opts) ++ "x"
             ++ decimal (height display_opts)
             ++ " is a rather unusual size" ++ nl)%string)) ;;
    status <- usage kNotATerminal ;;
    ret (Exited status)
  else
    match files l with
    | [] =>
        emit (EvStderr ("Expected image filename." ++ nl)%string) ;;
        status <- usage kImageReadError ;;
        ret (Exited status)
    | _ :: _ =>
        display_opts <-
          (if (scroll_dx display_opts =? 0) && (scroll_dy display_opts =? 0)
           then
             emit (EvStderr
               ("Scrolling chosen, but dx:dy = 0:0. "
                ++ "Just showing image, no scroll." ++ nl)%string) ;;
             ret (set_scroll_animation display_opts false)
           else ret display_opts) ;;
        let display_opts :=
          set_fill display_opts
            (fit_width l
             || (scroll_animation display_opts
                 && negb (scroll_dy display_opts =? 0)))
            (scroll_animation display_opts
             && negb (scroll_dx display_opts =? 0)) in
        let loops := if max_frames l =? 1 then 1 else loops l in
        let display_opts :=
          if show_filename display_opts then
            set_height display_opts
              (Int.sub (height display_opts) (Int.mul 2 (grid_rows l)))
          else display_opts in
        (if hide_cursor l then emit EvCursorOff else ret tt) ;;
        emit (EvRendererCreate display_opts (grid_cols l) (grid_rows l)) ;;
        match Int.div (width display_opts) (grid_cols l) with
        | None => ret Trapped
        | Some cell_width =>
            let display_opts := set_width display_opts cell_width in
            match Int.div (height display_opts) (grid_rows l) with
            | None => ret Trapped
            | Some cell_height =>
                let display_opts := set_height display_opts cell_height in
                deliver (sigint_before_loop l) ;;
                let exit_code := 0 in
                left <- main_loop display_opts (duration l) (max_frames l)
                          loops (do_image_loading l) (do_video_loading l)
                          (files l) ;;
                if left then
                  (if hide_cursor l then emit EvCursorOn else ret tt) ;;
                  interrupted <- read_interrupt ;;
                  (if interrupted then emit (EvStdout nl) else ret tt) ;;
                  ret (Exited exit_code)
                else ret Running
            end
        end
    end.
End Program.


(** ** The specification's reading of the geometry

    These follow the words of sections 4.1 and 8 of the specification, to be
    compared with the code above. *)

Inductive FitMode : Type := FillBoth | FillHeight | FillWidth | Contain.

Definition fit_mode (options : DisplayOptions) : FitMode :=
  match fill_width options, fill_height options with
  | true, true => FillBoth
  | false, true => FillHeight
  | true, false => FillWidth
  | false, false => Contain
  end.

(** [f] is the larger of [a] and [b]: one of them, and neither exceeds it. *)
Definition larger_of (f a b : F32.float) : Prop :=
  (f = a \/ f = b) /\ F32.gt a f = false /\ F32.gt b f = false.

(** [f] is the smaller of [a] and [b]. *)
Definition smaller_of (f a b : F32.float) : Prop :=
  (f = a \/ f = b) /\ F32.lt a f = false /\ F32.lt b f = false.

(** Step 4: the native dimension times the factor, rounded to the nearest
    integer. *)
Definition scaled_by (out_of_range : F32.float -> Z) (factor : F32.float)
    (native : Z) : Z :=
  F32.to_int out_of_range (F32.roundf (F32.mul factor (F32.of_int native))).

(** Step 2 as the specification words it: upscaling is disabled, on each
    axis the other fill flag is requested or the fraction is <= 1.0, and
    both fractions are >= 1.0. *)
Definition already_fits_as_worded (img_width img_height : Z)
    (options : DisplayOptions) : bool :=
  negb (upscale options)
  && (fill_height options
      || F32.le (width_fraction img_width options) F32.one)
  && (fill_width options
      || F32.le (height_fraction img_height options) F32.one)
  && F32.ge (width_fraction img_width options) F32.one
  && F32.ge (height_fraction img_height options) F32.one.

(** Steps 1 and 4 in real numbers, as the specification words them: the
    fraction [constraint / native] is a real number, and the other native
    dimension times it is rounded to the nearest integer, halves upwards. *)
Definition scaled_as_worded (constraint native other : Z) : Z :=
  (2 * (constraint * other) + native) / (2 * native).

(** ** Names for the proofs about binary32 *)

(** A mantissa of exactly 24 bits. *)
Definition normal (m : positive) : Prop := 2 ^ 23 <= Zpos m < 2 ^ 24.

(** [(m, e)] is the binary32 number that equals the integer [n], for an [n]
    between 1 and 2^24. *)
Definition represents (n : Z) (m : positive) (e : Z) : Prop :=
  normal m /\ -23 <= e <= 1 /\ n * 2 ^ 23 = Zpos m * 2 ^ (e + 23).

(** ** Reading a list of events *)

(** What a playback may cause: rendered frames and decode error reports. *)
Definition playback_event (e : Event) : Prop :=
  match e with
  | EvRender _ | EvDecodeError _ => True
  | _ => False
  end.

Definition is_render (e : Event) : bool :=
  match e with EvRender _ => true | _ => false end.

Definition is_send_frames (e : Event) : bool :=
  match e with EvSendFrames _ _ _ _ _ => true | _ => false end.

(** The number of frames handed to the render callback. *)
Definition frames_shown (t : list Event) : nat :=
  List.length (filter is_render t).

(** The number of playbacks started. *)
Definition playbacks (t : list Event) : nat :=
  List.length (filter is_send_frames t).

(** The files for which [ImageSource::Create] was called, in order. *)
Definition created (t : list Event) : list string :=
  flat_map (fun e => match e with EvCreate f _ _ _ => [f] | _ => [] end) t.

(** An event of the loop over the files, whose calls were made with these
    arguments: [Create] and [LoadAndScale] with the options [o], [Create]
    with the flags [di] and [dv], [SendFrames] with [d], [mf] and [lp]. *)
Definition called_with (o : DisplayOptions) (d : Duration) (mf lp : Z)
    (di dv : bool) (e : Event) : Prop :=
  match e with
  | EvCreate _ o' di' dv' => o' = o /\ di' = di /\ dv' = dv
  | EvLoadAndScale _ _ o' => o' = o
  | EvSendFrames _ _ d' mf' lp' => d' = d /\ mf' = mf /\ lp' = lp
  | EvStderr _ | EvRender _ | EvDecodeError _ => True
  | _ => False
  end.

(** The options handed to [Create] and to [LoadAndScale] are the cell of a
    [cols] x [rows] grid on [canvas]. *)
Definition sized_to_cell (canvas : DisplayOptions) (cols rows : Z)
    (e : Event) : Prop :=
  match e with
  | EvCreate _ o _ _ | EvLoadAndScale _ _ o =>
      width o = Z.quot (width canvas) cols
      /\ height o = Z.quot (height canvas) rows
  | _ => True
  end.

(** ** Names for the proofs about [main] *)

Definition is_stdin (name : string) : bool :=
  (name =? "-")%string || (name =? "/dev/stdin")%string.

(** Lines 314 and 325: the two checks that end [main] before any file is
    opened. *)
Definition bad_geometry (l : Locals) : bool :=
  (width (display_opts l) <? 1) || (height (display_opts l) <? 1).

Definition no_scroll_movement (l : Locals) : bool :=
  (scroll_dx (display_opts l) =? 0) && (scroll_dy (display_opts l) =? 0).

(** The value of [display_opts] at line 360, where it is handed to
    [Renderer::Create]. *)
Definition canvas_options (l : Locals) : DisplayOptions :=
  let o := display_opts l in
  let o := if no_scroll_movement l then set_scroll_animation o false else o in
  let o :=
    set_fill o
      (fit_width l || (scroll_animation o && negb (scroll_dy o =? 0)))
      (scroll_animation o && negb (scroll_dx o =? 0)) in
  if show_filename o then
    set_height o (Int.sub (height o) (Int.mul 2 (grid_rows l)))
  else o.

(** The value of [display_opts] after lines 364-365. *)
Definition cell_options (l : Locals) (w h : Z) : DisplayOptions :=
  set_height (set_width (canvas_options l) w) h.

(** The geometries handed to [ImageSource::Create], in order. *)
Definition cells (t : list Event) : list (Z * Z) :=
  flat_map (fun e => match e with
                     | EvCreate _ o _ _ => [(width o, height o)]
                     | _ => []
                     end) t.

(** While [arg] is processed no signal arrives and its playback, if it has
    one, returns. *)
Definition undisturbed (WITH_TIMG_VIDEO : bool) (kNotInitialized : Z)
    (options : DisplayOptions) (duration : Duration) (max_frames loops : Z)
    (do_image_loading do_video_loading : bool) (arg : Input) : Prop :=
  let c := Create WITH_TIMG_VIDEO arg options do_image_loading
             do_video_loading false in
  flag_after c = false
  /\ forall kind, value c = Some kind ->
       let s := SendFrames kNotInitialized kind arg duration max_frames
                  loops false in
       fst (value s) <> None /\ flag_after s = false.

(** A signal arrives before any playback begins: while a file is opened,
    every file before it having failed to load. *)
Fixpoint signal_before_playback (WITH_TIMG_VIDEO : bool)
    (options : DisplayOptions) (do_image_loading do_video_loading : bool)
    (args : list Input) : Prop :=
  match args with
  | [] => False
  | arg :: rest =>
      let c := Create WITH_TIMG_VIDEO arg options do_image_loading
                 do_video_loading false in
      flag_after c = true
      \/ (value c = None
          /\ signal_before_playback WITH_TIMG_VIDEO options do_image_loading
               do_video_loading rest)
  end.

(** A signal arrives while the first frame of [arg] is decoded: the file is
    opened with the flag clear, the first cycle of its playback passes the
    poll of the flag, the duration check and the frame-limit check, and the
    signal arrives during its decode call. *)
Definition signal_during_first_decode (WITH_TIMG_VIDEO : bool)
    (kNotInitialized : Z) (options : DisplayOptions) (duration : Duration)
    (max_frames : Z) (do_image_loading do_video_loading : bool)
    (arg : Input) : Prop :=
  let c := Create WITH_TIMG_VIDEO arg options do_image_loading
             do_video_loading false in
  flag_after c = false
  /\ value c <> None
  /\ exists cycle rest,
       playback arg = cycle :: rest
       /\ duration_exceeded duration (elapsed cycle) = false
       /\ frame_limit_reached kNotInitialized max_frames (mkPlayback 0 0)
          = false
       /\ sigint_while_decoding cycle = true.

(** [arg] is processed without a signal and without a frame: it fails to
    load, or its playback stops before its first frame. *)
Definition frameless (WITH_TIMG_VIDEO : bool) (kNotInitialized : Z)
    (options : DisplayOptions) (duration : Duration) (max_frames loops : Z)
    (do_image_loading do_video_loading : bool) (arg : Input) : Prop :=
  undisturbed WITH_TIMG_VIDEO kNotInitialized options duration max_frames
    loops do_image_loading do_video_loading arg
  /\ forall kind,
       value (Create WITH_TIMG_VIDEO arg options do_image_loading
                do_video_loading false) = Some kind ->
       frames_shown
         (events (SendFrames kNotInitialized kind arg duration max_frames
                    loops false)) = 0%nat.

(** The value of [loops] after line 349. *)
Definition forced_loops (l : Locals) : Z :=
  if max_frames l =? 1 then 1 else loops l.

(** What [main] has printed and done when it reaches line 364. *)
Definition prologue (l : Locals) : list Event :=
  (if no_scroll_movement l then
     [EvStderr ("Scrolling chosen, but dx:dy = 0:0. "
                ++ "Just showing image, no scroll." ++ nl)%string]
   else [])
  ++ (if hide_cursor l then [EvCursorOff] else [])
  ++ [EvRendererCreate (canvas_options l) (grid_cols l) (grid_rows l)].

(** What [main] does after the loop, lines 382-386. *)
Definition epilogue (l : Locals) (interrupted : bool) : list Event :=
  (if hide_cursor l then [EvCursorOn] else [])
  ++ (if interrupted then [EvStdout nl] else []).

(** ** Sample inputs *)

(** A [DisplayOptions] with the given geometry and flags, no scrolling. *)
Definition display (w h : Z) (up fw fh : bool) : DisplayOptions :=
  mkDisplayOptions w h up fw fh true false 1 0 false.

(** A still image that loads: one frame, then the end of the stream. *)
Definition still (name : string) : Input :=
  mkInput name (mkAttempt true false) (mkAttempt false false)
    [mkCycle 0 false (Frame 0 false) false;
     mkCycle 1 false EndOfStream false].

(** A file that neither loader can open. *)
Definition unreadable (name : string) : Input :=
  mkInput name (mkAttempt false false) (mkAttempt false false) [].

(** An animation of three frames that wraps around for ever. *)
Definition animation (name : string) : Input :=
  mkInput name (mkAttempt true false) (mkAttempt false false)
    [mkCycle 0 false (Frame 100 false) false;
     mkCycle 100 false (Frame 100 false) false;
     mkCycle 200 false (Frame 100 false) false;
     mkCycle 300 false (Frame 100 true) false;
     mkCycle 400 false (Frame 100 false) false;
     mkCycle 500 false (Frame 100 false) false;
     mkCycle 600 false (Frame 100 true) false].

(** A still image during whose loading SIGINT arrives. *)
Definition interrupted_load (name : string) : Input :=
  mkInput name (mkAttempt true true) (mkAttempt false false)
    [mkCycle 0 false (Frame 0 false) false;
     mkCycle 1 false EndOfStream false].

(** An animation during the decoding of whose first frame SIGINT arrives. *)
Definition interrupted_decode (name : string) : Input :=
  mkInput name (mkAttempt true false) (mkAttempt false false)
    [mkCycle 0 true (Frame 100 false) false;
     mkCycle 100 false (Frame 100 false) false].

(** An image file without a frame: the stream ends at once. *)
Definition empty_stream (name : string) : Input :=
  mkInput name (mkAttempt true false) (mkAttempt false false)
    [mkCycle 0 false EndOfStream false].

(** [timg -g<w>x<h> --grid=<cols>x<rows> files...] on an 80x24 terminal, with
    [--frames] and [--loops] as given. *)
Definition invocation (w h cols rows : Z) (max_frames loops : Z)
    (files : list Input) : Locals :=
  mkLocals true 80 46 (display w h false false false) true InfiniteFuture
    max_frames loops rows cols false true true files false.

(** * The rest of timg.cc

    [usage] is above; here are [GetBoolenEnv], [DetermineTermSize] and the
    option loop of [main], lines 132-312, with the C library calls they
    make. *)

(** ** The C library, as timg.cc uses it

    [atoi] and [sscanf] are not part of the program; they are written here
    as ISO C describes them, for the two formats that occur, ["%dx%d"] and
    ["%d:%d"], in the C locale.  Where ISO C leaves the result open, a
    number that does not fit, the value is the one of glibc: [strtol]
    saturates, and the [long] is cut to an [int]. *)

Module Libc.
Definition code (c : ascii) : Z := Z.of_N (N_of_ascii c).

(** [isspace] and [isdigit] in the C locale. *)
Definition isspace (c : ascii) : bool :=
  (code c =? 32) || ((9 <=? code c) && (code c <=? 13)).

Definition isdigit (c : ascii) : bool := (48 <=? code c) && (code c <=? 57).

Fixpoint skip_spaces (s : string) : string :=
  match s with
  | String c rest => if isspace c then skip_spaces rest else s
  | EmptyString => s
  end.

(** The value of the digits at the head of [s], continuing [acc], and what
    follows them. *)
Fixpoint read_digits (acc : Z) (s : string) : Z * string :=
  match s with
  | String c rest =>
      if isdigit c then read_digits (10 * acc + (code c - 48)) rest
      else (acc, s)
  | EmptyString => (acc, s)
  end.

Definition starts_with_digit (s : string) : bool :=
  match s with
  | String c _ => isdigit c
  | EmptyString => false
  end.

Definition LONG_MIN : Z := - 2 ^ 63.
Definition LONG_MAX : Z := 2 ^ 63 - 1.

(** [strtol] delivers [LONG_MIN] or [LONG_MAX] for a value out of range. *)
Definition saturate (v : Z) : Z := Z.max LONG_MIN (Z.min LONG_MAX v).

(** A decimal number as [strtol] and [%d] accept it: an optional sign and
    at least one digit.  The value as a [long], and what follows the
    number. *)
Definition signed_number (s : string) : option (Z * string) :=
  let '(negative, s1) :=
    match s with
    | String "-" rest => (true, rest)
    | String "+" rest => (false, rest)
    | _ => (false, s)
    end in
  if starts_with_digit s1 then
    let '(v, rest) := read_digits 0 s1 in
    Some (saturate (if negative then - v else v), rest)
  else None.

Definition strtol (s : string) : Z :=
  match signed_number (skip_spaces s) with
  | Some (v, _) => v
  | None => 0
  end.

(** [atoi (s)] is [(int) strtol (s, NULL, 10)]. *)
Definition atoi (s : string) : Z := Int.wrap (strtol s).

(** One [%d] of [sscanf]: the input ends before a number begins (input
    failure), something else than a number is there (matching failure), or
    a number is stored and the rest of the input is left. *)
Inductive Conversion : Type :=
| InputFailure
| MatchingFailure
| Converted (v : Z) (rest : string).

Definition scan_d (s : string) : Conversion :=
  match skip_spaces s with
  | EmptyString => InputFailure
  | s1 =>
      match signed_number s1 with
      | Some (v, rest) => Converted (Int.wrap v) rest
      | None => MatchingFailure
      end
  end.

(** [sscanf (s, "%d<sep>%d", &a, &b)]: what was stored.  The return value is
    [EOF] when the input fails before the first conversion, else the number
    of items stored. *)
Inductive Scanned : Type :=
| ScanEOF
| ScanNone
| ScanOne (a : Z)
| ScanTwo (a b : Z).

Definition sscanf_d_d (sep : ascii) (s : string) : Scanned :=
  match scan_d s with
  | InputFailure => ScanEOF
  | MatchingFailure => ScanNone
  | Converted a rest =>
      match rest with
      | String c rest' =>
          if Ascii.eqb c sep then
            match scan_d rest' with
            | Converted b _ => ScanTwo a b
            | _ => ScanOne a
            end
          else ScanOne a
      | EmptyString => ScanOne a
      end
  end.

Definition returned (r : Scanned) : Z :=
  match r with
  | ScanEOF => -1
  | ScanNone => 0
  | ScanOne _ => 1
  | ScanTwo _ _ => 2
  end.

Definition tolower (c : ascii) : ascii :=
  if (65 <=? code c) && (code c <=? 90)
  then ascii_of_N (N_of_ascii c + 32) else c.

Fixpoint lowercase (s : string) : string :=
  match s with
  | String c rest => String (tolower c) (lowercase rest)
  | EmptyString => EmptyString
  end.

(** [strcasecmp (a, b) == 0]. *)
Definition strcasecmp_eq (a b : string) : bool :=
  String.eqb (lowercase a) (lowercase b).
End Libc.

(** ** timg.cc: [GetBoolenEnv], lines 115-118 *)

Definition GetBoolenEnv (getenv : string -> option string)
    (env_name : string) : bool :=
  match getenv env_name with
  | Some value => negb (Libc.atoi value =? 0)
  | None => false
  end.

(** ** timg.cc: [DetermineTermSize], lines 121-130 *)

(** [struct winsize], as far as it is read; both fields are
    [unsigned short]. *)
Record winsize : Type := mkWinsize {
  ws_col : Z;
  ws_row : Z
}.

Module Term.
Record TermSizeResult : Type := mkTermSizeResult {
  size_valid : bool;
  width : Z;
  height : Z
}.
End Term.

Definition STDIN_FILENO : Z := 0.
Definition STDOUT_FILENO : Z := 1.
Definition STDERR_FILENO : Z := 2.

(** The loop of lines 123-128 over the descriptors that are left;
    [tiocgwinsz fd] is what [ioctl (fd, TIOCGWINSZ, &w)] stores in [w], or
    [None] when it fails. *)
Fixpoint probe_terminals (tiocgwinsz : Z -> option winsize) (fds : list Z)
  : Term.TermSizeResult :=
  match fds with
  | [] => Term.mkTermSizeResult false (-1) (-1)
  | fd :: rest =>
      match tiocgwinsz fd with
      | Some w =>
          Term.mkTermSizeResult true (ws_col w)
            (Int.mul 2 (Int.sub (ws_row w) 1))
      | None => probe_terminals tiocgwinsz rest
      end
  end.

Definition DetermineTermSize (tiocgwinsz : Z -> option winsize)
  : Term.TermSizeResult :=
  probe_terminals tiocgwinsz [STDOUT_FILENO; STDERR_FILENO; STDIN_FILENO].

(** ** timg.cc: the option loop of [main], lines 138-312 *)

(** The fields of [DisplayOptions] that the option loop writes and the rest
    of [main] does not read, and the local [between_images_duration]. *)
Record MoreOptions : Type := mkMoreOptions {
  bg_color : option string;
  bg_pattern_color : option string;
  scroll_delay : Duration;
  exif_rotate : bool;
  center_horizontally : bool;
  auto_crop : bool;
  crop_border : Z;
  between_images_duration : Duration
}.

(** What the headers and libraries that are not embedded here provide: the
    version strings, the member initialisers of [DisplayOptions], and
    [Duration::Millis (roundf (atof (s) * 1000.0f))]. *)
Record Build : Type := mkBuild {
  TIMG_VERSION : string;
  image_version_info : string;
  video_version_info : string;
  default_options : DisplayOptions;
  default_more : MoreOptions;
  seconds : string -> Duration
}.

(** What [getopt_long] hands to the body of the loop: the option it found
    and its [optarg], which is never null for an option that requires an
    argument.  [opt_unknown] is any other return value, ['?'] among them.
    How [getopt_long] finds the options in [argv], and what it prints itself
    about an option it does not know, is not part of this model. *)
Inductive Opt : Type :=
| opt_g (optarg : string)
| opt_w (optarg : string)
| opt_t (optarg : string)
| opt_c (optarg : string)
| opt_f (optarg : string)
| opt_a
| opt_b (optarg : string)
| opt_B (optarg : string)
| opt_s (optarg : option string)
| opt_V
| opt_I
| OPT_ROTATE (optarg : string)
| OPT_GRID (optarg : string)
| opt_d (optarg : string)
| opt_C
| opt_U
| opt_T (optarg : option string)
| opt_F
| opt_E
| opt_W
| opt_v
| opt_h
| opt_unknown.

(** The locals of [main] while the options are read. *)
Record Parsing : Type := mkParsing {
  locals : Locals;
  more : MoreOptions
}.

Definition set_upscale (o : DisplayOptions) (b : bool) : DisplayOptions :=
  mkDisplayOptions (width o) (height o) b (fill_width o) (fill_height o)
    (antialias o) (scroll_animation o) (scroll_dx o) (scroll_dy o)
    (show_filename o).

Definition set_antialias (o : DisplayOptions) (b : bool) : DisplayOptions :=
  mkDisplayOptions (width o) (height o) (upscale o) (fill_width o)
    (fill_height o) b (scroll_animation o) (scroll_dx o) (scroll_dy o)
    (show_filename o).

Definition set_scroll_dx (o : DisplayOptions) (dx : Z) : DisplayOptions :=
  mkDisplayOptions (width o) (height o) (upscale o) (fill_width o)
    (fill_height o) (antialias o) (scroll_animation o) dx (scroll_dy o)
    (show_filename o).

Definition set_scroll_dy (o : DisplayOptions) (dy : Z) : DisplayOptions :=
  mkDisplayOptions (width o) (height o) (upscale o) (fill_width o)
    (fill_height o) (antialias o) (scroll_animation o) (scroll_dx o) dy
    (show_filename o).

Definition set_show_filename (o : DisplayOptions) (b : bool)
  : DisplayOptions :=
  mkDisplayOptions (width o) (height o) (upscale o) (fill_width o)
    (fill_height o) (antialias o) (scroll_animation o) (scroll_dx o)
    (scroll_dy o) b.

Definition with_display_opts (l : Locals) (o : DisplayOptions) : Locals :=
  mkLocals (size_valid l) (term_width l) (term_height l) o (hide_cursor l)
    (duration l) (max_frames l) (loops l) (grid_rows l) (grid_cols l)
    (fit_width l) (do_image_loading l) (do_video_loading l) (files l)
    (sigint_before_loop l).

Definition with_hide_cursor (l : Locals) (b : bool) : Locals :=
  mkLocals (size_valid l) (term_width l) (term_height l) (display_opts l) b
    (duration l) (max_frames l) (loops l) (grid_rows l) (grid_cols l)
    (fit_width l) (do_image_loading l) (do_video_loading l) (files l)
    (sigint_before_loop l).

Definition with_duration (l : Locals) (d : Duration) : Locals :=
  mkLocals (size_valid l) (term_width l) (term_height l) (display_opts l)
    (hide_cursor l) d (max_frames l) (loops l) (grid_rows l) (grid_cols l)
    (fit_width l) (do_image_loading l) (do_video_loading l) (files l)
    (sigint_before_loop l).

Definition with_max_frames (l : Locals) (n : Z) : Locals :=
  mkLocals (size_valid l) (term_width l) (term_height l) (display_opts l)
    (hide_cursor l) (duration l) n (loops l) (grid_rows l) (grid_cols l)
    (fit_width l) (do_image_loading l) (do_video_loading l) (files l)
    (sigint_before_loop l).

Definition with_loops (l : Locals) (n : Z) : Locals :=
  mkLocals (size_valid l) (term_width l) (term_height l) (display_opts l)
    (hide_cursor l) (duration l) (max_frames l) n (grid_rows l) (grid_cols l)
    (fit_width l) (do_image_loading l) (do_video_loading l) (files l)
    (sigint_before_loop l).

Definition with_grid (l : Locals) (cols rows : Z) : Locals :=
  mkLocals (size_valid l) (term_width l) (term_height l) (display_opts l)
    (hide_cursor l) (duration l) (max_frames l) (loops l) rows cols
    (fit_width l) (do_image_loading l) (do_video_loading l) (files l)
    (sigint_before_loop l).

Definition with_fit_width (l : Locals) (b : bool) : Locals :=
  mkLocals (size_valid l) (term_width l) (term_height l) (display_opts l)
    (hide_cursor l) (duration l) (max_frames l) (loops l) (grid_rows l)
    (grid_cols l) b (do_image_loading l) (do_video_loading l) (files l)
    (sigint_before_loop l).

Definition with_loading (l : Locals) (image video : bool) : Locals :=
  mkLocals (size_valid l) (term_width l) (term_height l) (display_opts l)
    (hide_cursor l) (duration l) (max_frames l) (loops l) (grid_rows l)
    (grid_cols l) (fit_width l) image video (files l)
    (sigint_before_loop l).

Definition on_locals (f : Locals -> Locals) (st : Parsing) : Parsing :=
  mkParsing (f (locals st)) (more st).

Definition on_display_opts (f : DisplayOptions -> DisplayOptions)
    (st : Parsing) : Parsing :=
  on_locals (fun l => with_display_opts l (f (display_opts l))) st.

Definition on_more (f : MoreOptions -> MoreOptions) (st : Parsing)
  : Parsing :=
  mkParsing (locals st) (f (more st)).

Definition with_bg_color (m : MoreOptions) (c : option string)
  : MoreOptions :=
  mkMoreOptions c (bg_pattern_color m) (scroll_delay m) (exif_rotate m)
    (center_horizontally m) (auto_crop m) (crop_border m)
    (between_images_duration m).

Definition with_bg_pattern_color (m : MoreOptions) (c : option string)
  : MoreOptions :=
  mkMoreOptions (bg_color m) c (scroll_delay m) (exif_rotate m)
    (center_horizontally m) (auto_crop m) (crop_border m)
    (between_images_duration m).

Definition with_scroll_delay (m : MoreOptions) (d : Duration) : MoreOptions :=
  mkMoreOptions (bg_color m) (bg_pattern_color m) d (exif_rotate m)
    (center_horizontally m) (auto_crop m) (crop_border m)
    (between_images_duration m).

Definition with_exif_rotate (m : MoreOptions) (b : bool) : MoreOptions :=
  mkMoreOptions (bg_color m) (bg_pattern_color m) (scroll_delay m) b
    (center_horizontally m) (auto_crop m) (crop_border m)
    (between_images_duration m).

Definition with_center_horizontally (m : MoreOptions) (b : bool)
  : MoreOptions :=
  mkMoreOptions (bg_color m) (bg_pattern_color m) (scroll_delay m)
    (exif_rotate m) b (auto_crop m) (crop_border m)
    (between_images_duration m).

Definition with_auto_crop (m : MoreOptions) (b : bool) : MoreOptions :=
  mkMoreOptions (bg_color m) (bg_pattern_color m) (scroll_delay m)
    (exif_rotate m) (center_horizontally m) b (crop_border m)
    (between_images_duration m).

Definition with_crop_border (m : MoreOptions) (n : Z) : MoreOptions :=
  mkMoreOptions (bg_color m) (bg_pattern_color m) (scroll_delay m)
    (exif_rotate m) (center_horizontally m) (auto_crop m) n
    (between_images_duration m).

Definition with_between_images_duration (m : MoreOptions) (d : Duration)
  : MoreOptions :=
  mkMoreOptions (bg_color m) (bg_pattern_color m) (scroll_delay m)
    (exif_rotate m) (center_horizontally m) (auto_crop m) (crop_border m) d.

Section Options.
Variable build : Build.
Variable WITH_TIMG_VIDEO : bool.
Variable kNotInitialized : Z.

(** [return usage (argv[0], ExitCode::kParameterError, ...)] after a
    message. *)
Definition parameter_error (message : string) : M (Parsing + Z) :=
  emit (EvStderr message) ;;
  status <- usage kParameterError ;;
  ret (inr status).

(** Lines 294-303, the text of [-v]. *)
Definition version_text : list Event :=
  [EvStderr ("timg " ++ TIMG_VERSION build
             ++ " <https://github.com/hzeller/timg>" ++ nl
             ++ "Copyright (c) 2016.. Henner Zeller. "
             ++ "This program is free software; license GPL 2.0."
             ++ nl ++ nl)%string;
   EvStderr ("Image decoding " ++ image_version_info build ++ nl)%string]
  ++ (if WITH_TIMG_VIDEO
      then [EvStderr ("Video decoding " ++ video_version_info build
                      ++ nl)%string]
      else []).

Fixpoint emit_all (t : list Event) : M unit :=
  match t with
  | [] => ret tt
  | e :: rest => emit e ;; emit_all rest
  end.

(** The [switch] of lines 185-311 for one option.  [inl]: the loop goes on
    with these locals; [inr status]: [main] returns [status].
    [WITH_TIMG_VIDEO] is the macro of lines 223, 232 and 300, defined with a
    value other than 0 or not defined at all. *)
Definition handle_option (opt : Opt) (st : Parsing) : M (Parsing + Z) :=
  match opt with
  | opt_g optarg =>
      match Libc.sscanf_d_d "x" optarg with
      | Libc.ScanTwo w h =>
          ret (inl (on_display_opts
                      (fun o => set_height (set_width o w) h) st))
      | _ => parameter_error ("Invalid size spec '" ++ optarg ++ "'")%string
      end
  | opt_w optarg =>
      ret (inl (on_more (fun m => with_between_images_duration m
                                    (seconds build optarg)) st))
  | opt_t optarg =>
      ret (inl (on_locals (fun l => with_duration l (seconds build optarg))
                  st))
  | opt_c optarg =>
      ret (inl (on_locals (fun l => with_loops l (Libc.atoi optarg)) st))
  | opt_f optarg =>
      ret (inl (on_locals (fun l => with_max_frames l (Libc.atoi optarg))
                  st))
  | opt_a => ret (inl (on_display_opts (fun o => set_antialias o false) st))
  | opt_b optarg =>
      ret (inl (on_more (fun m => with_bg_color m (Some optarg)) st))
  | opt_B optarg =>
      ret (inl (on_more (fun m => with_bg_pattern_color m (Some optarg)) st))
  | opt_s optarg =>
      let st := on_display_opts (fun o => set_scroll_animation o true) st in
      match optarg with
      | Some arg =>
          ret (inl (on_more (fun m => with_scroll_delay m
                                        (Millis (Libc.atoi arg))) st))
      | None => ret (inl st)
      end
  | opt_V =>
      if WITH_TIMG_VIDEO
      then ret (inl (on_locals (fun l => with_loading l false true) st))
      else
        emit (EvStderr ("-V: Video support not compiled in" ++ nl)%string) ;;
        ret (inl st)
  | opt_I =>
      ret (inl (on_locals
                  (fun l => with_loading l true
                              (if WITH_TIMG_VIDEO then false
                               else do_video_loading l)) st))
  | OPT_ROTATE optarg =>
      if Libc.strcasecmp_eq optarg "exif" then
        ret (inl (on_more (fun m => with_exif_rotate m true) st))
      else if Libc.strcasecmp_eq optarg "off" then
        ret (inl (on_more (fun m => with_exif_rotate m false) st))
      else
        parameter_error ("--rotate=" ++ optarg
                         ++ ": expected 'exif' or 'off'" ++ nl)%string
  | OPT_GRID optarg =>
      match Libc.sscanf_d_d "x" optarg with
      | Libc.ScanNone =>
          parameter_error ("Invalid grid spec '" ++ optarg ++ "'")%string
      | Libc.ScanOne cols =>
          ret (inl (on_locals (fun l => with_grid l cols cols) st))
      | Libc.ScanTwo cols rows =>
          ret (inl (on_locals (fun l => with_grid l cols rows) st))
      | Libc.ScanEOF => ret (inl st)
      end
  | opt_d optarg =>
      match Libc.sscanf_d_d ":" optarg with
      | Libc.ScanOne dx =>
          ret (inl (on_display_opts (fun o => set_scroll_dx o dx) st))
      | Libc.ScanTwo dx dy =>
          ret (inl (on_display_opts
                      (fun o => set_scroll_dy (set_scroll_dx o dx) dy) st))
      | _ =>
          parameter_error
            ("-d" ++ optarg
             ++ ": At least dx parameter needed e.g. -d1."
             ++ "Or you can give dx, dy like so: -d1:-1")%string
      end
  | opt_C =>
      ret (inl (on_more (fun m => with_center_horizontally m true) st))
  | opt_U =>
      ret (inl (on_display_opts
                  (fun o => set_upscale o (negb (upscale o))) st))
  | opt_T optarg =>
      let st := on_more (fun m => with_auto_crop m true) st in
      match optarg with
      | Some arg =>
          ret (inl (on_more (fun m => with_crop_border m (Libc.atoi arg))
                      st))
      | None => ret (inl st)
      end
  | opt_F =>
      ret (inl (on_display_opts
                  (fun o => set_show_filename o (negb (show_filename o)))
                  st))
  | opt_E => ret (inl (on_locals (fun l => with_hide_cursor l false) st))
  | opt_W => ret (inl (on_locals (fun l => with_fit_width l true) st))
  | opt_v => emit_all version_text ;; ret (inr 0)
  | opt_h => status <- usage kSuccess ;; ret (inr status)
  | opt_unknown => status <- usage kParameterError ;; ret (inr status)
  end.

(** The [while] of lines 182-312 over the options [getopt_long] finds. *)
Fixpoint getopt_loop (options : list Opt) (st : Parsing)
  : M (Parsing + Z) :=
  match options with
  | [] => ret (inl st)
  | opt :: rest =>
      r <- handle_option opt st ;;
      match r with
      | inl st' => getopt_loop rest st'
      | inr status => ret (inr status)
      end
  end.

(** Lines 135-151: the locals before the first option is read. *)
Definition initial (term : Term.TermSizeResult) (files : list Input)
    (sigint_before_loop : bool) : Parsing :=
  mkParsing
    (mkLocals (Term.size_valid term) (Term.width term) (Term.height term)
       (set_height (set_width (default_options build) (Term.width term))
          (Term.height term))
       true InfiniteFuture kNotInitialized kNotInitialized 1 1 false true
       true files sigint_before_loop)
    (with_between_images_duration (default_more build) (Millis 0)).

(** [main], whole: the terminal is probed, the options are read, and the
    rest runs on what they left in the locals.  [options] is what
    [getopt_long] finds in [argv], [files] what it leaves after them.
    [terminal_use_upper_block] goes to the constructor of [TerminalCanvas]
    and nowhere else. *)
Definition timg (tiocgwinsz : Z -> option winsize)
    (getenv : string -> option string) (options : list Opt)
    (files : list Input) (sigint_before_loop : bool) : M Outcome :=
  let term := DetermineTermSize tiocgwinsz in
  let terminal_use_upper_block :=
    GetBoolenEnv getenv "TIMG_USE_UPPER_BLOCK" in
  r <- getopt_loop options (initial term files sigint_before_loop) ;;
  match r with
  | inl st => main WITH_TIMG_VIDEO kNotInitialized (locals st)
  | inr status => ret (Exited status)
  end.
End Options.

(** ** Names for the proofs about the option loop and the whole program *)

(** What the option loop may cause: lines on stderr and the usage text. *)
Definition diagnostic (e : Event) : Prop :=
  match e with
  | EvStderr _ | EvUsage _ => True
  | _ => False
  end.

Definition chooses_loader (opt : Opt) : bool :=
  match opt with
  | opt_V | opt_I => true
  | _ => false
  end.

Definition gives_geometry (opt : Opt) : bool :=
  match opt with
  | opt_g _ => true
  | _ => false
  end.

(** The loop goes on from the locals an option left, or [main] returns. *)
Definition and_then (r : Parsing + Z) (k : Parsing -> M (Parsing + Z))
  : M (Parsing + Z) :=
  match r with
  | inl st => k st
  | inr status => ret (inr status)
  end.

(** The lines written to stderr and to stdout, in order. *)
Definition stderr_of (t : list Event) : list string :=
  flat_map (fun e => match e with EvStderr s => [s] | _ => [] end) t.

Definition stdout_of (t : list Event) : list string :=
  flat_map (fun e => match e with EvStdout s => [s] | _ => [] end) t.

(** How often the cursor was hidden, and how often it was shown again. *)
Definition cursor_offs (t : list Event) : nat :=
  List.length (filter (fun e => match e with EvCursorOff => true
                                | _ => false end) t).

Definition cursor_ons (t : list Event) : nat :=
  List.length (filter (fun e => match e with EvCursorOn => true
                                | _ => false end) t).

(** The flags [ImageSource::Create] was called with, in order. *)
Definition attempts (t : list Event) : list (bool * bool) :=
  flat_map (fun e => match e with
                     | EvCreate _ _ ti tv => [(ti, tv)]
                     | _ => []
                     end) t.

(** The same display lying on its side: width and height, the fill flags
    and the scroll steps change places. *)
Definition transposed (o : DisplayOptions) : DisplayOptions :=
  mkDisplayOptions (height o) (width o) (upscale o) (fill_height o)
    (fill_width o) (antialias o) (scroll_animation o) (scroll_dy o)
    (scroll_dx o) (show_filename o).

(** Where two runs of the option loop stand alike: both have ended with the
    same status, or both go on with the same locals of [main] proper. *)
Definition alike (r r' : Parsing + Z) : Prop :=
  match r, r' with
  | inl st, inl st' => locals st = locals st'
  | inr status, inr status' => status = status'
  | _, _ => False
  end.

(** ** Sample surroundings *)

(** No descriptor is a terminal: the output is piped and so is the rest. *)
Definition no_terminal : Z -> option winsize := fun _ => None.

(** Only the descriptor [fd] is a terminal, of [cols] columns and [rows]
    rows. *)
Definition terminal_on (fd cols rows : Z) : Z -> option winsize :=
  fun fd' => if fd' =? fd then Some (mkWinsize cols rows) else None.

Definition unset : string -> option string := fun _ => None.

(** A build for the examples: durations are read as whole seconds. *)
Definition sample_build : Build :=
  mkBuild "1.0" "GraphicsMagick" "libav"
    (mkDisplayOptions (-1) (-1) false false false true false 1 0 false)
    (mkMoreOptions None None (Millis 50) true false false 0 (Millis 0))
    (fun s => Millis (1000 * Libc.atoi s)).

(** The locals of [timg a.png] on an 80x24 terminal, before the options. *)
Definition sample_parsing : Parsing :=
  initial sample_build (-1) (DetermineTermSize (terminal_on STDOUT_FILENO 80 24))
    [still "a.png"] false.

(** ** Names for the proofs about rounding *)

(** The record [mrs] places [X], counted in units of [U]: [X] is
    [shr_m mrs] units and a rest [t] below one unit; the round bit says
    whether the rest is half a unit or more, the sticky bit whether the rest
    is neither nothing nor exactly half a unit. *)
Definition located (U : Z) (mrs : shr_record) (X : Z) : Prop :=
  exists t,
    X = shr_m mrs * U + t /\ 0 <= t < U
    /\ (shr_r mrs = true <-> U <= 2 * t)
    /\ (shr_s mrs = true <-> t <> 0 /\ 2 * t <> U).

(** * Properties of the geometry *)

Lemma at_least_one_positive (t : Z) : 1 <= at_least_one t.
Proof.
  unfold at_least_one. destruct (Z.leb_spec t 0); lia.
Qed.

Lemma at_least_one_id (t : Z) : 1 <= t -> at_least_one t = t.
Proof.
  unfold at_least_one. destruct (Z.leb_spec t 0); lia.
Qed.

Lemma CalcScaleToFitDisplay_native oor iw ih o :
  keeps_native_size iw ih o = true ->
  CalcScaleToFitDisplay oor iw ih o = mkScaled iw ih false.
Proof.
  unfold CalcScaleToFitDisplay. now intros ->.
Qed.

Lemma CalcScaleToFitDisplay_scaled oor iw ih o :
  keeps_native_size iw ih o = false ->
  CalcScaleToFitDisplay oor iw ih o =
    let w := at_least_one (fst (scale_to_options oor iw ih o)) in
    let h := at_least_one (snd (scale_to_options oor iw ih o)) in
    mkScaled w h (negb (w =? iw) || negb (h =? ih)).
Proof.
  unfold CalcScaleToFitDisplay. intros ->.
  now destruct (scale_to_options oor iw ih o).
Qed.

(** Comparison of floats: [<] is irreflexive and asymmetric, NaN included. *)
Lemma SFltb_irrefl (x : spec_float) : SFltb x x = false.
Proof.
  unfold SFltb.
  destruct x as [s | s | | s m e]; simpl; try reflexivity.
  - now destruct s.
  - rewrite Z.compare_refl.
    change (Pos.compare_cont Eq m m) with (Pos.compare m m).
    rewrite Pos.compare_refl. now destruct s.
Qed.

Lemma SFltb_asym (x y : spec_float) : SFltb x y = true -> SFltb y x = false.
Proof.
  unfold SFltb.
  destruct x as [sx | sx | | sx mx ex], y as [sy | sy | | sy my ey]; simpl;
    try discriminate; try reflexivity;
    try (destruct sx; discriminate || reflexivity);
    try (destruct sy; discriminate || reflexivity);
    try (destruct sx, sy; discriminate || reflexivity).
  change (Pos.compare_cont Eq my mx) with (Pos.compare my mx).
  change (Pos.compare_cont Eq mx my) with (Pos.compare mx my).
  rewrite (Z.compare_antisym ex ey), (Pos.compare_antisym mx my).
  destruct sx, sy; try discriminate; try reflexivity;
    destruct (ex ?= ey); simpl; try discriminate; try reflexivity;
    destruct (mx ?= my)%positive; simpl; discriminate || reflexivity.
Qed.

Lemma larger_of_choice (a b : F32.float) :
  larger_of (if F32.gt a b then a else b) a b.
Proof.
  unfold larger_of, F32.gt.
  destruct (SFltb b a) eqn:Hba.
  - repeat split; [now left | apply SFltb_irrefl | now apply SFltb_asym].
  - repeat split; [now right | exact Hba | apply SFltb_irrefl].
Qed.

Lemma smaller_of_choice (a b : F32.float) :
  smaller_of (if F32.lt a b then a else b) a b.
Proof.
  unfold smaller_of, F32.lt.
  destruct (SFltb a b) eqn:Hab.
  - repeat split; [now left | apply SFltb_irrefl | now apply SFltb_asym].
  - repeat split; [now right | exact Hab | apply SFltb_irrefl].
Qed.

(** [roundf] picks a nearest integer: the magnitude [m * 2^e] with [e < 0]
    is at most one half away from [nearest_away m e]. *)
Lemma nearest_away_is_nearest (m : positive) (e : Z) :
  e < 0 ->
  2 * Z.abs (Zpos m - F32.nearest_away m e * 2 ^ (- e)) <= 2 ^ (- e).
Proof.
  intros He. unfold F32.nearest_away.
  destruct (Z.leb_spec 0 e) as [H0 | _]; [lia |].
  assert (Hd : 0 < 2 ^ (- e)) by (apply Z.pow_pos_nonneg; lia).
  pose proof (Z.div_mod (Zpos m) (2 ^ (- e)) ltac:(lia)) as Hdm.
  pose proof (Z.mod_pos_bound (Zpos m) (2 ^ (- e)) Hd) as Hr.
  set (d := 2 ^ (- e)) in *.
  set (q := Zpos m / d) in *. set (r := Zpos m mod d) in *.
  destruct (Z.leb_spec d (2 * r)); nia.
Qed.

(** C1: with native width and height >= 1 and constraint width and height
    >= 1, [CalcScaleToFitDisplay] leaves a target width >= 1 and a target
    height >= 1, on the early return that keeps the native size and on the
    scaling path alike, whatever the float computation delivers. *)
Theorem CalcScaleToFitDisplay_targets_at_least_one
    (out_of_range : F32.float -> Z) (img_width img_height : Z)
    (options : DisplayOptions) :
  1 <= img_width -> 1 <= img_height ->
  1 <= width options -> 1 <= height options ->
  let g := CalcScaleToFitDisplay out_of_range img_width img_height options in
  1 <= target_width g /\ 1 <= target_height g.
Proof.
  intros Hw Hh _ _.
  destruct (keeps_native_size img_width img_height options) eqn:Hk.
  - rewrite (CalcScaleToFitDisplay_native _ _ _ _ Hk). simpl. lia.
  - rewrite (CalcScaleToFitDisplay_scaled _ _ _ _ Hk). simpl.
    split; apply at_least_one_positive.
Qed.

Lemma CalcScaleToFitDisplay_targets_at_least_one_witness :
  let g := CalcScaleToFitDisplay F32.cvttss2si_indefinite 1000 1
             (display 100 100 false false false) in
  g = mkScaled 100 1 true /\ 1 <= target_width g /\ 1 <= target_height g.
Proof.
  split; [vm_compute; reflexivity |].
  apply (CalcScaleToFitDisplay_targets_at_least_one
           F32.cvttss2si_indefinite 1000 1
           (display 100 100 false false false)); simpl; lia.
Defined.

(** C9: the boolean [CalcScaleToFitDisplay] returns is true exactly when the
    target width differs from the native width or the target height differs
    from the native height. *)
Theorem was_scaled_iff_target_differs
    (out_of_range : F32.float -> Z) (img_width img_height : Z)
    (options : DisplayOptions) :
  let g := CalcScaleToFitDisplay out_of_range img_width img_height options in
  was_scaled g = true <->
  (target_width g <> img_width \/ target_height g <> img_height).
Proof.
  destruct (keeps_native_size img_width img_height options) eqn:Hk.
  - rewrite (CalcScaleToFitDisplay_native _ _ _ _ Hk). simpl.
    split; [discriminate | intros [H | H]; now elim H].
  - rewrite (CalcScaleToFitDisplay_scaled _ _ _ _ Hk). simpl.
    rewrite orb_true_iff, !negb_true_iff, !Z.eqb_neq. tauto.
Qed.

(** C10: when the early return is not taken and exactly one fill flag is
    set, the hard-constrained axis is the constraint itself, not a product
    that was rounded: with only [fill_height] the target height before the
    clamp is [options.height], with only [fill_width] the target width
    before the clamp is [options.width]; the clamp then maps a value <= 0
    to 1 and leaves any other as it is. *)
Theorem hard_axis_equals_constraint
    (out_of_range : F32.float -> Z) (img_width img_height : Z)
    (options : DisplayOptions) :
  keeps_native_size img_width img_height options = false ->
  let before_clamp :=
    scale_to_options out_of_range img_width img_height options in
  let g := CalcScaleToFitDisplay out_of_range img_width img_height options in
  (fill_height options = true -> fill_width options = false ->
   snd before_clamp = height options /\
   target_height g = at_least_one (height options) /\
   (1 <= height options -> target_height g = height options))
  /\
  (fill_width options = true -> fill_height options = false ->
   fst before_clamp = width options /\
   target_width g = at_least_one (width options) /\
   (1 <= width options -> target_width g = width options)).
Proof.
  intros Hk before_clamp g. subst before_clamp g.
  rewrite (CalcScaleToFitDisplay_scaled _ _ _ _ Hk). simpl.
  unfold scale_to_options.
  split; intros H1 H2; rewrite H1, H2; simpl;
    (split; [reflexivity | split; [reflexivity | apply at_least_one_id]]).
Qed.

Lemma hard_axis_equals_constraint_witness :
  keeps_native_size 200 100 (display 100 100 false true false) = false /\
  target_width (CalcScaleToFitDisplay F32.cvttss2si_indefinite 200 100
                  (display 100 100 false true false)) = 100 /\
  keeps_native_size 100 200 (display 100 100 false false true) = false /\
  target_height (CalcScaleToFitDisplay F32.cvttss2si_indefinite 100 200
                   (display 100 100 false false true)) = 100.
Proof.
  assert (H1 : keeps_native_size 200 100 (display 100 100 false true false)
               = false) by (vm_compute; reflexivity).
  assert (H2 : keeps_native_size 100 200 (display 100 100 false false true)
               = false) by (vm_compute; reflexivity).
  split; [exact H1 | split; [| split; [exact H2 |]]].
  - apply (hard_axis_equals_constraint F32.cvttss2si_indefinite 200 100
             (display 100 100 false true false) H1);
      [reflexivity | reflexivity | simpl; lia].
  - apply (hard_axis_equals_constraint F32.cvttss2si_indefinite 100 200
             (display 100 100 false false true) H2);
      [reflexivity | reflexivity | simpl; lia].
Defined.

(** * Single precision on the integers up to 2^24

    Every integer from 1 to 2^24 is a binary32 number; multiplying it by
    1.0, rounding it and converting it back give the integer again, and a
    quotient of two of them is 1.0 only when they are equal. *)

Lemma digits2_pos_bounds (p : positive) :
  2 ^ (Zpos (digits2_pos p) - 1) <= Zpos p < 2 ^ Zpos (digits2_pos p).
Proof.
  induction p as [p IH | p IH |]; cbn [digits2_pos];
    rewrite ?Pos2Z.inj_succ.
  - replace (Z.succ (Zpos (digits2_pos p)) - 1)
      with (Z.succ (Zpos (digits2_pos p) - 1)) by lia.
    rewrite !Z.pow_succ_r by lia. lia.
  - replace (Z.succ (Zpos (digits2_pos p)) - 1)
      with (Z.succ (Zpos (digits2_pos p) - 1)) by lia.
    rewrite !Z.pow_succ_r by lia. lia.
  - cbn. lia.
Qed.

Lemma digits2_pos_unique (p : positive) (d : Z) :
  2 ^ (d - 1) <= Zpos p < 2 ^ d -> Zpos (digits2_pos p) = d.
Proof.
  intros [Hlo Hhi]. pose proof (digits2_pos_bounds p) as [Blo Bhi].
  assert (0 < d).
  { destruct (Z.ltb_spec 0 d); [assumption |].
    assert (2 ^ d <= 1); [| lia].
    destruct (Z.eqb_spec d 0); [subst; cbn; lia |].
    rewrite Z.pow_neg_r by lia. lia. }
  set (n := Zpos (digits2_pos p)) in *.
  assert (n - 1 < d) by (apply (Z.pow_lt_mono_r_iff 2); lia).
  assert (d - 1 < n) by (apply (Z.pow_lt_mono_r_iff 2); lia).
  lia.
Qed.

Lemma normal_digits m : normal m -> digits2_pos m = 24%positive.
Proof.
  intros H. apply (digits2_pos_unique m 24) in H. congruence.
Qed.

Lemma round_exact (s : bool) (m : positive) (e : Z) :
  normal m -> -149 <= e <= 104 ->
  binary_round_aux 24 128 s (Zpos m) e loc_Exact = S754_finite s m e.
Proof.
  intros Hm He. unfold binary_round_aux, shr_fexp.
  cbn [Zdigits2 shr_record_of_loc]. rewrite (normal_digits m Hm).
  replace (fexp 24 128 (24 + e) - e) with 0
    by (unfold fexp, emin; lia).
  cbn [shr shr_m loc_of_shr_record round_nearest_even Zdigits2].
  rewrite (normal_digits m Hm).
  replace (fexp 24 128 (24 + e) - e) with 0
    by (unfold fexp, emin; lia).
  cbn [shr shr_m].
  destruct (Z.leb_spec e (128 - 24)); [reflexivity | lia].
Qed.

Lemma iter_xO_value (p k : positive) :
  Zpos (Pos.iter xO p k) = Zpos p * 2 ^ Zpos k.
Proof.
  induction k as [| k IH] using Pos.peano_ind.
  - cbn. lia.
  - rewrite Pos.iter_succ, Pos2Z.inj_xO, IH, Pos2Z.inj_succ.
    rewrite Z.pow_succ_r by lia. lia.
Qed.

Lemma of_int_represents (n : Z) :
  1 <= n <= 2 ^ 24 ->
  exists m e, F32.of_int n = S754_finite false m e /\ represents n m e.
Proof.
  intros Hn. destruct n as [| p | p]; try lia.
  destruct (Z.eq_dec (Zpos p) (2 ^ 24)) as [E | NE].
  { injection E as ->. exists 8388608%positive, 1.
    split; [vm_compute; reflexivity |].
    unfold represents, normal. cbn. lia. }
  assert (Hp : Zpos p < 2 ^ 24) by lia.
  pose proof (digits2_pos_bounds p) as [Blo Bhi].
  set (d := Zpos (digits2_pos p)) in *.
  assert (Hd : 1 <= d <= 24).
  { split; [subst d; lia |].
    assert (d - 1 < 24); [| lia].
    apply (Z.pow_lt_mono_r_iff 2); lia. }
  unfold F32.of_int, binary_normalize, binary_round.
  fold d. replace (fexp F32.prec F32.emax (d + 0)) with (d - 24)
    by (unfold fexp, emin, F32.prec, F32.emax; lia).
  unfold shl_align.
  destruct (d - 24 - 0) as [| k | k] eqn:Ek; try lia.
  - exists p, 0. assert (d = 24) by lia.
    assert (Hnorm : normal p) by (unfold normal; replace 23 with (d - 1) by lia; lia).
    split; [apply round_exact; [exact Hnorm | lia] |].
    unfold represents. repeat split; try apply Hnorm; try lia.
  - exists (Pos.iter xO p k), (d - 24).
    assert (Hk : Zpos k = 24 - d) by lia.
    assert (Hpow : 2 ^ Zpos k * 2 ^ (d - 1) = 2 ^ 23).
    { rewrite <- Z.pow_add_r by lia. f_equal. lia. }
    assert (Hpow' : 2 ^ Zpos k * 2 ^ d = 2 ^ 24).
    { rewrite <- Z.pow_add_r by lia. f_equal. lia. }
    assert (Hnorm : normal (Pos.iter xO p k)).
    { unfold normal. rewrite iter_xO_value.
      assert (0 < 2 ^ Zpos k) by (apply Z.pow_pos_nonneg; lia).
      nia. }
    split; [apply round_exact; [exact Hnorm | lia] |].
    unfold represents. repeat split; try apply Hnorm; try lia.
    rewrite iter_xO_value.
    replace (d - 24 + 23) with (d - 1) by lia.
    rewrite <- Z.mul_assoc, Hpow. reflexivity.
Qed.

Lemma one_value : F32.one = S754_finite false 8388608 (-23).
Proof. vm_compute. reflexivity. Qed.

Lemma mul_one_l (m : positive) (e : Z) :
  normal m -> -23 <= e <= 1 ->
  F32.mul F32.one (S754_finite false m e) = S754_finite false m e.
Proof.
  intros Hm He. rewrite one_value. unfold F32.mul, SFmul.
  cbn [xorb Pos.mul].
  unfold binary_round_aux, shr_fexp.
  cbn [Zdigits2 digits2_pos shr_record_of_loc].
  rewrite (normal_digits m Hm). cbn [Pos.succ].
  replace (fexp F32.prec F32.emax (47 + (-23 + e)) - (-23 + e)) with 23
    by (unfold fexp, emin, F32.prec, F32.emax; lia).
  cbn [shr iter_pos shr_1 orb shr_m loc_of_shr_record round_nearest_even
       Zdigits2].
  rewrite (normal_digits m Hm).
  replace (fexp F32.prec F32.emax (24 + (-23 + e + 23)) - (-23 + e + 23))
    with 0 by (unfold fexp, emin, F32.prec, F32.emax; lia).
  cbn [shr shr_m].
  replace (-23 + e + 23) with e by lia.
  destruct (Z.leb_spec e (F32.emax - F32.prec)); [reflexivity |].
  unfold F32.emax, F32.prec in *. lia.
Qed.

Lemma roundf_integral (n : Z) (m : positive) (e : Z) :
  1 <= n <= 2 ^ 24 -> F32.of_int n = S754_finite false m e ->
  represents n m e ->
  F32.roundf (S754_finite false m e) = S754_finite false m e
  /\ F32.truncate (S754_finite false m e) = Some n.
Proof.
  intros Hn Hof (Hm & He & Hval). unfold F32.roundf, F32.truncate.
  destruct (Z.leb_spec 0 e) as [H0 | H0].
  - split; [reflexivity |]. cbn [cond_Zopp]. f_equal.
    rewrite Z.shiftl_mul_pow2 by lia.
    rewrite Z.pow_add_r in Hval by lia.
    assert (0 < 2 ^ 23) by (apply Z.pow_pos_nonneg; lia). nia.
  - assert (Hd : 0 < 2 ^ (- e)) by (apply Z.pow_pos_nonneg; lia).
    assert (Hmn : Zpos m = n * 2 ^ (- e)).
    { assert (Hs : 2 ^ 23 = 2 ^ (e + 23) * 2 ^ (- e)).
      { rewrite <- Z.pow_add_r by lia. f_equal. lia. }
      assert (0 < 2 ^ (e + 23)) by (apply Z.pow_pos_nonneg; lia).
      rewrite Hs in Hval. nia. }
    assert (Hq : Zpos m / 2 ^ (- e) = n)
      by (rewrite Hmn; apply Z.div_mul; lia).
    assert (Hr : Zpos m mod 2 ^ (- e) = 0)
      by (rewrite Hmn; apply Z.mod_mul; lia).
    split.
    + unfold F32.nearest_away.
      destruct (Z.leb_spec 0 e); [lia |].
      rewrite Hq, Hr.
      destruct (Z.leb_spec (2 ^ (- e)) (2 * 0)); [lia |].
      cbn [cond_Zopp]. exact Hof.
    + cbn [cond_Zopp]. now rewrite Hq.
Qed.

Lemma scaled_by_one (oor : F32.float -> Z) (n : Z) :
  1 <= n <= 2 ^ 24 -> scaled_by oor F32.one n = n.
Proof.
  intros Hn. destruct (of_int_represents n Hn) as (m & e & Hof & Hrep).
  unfold scaled_by. rewrite Hof.
  destruct Hrep as (Hm & He & Hval).
  rewrite (mul_one_l m e Hm He).
  destruct (roundf_integral n m e Hn Hof (conj Hm (conj He Hval)))
    as [-> Ht].
  unfold F32.to_int. rewrite Ht.
  unfold Int.in_range, Int.min_signed, Int.max_signed.
  destruct (Z.leb_spec (- 2 ^ 31) n); [| lia].
  destruct (Z.leb_spec n (2 ^ 31 - 1)); [reflexivity | lia].
Qed.

(** A float that is >= 1.0 and not > 1.0 is 1.0. *)
Lemma ge_not_gt_one (x : F32.float) :
  F32.ge x F32.one = true -> F32.gt x F32.one = false -> x = F32.one.
Proof.
  rewrite one_value. unfold F32.ge, F32.gt, SFleb, SFltb.
  destruct x as [s | s | | s m e]; cbn [SFcompare]; try discriminate;
    try (destruct s; discriminate).
  destruct s; [discriminate |].
  destruct (Z.compare_spec (-23) e) as [<- | _ | _]; try discriminate.
  change (Pos.compare_cont Eq 8388608 m) with (Pos.compare 8388608 m).
  destruct (Pos.compare_spec 8388608 m) as [<- | _ | _]; try discriminate.
  reflexivity.
Qed.

Lemma new_location_spec (b r : Z) :
  0 < b -> 0 <= r < b ->
  match new_location b r with
  | loc_Exact => r = 0
  | loc_Inexact Lt => 0 < r /\ 2 * r < b
  | loc_Inexact Eq => 0 < r /\ 2 * r = b
  | loc_Inexact Gt => 2 * r > b
  end.
Proof.
  intros Hb Hr. unfold new_location, new_location_even, new_location_odd.
  destruct (Z.even b) eqn:Heven; destruct (Z.eqb_spec r 0) as [-> | Hr0];
    try reflexivity.
  - destruct (Z.compare_spec (2 * r) b); lia.
  - assert (Hodd : Z.odd b = true) by (rewrite <- Z.negb_even; now rewrite Heven).
    apply Z.odd_spec in Hodd. destruct Hodd as [c Hc].
    destruct (Z.compare_spec (2 * r + 1) b); lia.
Qed.

Lemma loc_of_shr_record_of_loc (m : Z) (l : location) :
  loc_of_shr_record (shr_record_of_loc m l) = l.
Proof. destruct l as [| []]; reflexivity. Qed.

Lemma shr_m_of_loc (m : Z) (l : location) :
  shr_m (shr_record_of_loc m l) = m.
Proof. destruct l as [| []]; reflexivity. Qed.

(** The second rounding step of [binary_round_aux], on a mantissa between
    2^23 and 2^24. *)
Lemma second_shift (s : bool) (m1 e1 : Z) :
  2 ^ 23 <= m1 <= 2 ^ 24 -> -149 <= e1 <= 100 ->
  (let '(mrs, e2) := shr_fexp 24 128 m1 e1 loc_Exact in
   match shr_m mrs with
   | 0 => S754_zero s
   | Zpos m => if e2 <=? 128 - 24 then S754_finite s m e2
               else S754_infinity s
   | Zneg _ => S754_nan
   end)
  = if m1 =? 2 ^ 24 then S754_finite s 8388608 (e1 + 1)
    else S754_finite s (Z.to_pos m1) e1.
Proof.
  intros Hm He. destruct (Z.eqb_spec m1 (2 ^ 24)) as [-> | Hne].
  - unfold shr_fexp. cbn [Zdigits2 digits2_pos Z.pow Z.pow_pos Pos.iter Z.mul Pos.mul Pos.succ].
    replace (fexp 24 128 (25 + e1) - e1) with 1
      by (unfold fexp, emin; lia).
    cbn. destruct (Z.leb_spec (e1 + 1) 104); [reflexivity | lia].
  - destruct m1 as [| p | p]; try lia.
    assert (Hn : normal p) by (unfold normal; lia).
    unfold shr_fexp. cbn [Zdigits2]. rewrite (normal_digits p Hn).
    replace (fexp 24 128 (24 + e1) - e1) with 0
      by (unfold fexp, emin; lia).
    cbn. destruct (Z.leb_spec e1 104); [reflexivity | lia].
Qed.

Lemma div_unfold (ma mb : positive) (ea eb : Z) :
  normal ma -> normal mb -> -23 <= ea <= 1 -> -23 <= eb <= 1 ->
  F32.div (S754_finite false ma ea) (S754_finite false mb eb) =
  binary_round_aux 24 128 false
    ((Zpos ma * 2 ^ 24) / Zpos mb) (ea - eb - 24)
    (new_location (Zpos mb) ((Zpos ma * 2 ^ 24) mod Zpos mb)).
Proof.
  intros Ha Hb Hea Heb. unfold F32.div, SFdiv, SFdiv_core_binary.
  cbn [Zdigits2 xorb]. rewrite (normal_digits ma Ha), (normal_digits mb Hb).
  replace (Z.min (fexp F32.prec F32.emax (24 + ea - (24 + eb))) (ea - eb))
    with (ea - eb - 24)
    by (unfold fexp, emin, F32.prec, F32.emax; lia).
  replace (ea - eb - (ea - eb - 24)) with 24 by lia.
  cbv iota. rewrite Z.shiftl_mul_pow2 by lia.
  unfold Z.div, Z.modulo.
  destruct (Z.div_eucl (Zpos ma * 2 ^ 24) (Zpos mb)) as [q r].
  reflexivity.
Qed.

Lemma first_shift_none (q e : Z) (l : location) :
  2 ^ 23 <= q < 2 ^ 24 -> -149 <= e ->
  shr_fexp 24 128 q e l = (shr_record_of_loc q l, e).
Proof.
  intros Hq He. destruct q as [| p | p]; try lia.
  unfold shr_fexp. cbn [Zdigits2]. rewrite (normal_digits p Hq).
  replace (fexp 24 128 (24 + e) - e) with 0 by (unfold fexp, emin; lia).
  reflexivity.
Qed.

Lemma first_shift_one (q e : Z) (l : location) :
  2 ^ 24 <= q < 2 ^ 25 -> -149 <= e ->
  shr_fexp 24 128 q e l = (shr_1 (shr_record_of_loc q l), e + 1).
Proof.
  intros Hq He. destruct q as [| p | p]; try lia.
  unfold shr_fexp. cbn [Zdigits2].
  assert (Hd : Zpos (digits2_pos p) = 25)
    by (apply digits2_pos_unique; exact Hq).
  rewrite Hd.
  replace (fexp 24 128 (25 + e) - e) with 1 by (unfold fexp, emin; lia).
  reflexivity.
Qed.

(** One shift to the right halves the mantissa, keeps the bit that fell off
    as the round bit and what was there before as the sticky bit. *)
Lemma shr_1_spec (q : Z) (l : location) :
  2 <= q ->
  exists h b,
    q = 2 * h + Z.b2z b
    /\ shr_1 (shr_record_of_loc q l)
       = Build_shr_record h b
           match l with loc_Exact => false | _ => true end.
Proof.
  intros Hq. destruct q as [| p | p]; try lia.
  destruct p as [p | p |]; try lia.
  - exists (Zpos p), true. split; [now rewrite Pos2Z.inj_xI |].
    destruct l as [| []]; reflexivity.
  - exists (Zpos p), false. split; [rewrite Pos2Z.inj_xO; cbn [Z.b2z]; lia |].
    destruct l as [| []]; reflexivity.
Qed.

Lemma round_nearest_even_bounds (m : Z) (l : location) :
  m <= round_nearest_even m l <= m + 1.
Proof.
  destruct l as [| []]; cbn [round_nearest_even]; try lia.
  destruct (Z.even m); lia.
Qed.

Lemma div_one_inv (ma mb : positive) (ea eb : Z) :
  normal ma -> normal mb -> -23 <= ea <= 1 -> -23 <= eb <= 1 ->
  F32.div (S754_finite false ma ea) (S754_finite false mb eb)
  = S754_finite false 8388608 (-23) ->
  ma = mb /\ ea = eb.
Proof.
  intros Ha Hb Hea Heb H. rewrite (div_unfold ma mb ea eb Ha Hb Hea Heb) in H.
  unfold normal in Ha, Hb.
  set (A := Zpos ma) in *. set (B := Zpos mb) in *.
  assert (HB : 0 < B) by lia.
  pose proof (Z.div_mod (A * 2 ^ 24) B ltac:(lia)) as Hdm.
  pose proof (Z.mod_pos_bound (A * 2 ^ 24) B HB) as Hr.
  pose proof (new_location_spec B ((A * 2 ^ 24) mod B) HB Hr) as Hloc.
  set (q := A * 2 ^ 24 / B) in *. set (r := (A * 2 ^ 24) mod B) in *.
  set (l := new_location B r) in *.
  unfold binary_round_aux in H.
  assert (Goal : A = B /\ ea = eb);
    [| destruct Goal as [HAB ?]; split; [| assumption];
       subst A B; now injection HAB].
  destruct (Z_lt_le_dec A B) as [Hlt | Hge].
  - assert (Hq : 2 ^ 23 <= q < 2 ^ 24) by nia.
    rewrite (first_shift_none q _ l Hq) in H by lia.
    rewrite shr_m_of_loc, loc_of_shr_record_of_loc in H.
    pose proof (round_nearest_even_bounds q l) as Hm1.
    rewrite second_shift in H by lia.
    destruct (Z.eqb_spec (round_nearest_even q l) (2 ^ 24)) as [E | NE].
    + injection H as He. exfalso.
      destruct l as [| []]; cbn [round_nearest_even] in E; try nia.
      destruct (Z.even q); nia.
    + injection H as Hm He. exfalso.
      assert (Hm1' : round_nearest_even q l = 2 ^ 23).
      { rewrite <- (Z2Pos.id (round_nearest_even q l)) by lia.
        rewrite Hm. reflexivity. }
      clear Hm.
      destruct l as [| []]; cbn [round_nearest_even] in Hm1'; try nia.
      destruct (Z.even q); nia.
  - assert (Hq : 2 ^ 24 <= q < 2 ^ 25) by nia.
    rewrite (first_shift_one q _ l Hq) in H by lia.
    destruct (shr_1_spec q l ltac:(lia)) as (h & b & Hqh & Hshr).
    rewrite Hshr in H. cbn [shr_m] in H.
    set (l' := loc_of_shr_record _) in H.
    pose proof (round_nearest_even_bounds h l') as Hm1.
    assert (Hb01 : Z.b2z b = 0 \/ Z.b2z b = 1) by (destruct b; cbn; auto).
    rewrite second_shift in H by lia.
    destruct (Z.eqb_spec (round_nearest_even h l') (2 ^ 24)) as [E | NE].
    + injection H as He. exfalso.
      subst l'. destruct b, l as [| []];
        cbn [loc_of_shr_record round_nearest_even Z.b2z] in *;
        try (destruct (Z.even h)); nia.
    + injection H as Hm He.
      assert (Hm1' : round_nearest_even h l' = 2 ^ 23).
      { rewrite <- (Z2Pos.id (round_nearest_even h l')) by lia.
        rewrite Hm. reflexivity. }
      clear Hm.
      subst l'. destruct b, l as [| []];
        cbn [loc_of_shr_record round_nearest_even Z.b2z] in *;
        try (destruct (Z.even h)); try nia; split; nia.
Qed.

Lemma fraction_one_inv (a b : Z) :
  1 <= a <= 2 ^ 24 -> 1 <= b <= 2 ^ 24 ->
  F32.div (F32.of_int a) (F32.of_int b) = F32.one -> a = b.
Proof.
  intros Ha Hb H.
  destruct (of_int_represents a Ha) as (ma & ea & Hofa & Hma & Hea & Hva).
  destruct (of_int_represents b Hb) as (mb & eb & Hofb & Hmb & Heb & Hvb).
  rewrite Hofa, Hofb, one_value in H.
  destruct (div_one_inv ma mb ea eb Hma Hmb Hea Heb H) as [-> ->].
  assert (0 < 2 ^ 23) by (apply Z.pow_pos_nonneg; lia). nia.
Qed.

Lemma native_size_kept_in_range
    (oor : F32.float -> Z) (iw ih : Z) (o : DisplayOptions) :
  1 <= iw <= 2 ^ 24 -> 1 <= ih <= 2 ^ 24 ->
  1 <= width o <= 2 ^ 24 -> 1 <= height o <= 2 ^ 24 ->
  upscale o = false ->
  F32.ge (width_fraction iw o) F32.one = true ->
  F32.ge (height_fraction ih o) F32.one = true ->
  CalcScaleToFitDisplay oor iw ih o = mkScaled iw ih false.
Proof.
  intros Hiw Hih Hw Hh Hup Hwf Hhf.
  destruct (keeps_native_size iw ih o) eqn:Hk;
    [now apply CalcScaleToFitDisplay_native |].
  rewrite (CalcScaleToFitDisplay_scaled _ _ _ _ Hk).
  assert (Hone_w : F32.gt (width_fraction iw o) F32.one = false ->
                   width_fraction iw o = F32.one /\ width o = iw).
  { intros Hgt. pose proof (ge_not_gt_one _ Hwf Hgt) as E.
    split; [exact E |]. now apply fraction_one_inv. }
  assert (Hone_h : F32.gt (height_fraction ih o) F32.one = false ->
                   height_fraction ih o = F32.one /\ height o = ih).
  { intros Hgt. pose proof (ge_not_gt_one _ Hhf Hgt) as E.
    split; [exact E |]. now apply fraction_one_inv. }
  assert (Hpair : scale_to_options oor iw ih o = (iw, ih)).
  { unfold keeps_native_size in Hk. rewrite Hup in Hk. cbn [negb andb] in Hk.
    unfold scale_to_options.
    fold (scaled_by oor (width_fraction iw o) ih).
    fold (scaled_by oor (height_fraction ih o) iw).
    destruct (fill_width o), (fill_height o); cbn [orb andb] in *.
    - discriminate.
    - rewrite andb_true_r in Hk.
      destruct (Hone_w Hk) as [-> ->]. now rewrite scaled_by_one.
    - destruct (Hone_h Hk) as [-> ->]. now rewrite scaled_by_one.
    - match goal with
      | |- (F32.to_int oor (F32.roundf (F32.mul ?f _)), _) = _ =>
          assert (Hf : f = F32.one)
      end.
      { destruct (F32.gt (width_fraction iw o) F32.one) eqn:Hgw.
        - cbn [andb] in Hk. destruct (Hone_h Hk) as [Eh _].
          unfold F32.gt in Hgw. rewrite Eh in *.
          unfold F32.lt. now rewrite (SFltb_asym _ _ Hgw).
        - destruct (Hone_w eq_refl) as [Ew _]. rewrite Ew.
          destruct (F32.lt F32.one (height_fraction ih o)) eqn:Hlt;
            [reflexivity |].
          apply ge_not_gt_one; [exact Hhf | exact Hlt]. }
      rewrite Hf.
      fold (scaled_by oor F32.one iw). fold (scaled_by oor F32.one ih).
      now rewrite !scaled_by_one. }
  rewrite Hpair. cbn [fst snd].
  rewrite !at_least_one_id by lia. cbv zeta. now rewrite !Z.eqb_refl.
Qed.

(** The other native/target pairs of section 8. *)
Example section8_pairs (out_of_range : F32.float -> Z) :
  CalcScaleToFitDisplay out_of_range 100 100
    (display 50 50 false false false) = mkScaled 50 50 true
  /\ CalcScaleToFitDisplay out_of_range 50 50
       (display 100 100 true false false) = mkScaled 100 100 true.
Proof.
  split; vm_compute; reflexivity.
Qed.

(** The sample of the specification's step 2 does not meet the condition as
    the specification words it: the fractions are 2.0, not <= 1.0. *)
Example sample_outside_worded_condition :
  already_fits_as_worded 50 50 (display 100 100 false false false) = false
  /\ keeps_native_size 50 50 (display 100 100 false false false) = true.
Proof.
  split; vm_compute; reflexivity.
Qed.

(** C2, as worded, fails: a 16777217x1 image under constraints 16777217x1,
    no fill flag and no upscaling, meets the worded condition (both
    fractions are exactly 1.0 in single precision), yet the code takes the
    scaling path, where [(float) 16777217] is 16777216, and returns
    (16777216, 1, true). *)
Lemma already_fits_as_worded_counterexample :
  already_fits_as_worded 16777217 1 (display 16777217 1 false false false)
  = true
  /\ CalcScaleToFitDisplay F32.cvttss2si_indefinite 16777217 1
       (display 16777217 1 false false false)
     = mkScaled 16777216 1 true
  /\ CalcScaleToFitDisplay F32.cvttss2si_indefinite 16777217 1
       (display 16777217 1 false false false)
     <> mkScaled 16777217 1 false.
Proof.
  split; [vm_compute; reflexivity |].
  split; [vm_compute; reflexivity |].
  vm_compute. discriminate.
Qed.

(** C2, amended: when upscaling is disabled and, on each axis, the other
    fill flag is requested or the fraction is greater than 1.0, the native
    size is returned unchanged with [was_scaled = false].  When all four
    dimensions are between 1 and 2^24, the integers that single precision
    holds exactly, the same is true whenever upscaling is disabled and both
    fractions are >= 1.0, hence also under the condition as the
    specification words it.  In particular a 50x50 image under constraints
    100x100 without fill flags and without upscaling gives
    (50, 50, false). *)
Theorem native_size_kept_without_upscale
    (out_of_range : F32.float -> Z) (img_width img_height : Z)
    (options : DisplayOptions) :
  upscale options = false ->
  let wf := width_fraction img_width options in
  let hf := height_fraction img_height options in
  let g := CalcScaleToFitDisplay out_of_range img_width img_height options in
  let exact :=
    1 <= img_width <= 2 ^ 24 /\ 1 <= img_height <= 2 ^ 24 /\
    1 <= width options <= 2 ^ 24 /\ 1 <= height options <= 2 ^ 24 in
  ((fill_height options = true \/ F32.gt wf F32.one = true) ->
   (fill_width options = true \/ F32.gt hf F32.one = true) ->
   g = mkScaled img_width img_height false)
  /\ (exact -> F32.ge wf F32.one = true -> F32.ge hf F32.one = true ->
      g = mkScaled img_width img_height false)
  /\ (exact ->
      already_fits_as_worded img_width img_height options = true ->
      g = mkScaled img_width img_height false)
  /\ CalcScaleToFitDisplay out_of_range 50 50
       (display 100 100 false false false) = mkScaled 50 50 false.
Proof.
  intros Hup wf hf g exact.
  assert (Hexact : exact -> F32.ge wf F32.one = true ->
                   F32.ge hf F32.one = true ->
                   g = mkScaled img_width img_height false).
  { intros (Hiw & Hih & Hw & Hh) Hwf Hhf.
    now apply native_size_kept_in_range. }
  split; [| split; [exact Hexact | split; [| vm_compute; reflexivity]]].
  - intros Hw Hh. apply CalcScaleToFitDisplay_native.
    unfold keeps_native_size. rewrite Hup. cbn [negb andb].
    apply andb_true_iff. split; apply orb_true_iff; assumption.
  - intros Hrange Hworded. unfold already_fits_as_worded in Hworded.
    apply andb_true_iff in Hworded. destruct Hworded as [Hworded Hhf].
    apply andb_true_iff in Hworded. destruct Hworded as [_ Hwf].
    now apply Hexact.
Qed.

Lemma native_size_kept_without_upscale_witness :
  CalcScaleToFitDisplay F32.cvttss2si_indefinite 30 20
    (display 100 100 false false false) = mkScaled 30 20 false
  /\ already_fits_as_worded 7 5 (display 7 5 false true false) = true
  /\ CalcScaleToFitDisplay F32.cvttss2si_indefinite 7 5
       (display 7 5 false true false) = mkScaled 7 5 false.
Proof.
  split; [| split; [vm_compute; reflexivity |]].
  - destruct (native_size_kept_without_upscale F32.cvttss2si_indefinite
                30 20 (display 100 100 false false false) eq_refl)
      as (H & _).
    apply H; right; vm_compute; reflexivity.
  - destruct (native_size_kept_without_upscale F32.cvttss2si_indefinite
                7 5 (display 7 5 false true false) eq_refl)
      as (_ & _ & H & _).
    apply H; [cbn; lia | vm_compute; reflexivity].
Defined.

(** * Running a computation *)

Lemma bind_run {A B : Type} (m : M A) (k : A -> M B) (flag : bool) :
  bind m k flag =
  (value (k (value (m flag)) (flag_after (m flag))),
   events (m flag) ++ events (k (value (m flag)) (flag_after (m flag))),
   flag_after (k (value (m flag)) (flag_after (m flag)))).
Proof.
  unfold bind, value, events, flag_after.
  destruct (m flag) as [[a t1] f1]. simpl.
  now destruct (k a f1) as [[b t2] f2].
Qed.

(** * The sequencer, one cycle at a time *)

Section PlayFacts.
Variable k : Z.
Variables (name : string) (d : Duration) (mf ml : Z).

Lemma play_cancelled script st :
  play k name d mf ml script st true = (Some Cancelled, st, [], true).
Proof. now destruct script. Qed.

Lemma play_nil st :
  play k name d mf ml [] st false = (None, st, [], false).
Proof. reflexivity. Qed.

Lemma play_cons c rest st :
  play k name d mf ml (c :: rest) st false =
  if duration_exceeded d (elapsed c) then
    (Some DurationExceeded, st, [], false)
  else if frame_limit_reached k mf st then
    (Some FrameLimitReached, st, [], false)
  else
    match decoded c with
    | EndOfStream => (Some SourceExhausted, st, [], sigint_while_decoding c)
    | DecodeFail =>
        (Some DecodeError, st, [EvDecodeError name],
         sigint_while_decoding c)
    | Frame _ is_loop_wrap =>
        let st1 := if is_loop_wrap then wrapped st else st in
        if is_loop_wrap && loop_limit_reached ml st1 then
          (Some LoopLimitReached, st1, [], sigint_while_decoding c)
        else
          let r := play k name d mf ml rest (counted st1)
                     (sigint_while_decoding c || sigint_while_suspended c)
          in (value r, EvRender name :: events r, flag_after r)
    end.
Proof.
  cbn [play]. rewrite bind_run.
  change (value (read_interrupt false)) with false.
  change (flag_after (read_interrupt false)) with false.
  change (events (read_interrupt false)) with (@nil Event).
  cbn iota.
  destruct (duration_exceeded d (elapsed c)); [reflexivity |].
  destruct (frame_limit_reached k mf st); [reflexivity |].
  rewrite bind_run.
  change (flag_after (deliver (sigint_while_decoding c) false))
    with (sigint_while_decoding c).
  change (events (deliver (sigint_while_decoding c) false))
    with (@nil Event).
  destruct (decoded c) as [delay wrap | |]; [| reflexivity | reflexivity].
  cbn zeta.
  destruct (wrap && loop_limit_reached ml (if wrap then wrapped st else st));
    [reflexivity |].
  rewrite !bind_run. reflexivity.
Qed.

(** The playback only ever renders frames and reports decode errors. *)
Lemma play_events script : forall st flag,
  Forall playback_event (events (play k name d mf ml script st flag)).
Proof.
  induction script as [| c rest IH]; intros st [|];
    try (rewrite play_cancelled; constructor).
  - rewrite play_nil. constructor.
  - rewrite play_cons.
    destruct (duration_exceeded d (elapsed c)); [constructor |].
    destruct (frame_limit_reached k mf st); [constructor |].
    destruct (decoded c) as [delay wrap | |];
      [| constructor | repeat constructor].
    cbn zeta.
    destruct (wrap && loop_limit_reached ml (if wrap then wrapped st else st));
      [constructor |].
    constructor; [exact I | apply IH].
Qed.

(** A signal is never taken back. *)
Lemma play_flag_monotone script : forall st,
  flag_after (play k name d mf ml script st true) = true.
Proof. intros st. now rewrite play_cancelled. Qed.
End PlayFacts.

(** * [ImageSource::Create] and [SendFrames], in closed form *)

Lemma Create_run WITH arg o ti tv flag :
  Create WITH arg o ti tv flag =
  let f := filename arg in
  let probe_image :=
    if ti then [EvLoadAndScale ImageLoader f o] else [] in
  let probe_video :=
    if WITH && tv then [EvLoadAndScale VideoLoader f o] else [] in
  let flag1 := flag || (ti && sigint_while_loading (image arg)) in
  let flag2 := flag1 || (WITH && tv && sigint_while_loading (video arg)) in
  if ti && loads (image arg) then
    (Some ImageLoader, EvCreate f o ti tv :: probe_image, flag1)
  else if WITH && tv && loads (video arg) then
    (Some VideoLoader, EvCreate f o ti tv :: probe_image ++ probe_video,
     flag2)
  else
    (None,
     EvCreate f o ti tv :: probe_image ++ probe_video
       ++ EvStderr (couldnt_load f)
       :: (if WITH && is_stdin f then [EvStderr stdin_hint] else []),
     flag2).
Proof.
  unfold Create, LoadAndScale, is_stdin, bind, ret, emit, deliver.
  destruct ti, (loads (image arg)), WITH, tv, (loads (video arg)), flag,
    (sigint_while_loading (image arg)), (sigint_while_loading (video arg));
    cbn; try reflexivity;
    destruct ((filename arg =? "-")%string
              || (filename arg =? "/dev/stdin")%string);
    reflexivity.
Qed.

Lemma SendFrames_run k kind arg d mf lp flag :
  SendFrames k kind arg d mf lp flag =
  let r := play k (filename arg) d mf (effective_loops k kind lp)
             (playback arg) (mkPlayback 0 0) flag in
  (value r, EvSendFrames kind (filename arg) d mf lp :: events r,
   flag_after r).
Proof.
  unfold SendFrames. now rewrite bind_run.
Qed.

Ltac split_probes :=
  repeat match goal with
         | |- context [if ?b then _ else _] => destruct b
         end.

Lemma Create_called_with WITH arg o d mf lp ti tv flag :
  Forall (called_with o d mf lp ti tv) (events (Create WITH arg o ti tv flag)).
Proof.
  rewrite Create_run. cbn zeta. split_probes; cbn;
    repeat constructor.
Qed.

Lemma Create_shows_nothing WITH arg o ti tv flag :
  frames_shown (events (Create WITH arg o ti tv flag)) = 0%nat
  /\ playbacks (events (Create WITH arg o ti tv flag)) = 0%nat
  /\ created (events (Create WITH arg o ti tv flag)) = [filename arg].
Proof.
  rewrite Create_run. cbn zeta. split_probes; cbn; auto.
Qed.

Lemma Create_flag_kept WITH arg o ti tv :
  flag_after (Create WITH arg o ti tv true) = true.
Proof.
  rewrite Create_run. cbn zeta. split_probes; reflexivity.
Qed.

Lemma SendFrames_called_with k kind arg o d mf lp di dv flag :
  Forall (called_with o d mf lp di dv)
    (events (SendFrames k kind arg d mf lp flag)).
Proof.
  rewrite SendFrames_run. cbn. constructor; [cbn; auto |].
  eapply Forall_impl; [| apply play_events].
  intros [] H; cbn in *; auto; contradiction.
Qed.

Lemma SendFrames_creates_nothing k kind arg d mf lp flag :
  created (events (SendFrames k kind arg d mf lp flag)) = []
  /\ playbacks (events (SendFrames k kind arg d mf lp flag)) = 1%nat.
Proof.
  rewrite SendFrames_run. cbn.
  pose proof (play_events k (filename arg) d mf (effective_loops k kind lp)
                (playback arg) (mkPlayback 0 0) flag) as H.
  induction H as [| e t He _ IH]; [auto |].
  destruct e; cbn in *; try contradiction; exact IH.
Qed.

(** * The loop over the files *)

Section LoopFacts.
Variables (WITH : bool) (k : Z).
Variables (o : DisplayOptions) (d : Duration) (mf lp : Z) (di dv : bool).

Let loop := main_loop WITH k o d mf lp di dv.

Lemma main_loop_nil flag : loop [] flag = (true, [], flag).
Proof. reflexivity. Qed.

Lemma main_loop_interrupted args : loop args true = (true, [], true).
Proof. now destruct args. Qed.

Lemma main_loop_cons arg rest :
  loop (arg :: rest) false =
  let c := Create WITH arg o di dv false in
  match value c with
  | None =>
      let r := loop rest (flag_after c) in
      (value r, events c ++ events r, flag_after r)
  | Some kind =>
      let s := SendFrames k kind arg d mf lp (flag_after c) in
      match fst (value s) with
      | Some _ =>
          let r := loop rest (flag_after s) in
          (value r, events c ++ events s ++ events r, flag_after r)
      | None => (false, events c ++ events s, flag_after s)
      end
  end.
Proof.
  subst loop. cbn [main_loop]. rewrite bind_run.
  change (value (read_interrupt false)) with false.
  change (flag_after (read_interrupt false)) with false.
  change (events (read_interrupt false)) with (@nil Event).
  cbn iota. rewrite bind_run. cbn zeta.
  destruct (value (Create WITH arg o di dv false)) as [kind |].
  - rewrite bind_run.
    destruct (fst (value (SendFrames k kind arg d mf lp
                (flag_after (Create WITH arg o di dv false))))).
    + reflexivity.
    + cbn. now rewrite app_nil_r.
  - reflexivity.
Qed.

(** Every call made from the loop carries the arguments of the loop. *)
Lemma main_loop_called_with args : forall flag,
  Forall (called_with o d mf lp di dv) (events (loop args flag)).
Proof.
  induction args as [| arg rest IH]; intros [|];
    try (rewrite main_loop_interrupted; constructor).
  - constructor.
  - rewrite main_loop_cons. cbn zeta.
    pose proof (Create_called_with WITH arg o d mf lp di dv false) as Hc.
    destruct (value (Create WITH arg o di dv false)) as [kind |].
    + pose proof (SendFrames_called_with k kind arg o d mf lp di dv
                    (flag_after (Create WITH arg o di dv false))) as Hs.
      destruct (fst (value (SendFrames k kind arg d mf lp
                  (flag_after (Create WITH arg o di dv false)))));
        cbn [events fst snd]; rewrite ?Forall_app; auto.
    + cbn [events fst snd]. rewrite Forall_app. auto.
Qed.

(** The loop leaves a flag that is set as it is. *)
Lemma main_loop_flag_kept args : flag_after (loop args true) = true.
Proof. now rewrite main_loop_interrupted. Qed.
End LoopFacts.

Lemma frames_shown_app (t1 t2 : list Event) :
  frames_shown (t1 ++ t2) = (frames_shown t1 + frames_shown t2)%nat.
Proof.
  unfold frames_shown. now rewrite filter_app, length_app.
Qed.

Lemma playbacks_app (t1 t2 : list Event) :
  playbacks (t1 ++ t2) = (playbacks t1 + playbacks t2)%nat.
Proof.
  unfold playbacks. now rewrite filter_app, length_app.
Qed.

Lemma created_app (t1 t2 : list Event) :
  created (t1 ++ t2) = created t1 ++ created t2.
Proof.
  unfold created. apply flat_map_app.
Qed.

(** * Playback limited to one frame *)

Section OneFrame.
Variable k : Z.
Hypothesis sentinel_is_not_one : k <> 1.
Variables (name : string) (d : Duration) (ml : Z).

Lemma frame_limit_one st :
  frame_limit_reached k 1 st = (1 <=? frames_emitted st).
Proof.
  unfold frame_limit_reached.
  destruct (Z.eqb_spec 1 k) as [E | _]; [now elim sentinel_is_not_one |].
  reflexivity.
Qed.

(** Once a frame has been counted, nothing more is shown and the state
    stays as it is. *)
Lemma play_after_the_frame script st flag :
  1 <= frames_emitted st ->
  let r := play k name d 1 ml script st flag in
  events r = [] /\ snd (value r) = st
  /\ (script <> [] ->
      fst (value r) = Some Cancelled
      \/ fst (value r) = Some DurationExceeded
      \/ fst (value r) = Some FrameLimitReached).
Proof.
  intros Hst. destruct flag; [rewrite play_cancelled; cbn; auto |].
  destruct script as [| c rest]; [rewrite play_nil; cbn; intuition |].
  rewrite play_cons, frame_limit_one.
  destruct (duration_exceeded d (elapsed c)); [cbn; auto |].
  destruct (Z.leb_spec 1 (frames_emitted st)); [cbn; auto | lia].
Qed.

Lemma play_shows_at_most_one script : forall st flag,
  0 <= frames_emitted st ->
  (frames_shown (events (play k name d 1 ml script st flag)) <= 1)%nat.
Proof.
  destruct script as [| c rest]; intros st [|] Hst;
    try (rewrite play_cancelled; cbn; lia).
  - rewrite play_nil. cbn. lia.
  - rewrite play_cons, frame_limit_one.
    destruct (duration_exceeded d (elapsed c)); [cbn; lia |].
    destruct (Z.leb_spec 1 (frames_emitted st)); [cbn; lia |].
    destruct (decoded c) as [delay wrap | |]; [| cbn; lia | cbn; lia].
    cbn zeta.
    destruct (wrap && loop_limit_reached ml (if wrap then wrapped st else st));
      [cbn; lia |].
    cbn [events fst snd].
    change (EvRender name :: ?t) with ([EvRender name] ++ t).
    rewrite frames_shown_app.
    match goal with
    | |- context [play k name d 1 ml rest ?s ?f] =>
        destruct (play_after_the_frame rest s f) as [-> _]
    end.
    + destruct wrap; cbn; lia.
    + cbn. lia.
Qed.
End OneFrame.

(** * [main] in closed form *)

Ltac run_step :=
  rewrite bind_run;
  unfold ret, emit, deliver, read_interrupt, value, events, flag_after;
  cbn [fst snd].

Lemma main_run WITH k l flag :
  bad_geometry l = false -> files l <> [] ->
  main WITH k l flag =
  match Int.div (width (canvas_options l)) (grid_cols l) with
  | None => (Trapped, prologue l, flag)
  | Some w =>
      match Int.div (height (canvas_options l)) (grid_rows l) with
      | None => (Trapped, prologue l, flag)
      | Some h =>
          let r := main_loop WITH k (cell_options l w h) (duration l)
                     (max_frames l) (forced_loops l) (do_image_loading l)
                     (do_video_loading l) (files l)
                     (flag || sigint_before_loop l) in
          if value r then
            (Exited 0, prologue l ++ events r ++ epilogue l (flag_after r),
             flag_after r)
          else (Running, prologue l ++ events r, flag_after r)
      end
  end.
Proof.
  intros Hg Hf. unfold main. unfold bad_geometry in Hg. rewrite Hg.
  destruct (files l) as [| arg rest] eqn:Hfiles; [now elim Hf |].
  rewrite <- Hfiles. clear Hf.
  unfold prologue, cell_options, forced_loops, epilogue, canvas_options,
    no_scroll_movement.
  cbv zeta.
  destruct ((scroll_dx (display_opts l) =? 0)
            && (scroll_dy (display_opts l) =? 0));
    destruct (hide_cursor l);
    repeat run_step;
    match goal with
    | |- context [if show_filename ?o then ?a else ?b] =>
        set (canvas := if show_filename o then a else b)
    end;
    (destruct (Int.div (width canvas) (grid_cols l)) as [w |];
       [| cbn [fst snd app]; rewrite ?app_nil_r; reflexivity]);
    try change (height (set_width canvas w)) with (height canvas);
    (destruct (Int.div (height canvas) (grid_rows l)) as [h |];
       [| cbn [fst snd app]; rewrite ?app_nil_r; reflexivity]);
    repeat run_step;
    match goal with
    | |- context [main_loop ?a ?b ?c ?d ?e ?f ?g ?h ?i ?j] =>
        destruct (main_loop a b c d e f g h i j) as [[left t] fl]
    end;
    cbn [fst snd]; destruct left; repeat run_step;
    try (destruct fl); repeat run_step;
    cbn [app]; rewrite ?app_nil_r, <- ?app_assoc; reflexivity.
Qed.

(** When the geometry is refused or no file is named, [main] only writes to
    stderr and returns through [usage]. *)
Lemma main_refused WITH k l flag :
  bad_geometry l = true \/ files l = [] ->
  exists text status,
    main WITH k l flag
    = (Exited status, [EvStderr text; EvUsage status], flag)
    /\ (status = 3 \/ status = 1).
Proof.
  intros H. unfold main. fold (bad_geometry l).
  destruct (bad_geometry l).
  - destruct (negb (size_valid l) || (term_height l <? 0)
              || (term_width l <? 0));
      eexists; exists 3; (split; [reflexivity | now left]).
  - destruct H as [H | H]; [discriminate |]. rewrite H.
    eexists; exists 1; (split; [reflexivity | now right]).
Qed.

Lemma Int_div_positive (x y : Z) : 1 <= y -> Int.div x y = Some (Z.quot x y).
Proof.
  intros Hy. unfold Int.div.
  destruct (Z.eqb_spec y 0); [lia |].
  destruct (Z.eqb_spec y (-1)); [lia |].
  now rewrite andb_false_r.
Qed.

(** Once both checks of [main] have passed, the status is 0 whenever [main]
    returns: nothing between line 369 and line 388 assigns [exit_code]. *)
Lemma main_exit_status WITH k l flag status :
  bad_geometry l = false -> files l <> [] ->
  value (main WITH k l flag) = Exited status -> status = 0.
Proof.
  intros Hg Hf. rewrite (main_run _ _ _ _ Hg Hf).
  destruct (Int.div (width (canvas_options l)) (grid_cols l));
    [| discriminate].
  destruct (Int.div (height (canvas_options l)) (grid_rows l));
    [| discriminate].
  cbn zeta.
  match goal with |- context [if ?b then _ else _] => destruct b end;
    cbn; congruence.
Qed.

Lemma prologue_quiet (l : Locals) :
  frames_shown (prologue l) = 0%nat /\ playbacks (prologue l) = 0%nat
  /\ created (prologue l) = [] /\ cells (prologue l) = [].
Proof.
  unfold prologue.
  destruct (no_scroll_movement l), (hide_cursor l); cbn; auto.
Qed.

Lemma epilogue_quiet (l : Locals) (b : bool) :
  frames_shown (epilogue l b) = 0%nat /\ playbacks (epilogue l b) = 0%nat
  /\ created (epilogue l b) = [] /\ cells (epilogue l b) = [].
Proof.
  unfold epilogue. destruct (hide_cursor l), b; cbn; auto.
Qed.

Lemma prologue_events (l : Locals) (P : Event -> Prop) :
  (forall text, P (EvStderr text)) -> P EvCursorOff ->
  P (EvRendererCreate (canvas_options l) (grid_cols l) (grid_rows l)) ->
  Forall P (prologue l).
Proof.
  intros Hs Hc Hr. unfold prologue.
  destruct (no_scroll_movement l), (hide_cursor l); cbn;
    repeat constructor; auto.
Qed.

Lemma epilogue_events (l : Locals) (b : bool) (P : Event -> Prop) :
  (forall text, P (EvStdout text)) -> P EvCursorOn ->
  Forall P (epilogue l b).
Proof.
  intros Hs Hc. unfold epilogue.
  destruct (hide_cursor l), b; cbn; repeat constructor; auto.
Qed.

(** The events of a run that passed both checks: the prologue, the loop
    over the files called with the cell options, and perhaps the epilogue. *)
Lemma main_events WITH k l flag :
  bad_geometry l = false -> files l <> [] ->
  1 <= grid_cols l -> 1 <= grid_rows l ->
  exists loop_events tail,
    events (main WITH k l flag) = prologue l ++ loop_events ++ tail
    /\ Forall (called_with
                 (cell_options l
                    (Z.quot (width (canvas_options l)) (grid_cols l))
                    (Z.quot (height (canvas_options l)) (grid_rows l)))
                 (duration l) (max_frames l) (forced_loops l)
                 (do_image_loading l) (do_video_loading l)) loop_events
    /\ (tail = [] \/ exists b, tail = epilogue l b).
Proof.
  intros Hg Hf Hc Hr. rewrite (main_run _ _ _ _ Hg Hf).
  rewrite (Int_div_positive _ _ Hc), (Int_div_positive _ _ Hr). cbn zeta.
  match goal with
  | |- context [main_loop ?a ?b ?c ?d ?e ?f ?g ?h ?i ?j] =>
      pose proof (main_loop_called_with a b c d e f g h i j) as Hloop;
      set (r := main_loop a b c d e f g h i j) in *
  end.
  destruct (value r); cbn [events fst snd].
  - exists (events r), (epilogue l (flag_after r)).
    split; [reflexivity | split; [exact Hloop | right; eauto]].
  - exists (events r), []. rewrite app_nil_r. auto.
Qed.

(** C8: with a grid of at least one column and one row, the options that
    [main] hands to every [ImageSource::Create], and that [Create] hands to
    every loader, have the width of the canvas divided by the columns and
    the height of the canvas divided by the rows, in integer division; the
    canvas is the geometry handed to [Renderer::Create], that is the display
    geometry, less two pixel rows per grid row when file names are shown.
    In particular two columns and one row on a 100x50 canvas give cells of
    50x50. *)
Theorem cell_is_canvas_divided_by_grid
    (WITH_TIMG_VIDEO : bool) (kNotInitialized : Z) (l : Locals)
    (flag : bool) :
  1 <= grid_cols l -> 1 <= grid_rows l ->
  let t := events (main WITH_TIMG_VIDEO kNotInitialized l flag) in
  (forall canvas cols rows,
     In (EvRendererCreate canvas cols rows) t ->
     cols = grid_cols l /\ rows = grid_rows l /\
     width canvas = width (display_opts l) /\
     height canvas =
       (if show_filename (display_opts l)
        then Int.sub (height (display_opts l)) (Int.mul 2 (grid_rows l))
        else height (display_opts l)) /\
     Forall (sized_to_cell canvas cols rows) t)
  /\ (forall max_frames loops files,
        Forall (fun cell => cell = (50, 50))
          (cells (events (main WITH_TIMG_VIDEO kNotInitialized
                            (invocation 100 50 2 1 max_frames loops files)
                            flag))))
  /\ cells (events (main WITH_TIMG_VIDEO Int.min_signed
                      (invocation 100 50 2 1 Int.min_signed Int.min_signed
                         [still "a.png"; still "b.png"]) false))
     = [(50, 50); (50, 50)].
Proof.
  intros Hc Hr t.
  assert (General : forall l0 : Locals,
            1 <= grid_cols l0 -> 1 <= grid_rows l0 ->
            forall canvas cols rows,
              In (EvRendererCreate canvas cols rows)
                 (events (main WITH_TIMG_VIDEO kNotInitialized l0 flag)) ->
              canvas = canvas_options l0 /\ cols = grid_cols l0 /\
              rows = grid_rows l0 /\
              Forall (sized_to_cell canvas cols rows)
                (events (main WITH_TIMG_VIDEO kNotInitialized l0 flag))).
  { clear. intros l Hc Hr canvas cols rows Hin.
    destruct (bad_geometry l) eqn:Hg.
    { destruct (main_refused WITH_TIMG_VIDEO kNotInitialized l flag
                  (or_introl Hg)) as (text & status & Hrun & _).
      rewrite Hrun in Hin. cbn in Hin.
      destruct Hin as [H | [H | []]]; discriminate. }
    destruct (files l) as [| a0 rest0] eqn:Hfiles.
    { destruct (main_refused WITH_TIMG_VIDEO kNotInitialized l flag
                  (or_intror Hfiles)) as (text & status & Hrun & _).
      rewrite Hrun in Hin. cbn in Hin.
      destruct Hin as [H | [H | []]]; discriminate. }
    assert (Hf : files l <> []) by (rewrite Hfiles; discriminate).
    destruct (main_events WITH_TIMG_VIDEO kNotInitialized l flag Hg Hf Hc Hr)
      as (mid & tail & Hev & Hmid & Htail).
    rewrite Hev in *.
    assert (Hcanvas : canvas = canvas_options l /\ cols = grid_cols l
                      /\ rows = grid_rows l).
    { apply in_app_or in Hin. destruct Hin as [Hin | Hin].
      - unfold prologue in Hin.
        destruct (no_scroll_movement l), (hide_cursor l); cbn in Hin;
          repeat (destruct Hin as [Hin | Hin];
                  [try discriminate; injection Hin; auto |]);
          contradiction.
      - apply in_app_or in Hin. destruct Hin as [Hin | Hin].
        + rewrite Forall_forall in Hmid. apply Hmid in Hin. contradiction.
        + destruct Htail as [-> | (b & ->)]; [contradiction |].
          unfold epilogue in Hin.
          destruct (hide_cursor l), b; cbn in Hin;
            repeat (destruct Hin as [Hin | Hin]; [discriminate |]);
            contradiction. }
    destruct Hcanvas as (-> & -> & ->).
    repeat split; try reflexivity.
    rewrite !Forall_app. repeat split.
    - apply prologue_events; cbn; auto.
    - eapply Forall_impl; [| exact Hmid].
      intros [] H; cbn in *; auto; try contradiction.
      + destruct H as (-> & _). cbn. auto.
      + subst. cbn. auto.
    - destruct Htail as [-> | (b & ->)]; [constructor |].
      apply epilogue_events; cbn; auto. }
  split; [| split].
  - intros canvas cols rows Hin.
    destruct (General l Hc Hr canvas cols rows Hin) as (-> & -> & -> & HF).
    repeat split; try exact HF;
      unfold canvas_options; cbv zeta;
      destruct (no_scroll_movement l); cbn;
      destruct (show_filename (display_opts l)); reflexivity.
  - intros mf lp fs.
    set (l0 := invocation 100 50 2 1 mf lp fs).
    destruct (bad_geometry l0) eqn:Hg; [discriminate |].
    destruct fs as [| a0 rest0].
    { destruct (main_refused WITH_TIMG_VIDEO kNotInitialized l0 flag
                  (or_intror eq_refl)) as (text & status & Hrun & _).
      rewrite Hrun. constructor. }
    assert (Hf : files l0 <> []) by discriminate.
    destruct (main_events WITH_TIMG_VIDEO kNotInitialized l0 flag Hg Hf
                ltac:(cbn; lia) ltac:(cbn; lia))
      as (mid & tail & Hev & Hmid & Htail).
    rewrite Hev. unfold cells. rewrite !flat_map_app, !Forall_app.
    repeat split.
    + cbn. constructor.
    + clear Hev. induction Hmid as [| e t0 He _ IH]; [constructor |].
      cbn [flat_map]. apply Forall_app. split; [| exact IH].
      destruct e; cbn in *; try constructor; try contradiction.
      * destruct He as (-> & _). reflexivity.
      * constructor.
    + destruct Htail as [-> | (b & ->)]; [constructor |].
      destruct b; cbn; constructor.
  - vm_compute. reflexivity.
Qed.

Lemma cell_is_canvas_divided_by_grid_witness :
  Forall (sized_to_cell (display 100 50 false false false) 2 1)
    (events (main true Int.min_signed
               (invocation 100 50 2 1 Int.min_signed Int.min_signed
                  [still "a.png"; unreadable "b.png"]) false)).
Proof.
  apply (cell_is_canvas_divided_by_grid true Int.min_signed
           (invocation 100 50 2 1 Int.min_signed Int.min_signed
              [still "a.png"; unreadable "b.png"]) false);
    [cbn; lia | cbn; lia |].
  vm_compute. right. left. reflexivity.
Defined.

(** C4, on the code: the status [main] returns does not tell a run in which
    a file failed to load from a run in which every file loaded.  With a
    70x40 geometry, [timg missing.png] writes the diagnostic and returns 0,
    and so does [timg ok.png missing.png]; [timg ok.png] returns 0 as
    well. *)
Theorem exit_status_ignores_load_failure (WITH_TIMG_VIDEO : bool) :
  let run files :=
    main WITH_TIMG_VIDEO Int.min_signed
      (invocation 70 40 1 1 Int.min_signed Int.min_signed files) false in
  value (run [unreadable "missing.png"]) = Exited 0
  /\ In (EvStderr (couldnt_load "missing.png"))
       (events (run [unreadable "missing.png"]))
  /\ value (run [still "ok.png"; unreadable "missing.png"]) = Exited 0
  /\ value (run [still "ok.png"]) = Exited 0
  /\ ~ In (EvStderr (couldnt_load "ok.png")) (events (run [still "ok.png"])).
Proof.
  destruct WITH_TIMG_VIDEO; cbv zeta; repeat split;
    try (vm_compute; reflexivity);
    try (vm_compute; tauto);
    vm_compute; intros H; repeat (destruct H as [H | H]; [discriminate |]);
    exact H.
Qed.

Lemma prefix_append (s t : string) : prefix s (s ++ t) = true.
Proof.
  induction s as [| a s IH]; cbn; [now destruct t |].
  destruct (ascii_dec a a) as [_ | Hne]; [exact IH | now elim Hne].
Qed.

(** C7: [ImageSource::Create] with [attempt_image_loading] probes the image
    loader first and, when that loads, returns it without a video probe,
    whatever [attempt_video_loading] says; the video loader is probed only
    when video loading is asked for (and compiled in) and the image probe
    failed or was not made; [Create] fails exactly when no probe that was
    made succeeded, and then writes a message that begins with the file
    name to stderr; the loop of [main] then goes on with the next file, so
    that, as long as no signal arrives and every playback returns, every
    file named is opened, whichever of them failed to load. *)
Theorem Create_probes_image_then_video
    (WITH_TIMG_VIDEO : bool) (kNotInitialized : Z)
    (arg : Input) (rest : list Input) (options : DisplayOptions)
    (duration : Duration) (max_frames loops : Z)
    (attempt_image_loading attempt_video_loading : bool) (flag : bool) :
  let c := Create WITH_TIMG_VIDEO arg options attempt_image_loading
             attempt_video_loading flag in
  let f := filename arg in
  (attempt_image_loading = true ->
   exists others,
     events c
     = EvCreate f options attempt_image_loading attempt_video_loading
       :: EvLoadAndScale ImageLoader f options :: others)
  /\ (attempt_image_loading = true -> loads (image arg) = true ->
      value c = Some ImageLoader /\
      events c
      = [EvCreate f options attempt_image_loading attempt_video_loading;
         EvLoadAndScale ImageLoader f options])
  /\ (forall f' o', In (EvLoadAndScale VideoLoader f' o') (events c) ->
      WITH_TIMG_VIDEO = true /\ attempt_video_loading = true /\
      (attempt_image_loading = false \/ loads (image arg) = false))
  /\ (value c = None <->
      attempt_image_loading && loads (image arg) = false /\
      WITH_TIMG_VIDEO && attempt_video_loading && loads (video arg) = false)
  /\ (value c = None ->
      In (EvStderr (couldnt_load f)) (events c) /\
      prefix f (couldnt_load f) = true)
  /\ (value (Create WITH_TIMG_VIDEO arg options attempt_image_loading
               attempt_video_loading false) = None ->
      let c0 := Create WITH_TIMG_VIDEO arg options attempt_image_loading
                  attempt_video_loading false in
      let r := main_loop WITH_TIMG_VIDEO kNotInitialized options duration
                 max_frames loops attempt_image_loading
                 attempt_video_loading rest (flag_after c0) in
      main_loop WITH_TIMG_VIDEO kNotInitialized options duration max_frames
        loops attempt_image_loading attempt_video_loading (arg :: rest) false
      = (value r, events c0 ++ events r, flag_after r))
  /\ (forall args,
        Forall (undisturbed WITH_TIMG_VIDEO kNotInitialized options duration
                  max_frames loops attempt_image_loading
                  attempt_video_loading) args ->
        let r := main_loop WITH_TIMG_VIDEO kNotInitialized options duration
                   max_frames loops attempt_image_loading
                   attempt_video_loading args false in
        value r = true /\ flag_after r = false
        /\ created (events r) = map filename args).
Proof.
  cbv zeta.
  split; [| split; [| split; [| split; [| split; [| split]]]]].
  - intros ->. rewrite Create_run. cbn zeta.
    split_probes; cbn; eauto.
  - rewrite Create_run. cbn zeta. intros -> ->. split; reflexivity.
  - intros f' o'. rewrite Create_run. cbn zeta.
    destruct WITH_TIMG_VIDEO, attempt_video_loading, attempt_image_loading,
      (loads (image arg)); cbn; split_probes; cbn;
      intuition discriminate.
  - rewrite Create_run. cbn zeta.
    destruct (attempt_image_loading && loads (image arg));
      [cbn; intuition discriminate |].
    destruct (WITH_TIMG_VIDEO && attempt_video_loading && loads (video arg));
      cbn; intuition discriminate.
  - rewrite Create_run. cbn zeta.
    destruct (attempt_image_loading && loads (image arg));
      [discriminate |].
    destruct (WITH_TIMG_VIDEO && attempt_video_loading && loads (video arg));
      [discriminate |].
    intros _. split; [| apply prefix_append].
    cbn [events fst snd]. right.
    apply in_or_app. right. apply in_or_app. right. now left.
  - intros H. rewrite main_loop_cons. cbn zeta. now rewrite H.
  - intros args Hall.
    induction Hall as [| a0 rest0 (Hflag & Hplay) _ IH]; [now cbn |].
    rewrite main_loop_cons. cbn zeta.
    destruct (Create_shows_nothing WITH_TIMG_VIDEO a0 options
                attempt_image_loading attempt_video_loading false)
      as (_ & _ & Hc).
    rewrite Hflag.
    destruct (value (Create WITH_TIMG_VIDEO a0 options attempt_image_loading
                       attempt_video_loading false)) as [kind |].
    + destruct (Hplay kind eq_refl) as [Hstop Hfl].
      destruct (SendFrames_creates_nothing kNotInitialized kind a0 duration
                  max_frames loops false) as [Hs _].
      destruct (fst (value (SendFrames kNotInitialized kind a0 duration
                              max_frames loops false)));
        [| now elim Hstop].
      rewrite Hfl. cbn [value events flag_after fst snd].
      rewrite !created_app, Hc, Hs.
      destruct IH as (-> & -> & ->). auto.
    + cbn [value events flag_after fst snd].
      rewrite created_app, Hc.
      destruct IH as (-> & -> & ->). auto.
Qed.

Lemma Create_probes_image_then_video_witness :
  value (Create true (still "a.png") (display 80 40 false false false)
           true true false) = Some ImageLoader
  /\ In (EvStderr (couldnt_load "b.png"))
       (events (Create true (unreadable "b.png")
                  (display 80 40 false false false) true true false)).
Proof.
  split.
  - apply (Create_probes_image_then_video true Int.min_signed
             (still "a.png") [] (display 80 40 false false false)
             InfiniteFuture Int.min_signed Int.min_signed true true false);
      reflexivity.
  - apply (Create_probes_image_then_video true Int.min_signed
             (unreadable "b.png") [] (display 80 40 false false false)
             InfiniteFuture Int.min_signed Int.min_signed true true false).
    reflexivity.
Defined.

(** With [max_frames] 1 the loop shows at most one frame per playback. *)
Lemma main_loop_one_frame_each WITH k o d lp di dv :
  k <> 1 ->
  forall args flag,
    (frames_shown (events (main_loop WITH k o d 1 lp di dv args flag))
     <= playbacks (events (main_loop WITH k o d 1 lp di dv args flag)))%nat.
Proof.
  intros Hk. induction args as [| arg rest IH]; intros [|];
    try (rewrite main_loop_interrupted; cbn; lia).
  - cbn. lia.
  - rewrite main_loop_cons. cbn zeta.
    destruct (Create_shows_nothing WITH arg o di dv false) as (Hf & Hp & _).
    destruct (value (Create WITH arg o di dv false)) as [kind |].
    + set (fc := flag_after (Create WITH arg o di dv false)).
      assert (Hs : (frames_shown (events (SendFrames k kind arg d 1 lp fc))
                    <= 1)%nat).
      { rewrite SendFrames_run. cbn [events fst snd].
        change (EvSendFrames ?a ?b ?c ?e ?f :: ?t)
          with ([EvSendFrames a b c e f] ++ t).
        rewrite frames_shown_app. cbn [frames_shown filter is_render length].
        apply play_shows_at_most_one; [exact Hk | cbn; lia]. }
      destruct (SendFrames_creates_nothing k kind arg d 1 lp fc) as [_ Hp1].
      destruct (fst (value (SendFrames k kind arg d 1 lp fc)));
        cbn [events fst snd];
        rewrite !frames_shown_app, !playbacks_app, Hf, Hp, Hp1.
      * specialize (IH (flag_after (SendFrames k kind arg d 1 lp fc))). lia.
      * lia.
    + cbn [events fst snd]. rewrite frames_shown_app, playbacks_app, Hf, Hp.
      apply IH.
Qed.

(** C5: when [max_frames] is 1, [main] passes [loops] = 1 to every
    [SendFrames], whatever value [loops] had, -1 and "not given" included,
    and every playback shows at most one frame; a playback that begins
    uncancelled, within its duration and with a first frame that decodes
    shows exactly that one frame, never reaches a loop boundary, and has
    stopped when the next cycle begins. *)
Theorem single_frame_forces_single_loop
    (WITH_TIMG_VIDEO : bool) (kNotInitialized : Z) (l : Locals)
    (flag : bool) :
  max_frames l = 1 -> kNotInitialized <> 1 ->
  let t := events (main WITH_TIMG_VIDEO kNotInitialized l flag) in
  Forall (fun e => match e with
                   | EvSendFrames _ _ _ frames loops =>
                       frames = 1 /\ loops = 1
                   | _ => True
                   end) t
  /\ (frames_shown t <= playbacks t)%nat
  /\ (forall kind arg c rest delay,
        playback arg = c :: rest ->
        duration_exceeded (duration l) (elapsed c) = false ->
        decoded c = Frame delay false ->
        let r := SendFrames kNotInitialized kind arg (duration l) 1 1 false in
        events r = [EvSendFrames kind (filename arg) (duration l) 1 1;
                    EvRender (filename arg)]
        /\ snd (value r) = mkPlayback 0 1
        /\ (rest <> [] ->
            fst (value r) = Some Cancelled
            \/ fst (value r) = Some DurationExceeded
            \/ fst (value r) = Some FrameLimitReached)).
Proof.
  intros Hmf Hk t.
  assert (Hloops : forced_loops l = 1)
    by (unfold forced_loops; now rewrite Hmf).
  split; [| split].
  - subst t. destruct (bad_geometry l) eqn:Hg.
    { destruct (main_refused WITH_TIMG_VIDEO kNotInitialized l flag
                  (or_introl Hg)) as (text & status & -> & _).
      repeat constructor. }
    destruct (files l) as [| a0 rest0] eqn:Hfiles.
    { destruct (main_refused WITH_TIMG_VIDEO kNotInitialized l flag
                  (or_intror Hfiles)) as (text & status & -> & _).
      repeat constructor. }
    assert (Hf : files l <> []) by (rewrite Hfiles; discriminate).
    rewrite (main_run _ _ _ _ Hg Hf).
    destruct (Int.div (width (canvas_options l)) (grid_cols l)) as [w |];
      [| apply prologue_events; cbn; auto].
    destruct (Int.div (height (canvas_options l)) (grid_rows l)) as [h |];
      [| apply prologue_events; cbn; auto].
    cbn zeta.
    match goal with
    | |- context [main_loop ?a ?b ?c ?d ?e ?f ?g ?h ?i ?j] =>
        pose proof (main_loop_called_with a b c d e f g h i j) as Hloop;
        set (r := main_loop a b c d e f g h i j) in *
    end.
    assert (Hmid : Forall (fun e => match e with
                            | EvSendFrames _ _ _ frames loops =>
                                frames = 1 /\ loops = 1
                            | _ => True
                            end) (events r)).
    { eapply Forall_impl; [| exact Hloop].
      intros [] H; cbn in *; auto. destruct H as (_ & -> & ->). auto. }
    destruct (value r); cbn [events fst snd]; rewrite !Forall_app;
      repeat split; auto;
      try (apply prologue_events; cbn; auto);
      apply epilogue_events; cbn; auto.
  - subst t. destruct (bad_geometry l) eqn:Hg.
    { destruct (main_refused WITH_TIMG_VIDEO kNotInitialized l flag
                  (or_introl Hg)) as (text & status & -> & _).
      cbn. lia. }
    destruct (files l) as [| a0 rest0] eqn:Hfiles.
    { destruct (main_refused WITH_TIMG_VIDEO kNotInitialized l flag
                  (or_intror Hfiles)) as (text & status & -> & _).
      cbn. lia. }
    assert (Hf : files l <> []) by (rewrite Hfiles; discriminate).
    rewrite (main_run _ _ _ _ Hg Hf).
    destruct (prologue_quiet l) as (Hpf & Hpp & _).
    destruct (Int.div (width (canvas_options l)) (grid_cols l)) as [w |];
      [| cbn [events fst snd]; lia].
    destruct (Int.div (height (canvas_options l)) (grid_rows l)) as [h |];
      [| cbn [events fst snd]; lia].
    cbn zeta. rewrite Hmf.
    match goal with
    | |- context [main_loop ?a ?b ?c ?d ?e ?f ?g ?h ?i ?j] =>
        pose proof (main_loop_one_frame_each a b c d f g h Hk i j) as Hloop;
        set (r := main_loop a b c d e f g h i j) in *
    end.
    destruct (value r); cbn [events fst snd];
      rewrite !frames_shown_app, !playbacks_app, ?Hpf, ?Hpp.
    + destruct (epilogue_quiet l (flag_after r)) as (-> & -> & _). lia.
    + lia.
  - intros kind arg c rest delay Hscript Hdur Hdec r. subst r.
    rewrite SendFrames_run, Hscript. cbn zeta.
    rewrite play_cons, Hdur, (frame_limit_one _ Hk), Hdec.
    cbn [frames_emitted Z.leb Z.compare andb]. cbn zeta.
    match goal with
    | |- context [play ?a ?b ?c ?d ?e ?f ?g ?h] =>
        destruct (play_after_the_frame a Hk b c e f g h)
          as (He & Hst & Hstop); [cbn; lia |]
    end.
    cbn [events value fst snd] in *.
    rewrite He. repeat split; auto.
Qed.

Lemma single_frame_forces_single_loop_witness :
  let t := events (main true Int.min_signed
                     (invocation 80 40 1 1 1 (-1) [animation "a.gif"])
                     false) in
  frames_shown t = 1%nat /\ (frames_shown t <= playbacks t)%nat.
Proof.
  split; [vm_compute; reflexivity |].
  apply (single_frame_forces_single_loop true Int.min_signed
           (invocation 80 40 1 1 1 (-1) [animation "a.gif"]) false).
  - reflexivity.
  - vm_compute. discriminate.
Defined.

(** * A signal during the first decode *)

Section FirstDecode.
Variable k : Z.
Variables (name : string) (d : Duration) (mf ml : Z).

(** The cycle that is being decoded when the signal arrives is completed,
    and the playback stops at the next poll. *)
Lemma play_signal_while_decoding c rest st :
  duration_exceeded d (elapsed c) = false ->
  frame_limit_reached k mf st = false ->
  sigint_while_decoding c = true ->
  play k name d mf ml (c :: rest) st false
  = match decoded c with
    | EndOfStream => (Some SourceExhausted, st, [], true)
    | DecodeFail => (Some DecodeError, st, [EvDecodeError name], true)
    | Frame _ is_loop_wrap =>
        let st1 := if is_loop_wrap then wrapped st else st in
        if is_loop_wrap && loop_limit_reached ml st1 then
          (Some LoopLimitReached, st1, [], true)
        else (Some Cancelled, counted st1, [EvRender name], true)
    end.
Proof.
  intros Hd Hf Hs. rewrite play_cons, Hd, Hf, Hs.
  destruct (decoded c) as [delay wrap | |]; try reflexivity.
  cbn zeta.
  destruct (wrap && loop_limit_reached ml (if wrap then wrapped st else st));
    [reflexivity |].
  cbn [orb]. now rewrite play_cancelled.
Qed.
End FirstDecode.

Section LoopSignal.
Variables (WITH : bool) (k : Z).
Variables (o : DisplayOptions) (d : Duration) (mf lp : Z) (di dv : bool).

Let loop := main_loop WITH k o d mf lp di dv.

(** A signal during the first decode of a file: one frame at most, and the
    loop is left after this file. *)
Lemma main_loop_signal_during_first_decode arg rest :
  signal_during_first_decode WITH k o d mf di dv arg ->
  value (loop (arg :: rest) false) = true
  /\ flag_after (loop (arg :: rest) false) = true
  /\ (frames_shown (events (loop (arg :: rest) false)) <= 1)%nat
  /\ created (events (loop (arg :: rest) false)) = [filename arg].
Proof.
  intros (Hflag & Hsome & cy & more & Hscript & Hd & Hf & Hs).
  subst loop. rewrite main_loop_cons. cbn zeta.
  destruct (Create_shows_nothing WITH arg o di dv false) as (Hcf & _ & Hcc).
  rewrite Hflag.
  destruct (value (Create WITH arg o di dv false)) as [kind |];
    [| contradiction].
  pose proof (SendFrames_creates_nothing k kind arg d mf lp false)
    as [Hsc _].
  revert Hsc.
  rewrite SendFrames_run, Hscript. cbn zeta.
  rewrite (play_signal_while_decoding k (filename arg) d mf
             (effective_loops k kind lp) cy more (mkPlayback 0 0) Hd Hf Hs).
  destruct (decoded cy) as [delay wrap | |]; cbn zeta;
    [destruct (wrap && loop_limit_reached (effective_loops k kind lp)
                 (if wrap then wrapped (mkPlayback 0 0)
                  else mkPlayback 0 0)) |..];
    cbn [value events flag_after fst snd]; intros Hsc;
    rewrite main_loop_interrupted; cbn [value events flag_after fst snd];
    rewrite app_nil_r, frames_shown_app, created_app, Hcf, Hcc, Hsc;
    cbn; repeat split; lia.
Qed.

(** A file without a signal and without a frame is passed over. *)
Lemma main_loop_frameless arg rest :
  frameless WITH k o d mf lp di dv arg ->
  value (loop (arg :: rest) false) = value (loop rest false)
  /\ flag_after (loop (arg :: rest) false) = flag_after (loop rest false)
  /\ frames_shown (events (loop (arg :: rest) false))
     = frames_shown (events (loop rest false))
  /\ created (events (loop (arg :: rest) false))
     = filename arg :: created (events (loop rest false)).
Proof.
  intros ((Hflag & Hplay) & Hnone).
  subst loop. rewrite main_loop_cons. cbn zeta.
  destruct (Create_shows_nothing WITH arg o di dv false) as (Hcf & _ & Hcc).
  rewrite Hflag in *.
  destruct (value (Create WITH arg o di dv false)) as [kind |].
  - destruct (Hplay kind eq_refl) as [Hstop Hsf]. cbv zeta in Hstop, Hsf.
    pose proof (SendFrames_creates_nothing k kind arg d mf lp false)
      as [Hsc _].
    specialize (Hnone kind eq_refl).
    destruct (fst (value (SendFrames k kind arg d mf lp false)));
      [| contradiction].
    rewrite Hsf. cbn [value events flag_after fst snd].
    rewrite !frames_shown_app, !created_app, Hcf, Hcc, Hsc, Hnone.
    repeat split.
  - cbn [value events flag_after fst snd].
    rewrite !frames_shown_app, !created_app, Hcf, Hcc. repeat split.
Qed.
End LoopSignal.

(** C6, as worded, fails: in this run no signal arrives before the loop or
    while the file is opened, so the playback of the first file is entered
    with the flag clear and its first cycle passes the poll; the signal
    arrives during the decode call of that cycle, before any frame is
    emitted, and the frame is rendered all the same: one frame is shown,
    not zero.  The flag is seen at the next poll, and the second file is
    never opened. *)
Lemma cancellation_during_first_decode_counterexample :
  sigint_before_loop
    (invocation 80 40 1 1 Int.min_signed Int.min_signed
       [interrupted_decode "a.gif"; still "b.png"]) = false
  /\ sigint_while_loading (image (interrupted_decode "a.gif")) = false
  /\ map sigint_while_decoding (playback (interrupted_decode "a.gif"))
     = [true; false]
  /\ map sigint_while_suspended (playback (interrupted_decode "a.gif"))
     = [false; false]
  /\ play Int.min_signed "a.gif" InfiniteFuture Int.min_signed (-1)
       (playback (interrupted_decode "a.gif")) (mkPlayback 0 0) false
     = (Some Cancelled, mkPlayback 0 1, [EvRender "a.gif"], true)
  /\ frames_shown
       (events (main true Int.min_signed
                  (invocation 80 40 1 1 Int.min_signed Int.min_signed
                     [interrupted_decode "a.gif"; still "b.png"]) false))
     = 1%nat
  /\ created
       (events (main true Int.min_signed
                  (invocation 80 40 1 1 Int.min_signed Int.min_signed
                     [interrupted_decode "a.gif"; still "b.png"]) false))
     = ["a.gif"%string].
Proof.
  repeat split; vm_compute; reflexivity.
Qed.

(** C6, amended: a flag that is found set at a poll before any frame is
    emitted stops everything with zero frames, and a flag that is set
    between the poll and the first frame costs one frame at most.
    A playback entered with the flag set, or reaching a new cycle with the
    flag set, stops as Cancelled at once: no frame is rendered, no cycle of
    the source is consumed.  The loop of [main], tested with the flag set,
    ends without creating a source.  So when the signal arrives while a
    file is being opened, the run shows no frame for it and creates no
    further source; when it arrives before any playback has begun, the
    whole run shows no frame; and when it arrives before the loop, no
    source is created at all.
    A signal that arrives after the poll of a cycle, during its decode
    call, does not interrupt the cycle: the end of the stream, a decode
    failure or the loop limit stop the playback as they would without the
    signal, and a frame is rendered and counted before the next poll stops
    the playback as Cancelled.  So when the signal arrives while a file is
    opened or while its first frame is decoded, the files before it having
    shown no frame, the whole run shows one frame at most (none when the
    signal arrives while the file is opened), the loop is left and no
    further file is opened. *)
Theorem cancellation_before_first_frame
    (WITH_TIMG_VIDEO : bool) (kNotInitialized : Z)
    (options : DisplayOptions) (duration : Duration) (max_frames loops : Z)
    (do_image_loading do_video_loading : bool) :
  let loop := main_loop WITH_TIMG_VIDEO kNotInitialized options duration
                max_frames loops do_image_loading do_video_loading in
  (forall kind arg,
     SendFrames kNotInitialized kind arg duration max_frames loops true
     = (Some Cancelled, mkPlayback 0 0,
        [EvSendFrames kind (filename arg) duration max_frames loops], true))
  /\ (forall name max_loops script st,
        play kNotInitialized name duration max_frames max_loops script st
          true
        = (Some Cancelled, st, [], true))
  /\ (forall args, loop args true = (true, [], true))
  /\ (forall arg rest,
        let c := Create WITH_TIMG_VIDEO arg options do_image_loading
                   do_video_loading false in
        flag_after c = true ->
        let r := loop (arg :: rest) false in
        value r = true /\ flag_after r = true
        /\ frames_shown (events r) = 0%nat
        /\ created (events r) = [filename arg]
        /\ events r
           = events c
             ++ match value c with
                | Some kind =>
                    [EvSendFrames kind (filename arg) duration max_frames
                       loops]
                | None => []
                end)
  /\ (forall args,
        signal_before_playback WITH_TIMG_VIDEO options do_image_loading
          do_video_loading args ->
        let r := loop args false in
        value r = true /\ flag_after r = true
        /\ frames_shown (events r) = 0%nat)
  /\ (forall l flag,
        sigint_before_loop l = true ->
        let t := events (main WITH_TIMG_VIDEO kNotInitialized l flag) in
        frames_shown t = 0%nat /\ created t = [])
  /\ (forall name max_loops cycle rest st,
        duration_exceeded duration (elapsed cycle) = false ->
        frame_limit_reached kNotInitialized max_frames st = false ->
        sigint_while_decoding cycle = true ->
        play kNotInitialized name duration max_frames max_loops
          (cycle :: rest) st false
        = match decoded cycle with
          | EndOfStream => (Some SourceExhausted, st, [], true)
          | DecodeFail =>
              (Some DecodeError, st, [EvDecodeError name], true)
          | Frame _ is_loop_wrap =>
              let st1 := if is_loop_wrap then wrapped st else st in
              if is_loop_wrap && loop_limit_reached max_loops st1 then
                (Some LoopLimitReached, st1, [], true)
              else (Some Cancelled, counted st1, [EvRender name], true)
          end)
  /\ (forall before arg after,
        Forall (frameless WITH_TIMG_VIDEO kNotInitialized options duration
                  max_frames loops do_image_loading do_video_loading)
          before ->
        let c := Create WITH_TIMG_VIDEO arg options do_image_loading
                   do_video_loading false in
        flag_after c = true
        \/ signal_during_first_decode WITH_TIMG_VIDEO kNotInitialized
             options duration max_frames do_image_loading do_video_loading
             arg ->
        let r := loop (before ++ arg :: after) false in
        value r = true /\ flag_after r = true
        /\ (frames_shown (events r) <= 1)%nat
        /\ (flag_after c = true -> frames_shown (events r) = 0%nat)
        /\ created (events r) = map filename before ++ [filename arg]).
Proof.
  cbv zeta.
  assert (Hsend : forall kind arg,
            SendFrames kNotInitialized kind arg duration max_frames loops true
            = (Some Cancelled, mkPlayback 0 0,
               [EvSendFrames kind (filename arg) duration max_frames loops],
               true)).
  { intros kind arg. rewrite SendFrames_run, play_cancelled. reflexivity. }
  split; [exact Hsend |].
  split; [intros; apply play_cancelled |].
  split; [intros; apply main_loop_interrupted |].
  assert (Hopen : forall arg rest,
            let c := Create WITH_TIMG_VIDEO arg options do_image_loading
                       do_video_loading false in
            flag_after c = true ->
            let r := main_loop WITH_TIMG_VIDEO kNotInitialized options
                       duration max_frames loops do_image_loading
                       do_video_loading (arg :: rest) false in
            value r = true /\ flag_after r = true
            /\ frames_shown (events r) = 0%nat
            /\ created (events r) = [filename arg]
            /\ events r
               = events c
                 ++ match value c with
                    | Some kind =>
                        [EvSendFrames kind (filename arg) duration
                           max_frames loops]
                    | None => []
                    end);
    [| split; [exact Hopen | split; [| split; [| split]]]].
  - intros arg rest. cbv zeta. intros Hflag.
    rewrite main_loop_cons. cbn zeta.
    destruct (Create_shows_nothing WITH_TIMG_VIDEO arg options
                do_image_loading do_video_loading false) as (Hf & _ & Hc).
    rewrite Hflag.
    destruct (value (Create WITH_TIMG_VIDEO arg options do_image_loading
                       do_video_loading false)) as [kind |].
    + rewrite Hsend. cbn [value events flag_after fst snd].
      rewrite main_loop_interrupted. cbn [value events flag_after fst snd].
      rewrite app_nil_r, frames_shown_app, created_app, Hf, Hc.
      repeat split.
    + rewrite main_loop_interrupted. cbn [value events flag_after fst snd].
      rewrite app_nil_r, Hf, Hc. repeat split.
  - induction args as [| arg rest IH]; cbn [signal_before_playback];
      [contradiction |].
    intros [Hflag | [Hnone Hrest]].
    + destruct (Hopen arg rest Hflag) as (Hv & Hfl & Hfr & _). auto.
    + rewrite main_loop_cons. cbn zeta. rewrite Hnone.
      destruct (Create_shows_nothing WITH_TIMG_VIDEO arg options
                  do_image_loading do_video_loading false) as (Hf & _).
      destruct (flag_after (Create WITH_TIMG_VIDEO arg options
                              do_image_loading do_video_loading false)).
      * rewrite main_loop_interrupted.
        cbn [value events flag_after fst snd].
        rewrite app_nil_r. auto.
      * destruct (IH Hrest) as (Hv & Hfl & Hfr).
        cbn [value events flag_after fst snd] in *.
        rewrite frames_shown_app, Hf. auto.
  - intros l flag Hsig.
    destruct (bad_geometry l) eqn:Hg.
    { destruct (main_refused WITH_TIMG_VIDEO kNotInitialized l flag
                  (or_introl Hg)) as (text & status & -> & _).
      split; reflexivity. }
    destruct (files l) as [| a0 rest0] eqn:Hfiles.
    { destruct (main_refused WITH_TIMG_VIDEO kNotInitialized l flag
                  (or_intror Hfiles)) as (text & status & -> & _).
      split; reflexivity. }
    assert (Hf : files l <> []) by (rewrite Hfiles; discriminate).
    rewrite (main_run _ _ _ _ Hg Hf), Hsig, orb_true_r.
    destruct (prologue_quiet l) as (Hpf & _ & Hpc & _).
    destruct (Int.div (width (canvas_options l)) (grid_cols l)) as [w |];
      [| cbn [events fst snd]; auto].
    destruct (Int.div (height (canvas_options l)) (grid_rows l)) as [h |];
      [| cbn [events fst snd]; auto].
    rewrite main_loop_interrupted. cbn [value events flag_after fst snd].
    destruct (epilogue_quiet l true) as (Hef & _ & Hec & _).
    cbn [app].
    rewrite frames_shown_app, created_app, Hpf, Hpc, Hef, Hec.
    split; reflexivity.
  - intros name max_loops cycle rest st.
    apply play_signal_while_decoding.
  - intros before arg after Hbefore Harg.
    induction Hbefore as [| a before Ha _ IH]; cbn [app map].
    + destruct Harg as [Hflag | Hsig].
      * destruct (Hopen arg after Hflag) as (Hv & Hfl & Hfr & Hcr & _).
        rewrite Hfr. repeat split; auto.
      * destruct (main_loop_signal_during_first_decode WITH_TIMG_VIDEO
                    kNotInitialized options duration max_frames loops
                    do_image_loading do_video_loading arg after Hsig)
          as (Hv & Hfl & Hfr & Hcr).
        destruct Hsig as (Hclear & _).
        repeat split; auto.
        intros Hset. rewrite Hset in Hclear. discriminate.
    + destruct (main_loop_frameless WITH_TIMG_VIDEO kNotInitialized options
                  duration max_frames loops do_image_loading
                  do_video_loading a (before ++ arg :: after) Ha)
        as (-> & -> & -> & ->).
      destruct IH as (Hv & Hfl & Hfr & Hz & Hcr).
      rewrite Hcr. repeat split; auto.
Qed.

Lemma cancellation_before_first_frame_witness :
  let r := main_loop true Int.min_signed (display 80 40 false false false)
             InfiniteFuture Int.min_signed Int.min_signed true true
             [interrupted_load "a.png"; still "b.png"] false in
  let s := main_loop true Int.min_signed (display 80 40 false false false)
             InfiniteFuture Int.min_signed Int.min_signed true true
             [unreadable "a.jpg"; empty_stream "b.gif";
              interrupted_decode "c.gif"; still "d.png"] false in
  (frames_shown (events r) = 0%nat /\ created (events r) = ["a.png"%string])
  /\ ((frames_shown (events s) <= 1)%nat
      /\ created (events s) = ["a.jpg"; "b.gif"; "c.gif"]%string).
Proof.
  destruct (cancellation_before_first_frame true Int.min_signed
              (display 80 40 false false false) InfiniteFuture
              Int.min_signed Int.min_signed true true)
    as (_ & _ & _ & H & _ & _ & _ & G).
  split.
  - destruct (H (interrupted_load "a.png") [still "b.png"] eq_refl)
      as (_ & _ & Hframes & Hcreated & _).
    split; [exact Hframes | exact Hcreated].
  - assert (Hquiet : Forall (frameless true Int.min_signed
                               (display 80 40 false false false)
                               InfiniteFuture Int.min_signed Int.min_signed
                               true true)
                       [unreadable "a.jpg"; empty_stream "b.gif"]).
    { repeat constructor; cbn; try discriminate;
        intros kind E; try discriminate; inversion E; subst;
        repeat split; cbn; try discriminate; reflexivity. }
    assert (Hsig : signal_during_first_decode true Int.min_signed
                     (display 80 40 false false false) InfiniteFuture
                     Int.min_signed true true (interrupted_decode "c.gif")).
    { split; [reflexivity | split; [discriminate |]].
      eexists; eexists. repeat split; reflexivity. }
    destruct (G [unreadable "a.jpg"; empty_stream "b.gif"]
                (interrupted_decode "c.gif") [still "d.png"] Hquiet
                (or_intror Hsig))
      as (_ & _ & Hframes & _ & Hcreated).
    split; [exact Hframes | exact Hcreated].
Defined.

(** * The C library on decimal numbers *)

Lemma read_digits_stop (acc : Z) (rest : string) :
  Libc.starts_with_digit rest = false -> Libc.read_digits acc rest = (acc, rest).
Proof.
  destruct rest as [| c rest]; cbn; [reflexivity |]. now intros ->.
Qed.

Lemma read_digits_acc (d : Decimal.uint) : forall (acc : positive) rest,
  Libc.starts_with_digit rest = false ->
  Libc.read_digits (Zpos acc) (NilEmpty.string_of_uint d ++ rest)
  = (Zpos (Pos.of_uint_acc d acc), rest).
Proof.
  induction d; intros acc rest Hrest;
    try (cbn [NilEmpty.string_of_uint String.append Libc.read_digits
              Pos.of_uint_acc];
         match goal with
         | |- context [Libc.isdigit ?c] =>
             change (Libc.isdigit c) with true; cbn iota
         end;
         rewrite <- (IHd _ rest Hrest); f_equal;
         match goal with
         | |- context [Libc.code ?c] =>
             let v := eval cbv in (Libc.code c) in
             change (Libc.code c) with v
         end; lia).
  cbn. now apply read_digits_stop.
Qed.

Lemma read_digits_zero (d : Decimal.uint) : forall rest,
  Libc.starts_with_digit rest = false ->
  Libc.read_digits 0 (NilEmpty.string_of_uint d ++ rest)
  = (Z.of_N (Pos.of_uint d), rest).
Proof.
  induction d; intros rest Hrest;
    try (cbn [NilEmpty.string_of_uint String.append Libc.read_digits
              Pos.of_uint];
         match goal with
         | |- context [Libc.isdigit ?c] =>
             change (Libc.isdigit c) with true; cbn iota
         end;
         match goal with
         | |- Libc.read_digits ?a _ = _ =>
             let v := eval cbv in a in change a with v
         end;
         first [ now apply IHd | now apply read_digits_acc ]).
  cbn. now apply read_digits_stop.
Qed.

Lemma to_uint_digits (p : positive) (rest : string) :
  Libc.starts_with_digit rest = false ->
  Libc.skip_spaces (NilZero.string_of_uint (Pos.to_uint p) ++ rest)
  = (NilEmpty.string_of_uint (Pos.to_uint p) ++ rest)%string
  /\ Libc.signed_number (NilEmpty.string_of_uint (Pos.to_uint p) ++ rest)
     = Some (Libc.saturate (Zpos p), rest)
  /\ Libc.starts_with_digit (NilEmpty.string_of_uint (Pos.to_uint p) ++ rest)
     = true
  /\ Libc.read_digits 0 (NilEmpty.string_of_uint (Pos.to_uint p) ++ rest)
     = (Zpos p, rest).
Proof.
  intros Hrest.
  pose proof (read_digits_zero (Pos.to_uint p) rest Hrest) as Hd.
  rewrite DecimalPos.Unsigned.of_to in Hd. cbn [Z.of_N] in Hd.
  pose proof (DecimalPos.Unsigned.to_uint_nonnil p) as Hnil.
  unfold Libc.signed_number.
  destruct (Pos.to_uint p) as [| u | u | u | u | u | u | u | u | u | u];
    [now elim Hnil | ..];
    cbn [NilZero.string_of_uint NilEmpty.string_of_uint String.append
         Libc.skip_spaces Libc.starts_with_digit] in *;
    match goal with
    | |- context [Libc.isspace ?c] => change (Libc.isspace c) with false
    end;
    match goal with
    | |- context [Libc.isdigit ?c] => change (Libc.isdigit c) with true
    end;
    cbn iota; rewrite Hd; auto.
Qed.

Lemma signed_number_decimal (n : Z) (rest : string) :
  Libc.starts_with_digit rest = false ->
  Libc.skip_spaces (decimal n ++ rest) = (decimal n ++ rest)%string
  /\ (decimal n ++ rest)%string <> EmptyString
  /\ Libc.signed_number (decimal n ++ rest) = Some (Libc.saturate n, rest).
Proof.
  intros Hrest. unfold decimal.
  destruct n as [| p | p]; cbn [Z.to_int NilZero.string_of_int].
  - cbn. rewrite (read_digits_stop _ _ Hrest).
    repeat split; [discriminate].
  - destruct (to_uint_digits p rest Hrest) as (Hs & Hn & Hd & _).
    pose proof (DecimalPos.Unsigned.to_uint_nonnil p) as Hnil.
    assert (E : NilZero.string_of_uint (Pos.to_uint p)
                = NilEmpty.string_of_uint (Pos.to_uint p)).
    { now destruct (Pos.to_uint p). }
    rewrite E in *. repeat split; auto.
    intros H. rewrite H in Hd. discriminate.
  - destruct (to_uint_digits p rest Hrest) as (_ & _ & Hd & Hr).
    assert (E : NilZero.string_of_uint (Pos.to_uint p)
                = NilEmpty.string_of_uint (Pos.to_uint p)).
    { pose proof (DecimalPos.Unsigned.to_uint_nonnil p).
      now destruct (Pos.to_uint p). }
    rewrite E.
    cbn [String.append Libc.skip_spaces].
    change (Libc.isspace "-") with false. cbn iota.
    repeat split; [discriminate |].
    unfold Libc.signed_number. rewrite Hd, Hr. reflexivity.
Qed.

Lemma Int_wrap_in_range (n : Z) : Int.in_range n = true -> Int.wrap n = n.
Proof.
  unfold Int.in_range, Int.wrap, Int.min_signed, Int.max_signed.
  intros H. apply andb_true_iff in H as [H1 H2].
  apply Z.leb_le in H1, H2. rewrite Z.mod_small; lia.
Qed.

Lemma saturate_in_range (n : Z) : Int.in_range n = true -> Libc.saturate n = n.
Proof.
  unfold Int.in_range, Libc.saturate, Libc.LONG_MIN, Libc.LONG_MAX,
    Int.min_signed, Int.max_signed.
  intros H. apply andb_true_iff in H as [H1 H2].
  apply Z.leb_le in H1, H2. lia.
Qed.

Lemma scan_d_decimal (n : Z) (rest : string) :
  Int.in_range n = true -> Libc.starts_with_digit rest = false ->
  Libc.scan_d (decimal n ++ rest) = Libc.Converted n rest.
Proof.
  intros Hn Hrest.
  destruct (signed_number_decimal n rest Hrest) as (Hs & Hne & Hv).
  unfold Libc.scan_d. rewrite Hs.
  set (t := (decimal n ++ rest)%string) in *.
  destruct t; [now elim Hne |].
  now rewrite Hv, (saturate_in_range _ Hn), (Int_wrap_in_range _ Hn).
Qed.

Lemma append_empty (s : string) : (s ++ "")%string = s.
Proof. induction s; cbn; congruence. Qed.

Lemma atoi_decimal (n : Z) : Int.in_range n = true -> Libc.atoi (decimal n) = n.
Proof.
  intros Hn.
  destruct (signed_number_decimal n "" eq_refl) as (Hs & _ & Hv).
  rewrite append_empty in *.
  unfold Libc.atoi, Libc.strtol. rewrite Hs, Hv.
  now rewrite (saturate_in_range _ Hn), (Int_wrap_in_range _ Hn).
Qed.

Lemma sscanf_one_number (sep : ascii) (n : Z) :
  Int.in_range n = true ->
  Libc.sscanf_d_d sep (decimal n) = Libc.ScanOne n.
Proof.
  intros Hn. unfold Libc.sscanf_d_d.
  rewrite <- (append_empty (decimal n)) at 1.
  now rewrite (scan_d_decimal n "" Hn eq_refl).
Qed.

Lemma sscanf_two_numbers (sep : ascii) (a b : Z) :
  Libc.isdigit sep = false ->
  Int.in_range a = true -> Int.in_range b = true ->
  Libc.sscanf_d_d sep (decimal a ++ String sep (decimal b))
  = Libc.ScanTwo a b.
Proof.
  intros Hsep Ha Hb. unfold Libc.sscanf_d_d.
  rewrite (scan_d_decimal a (String sep (decimal b)) Ha Hsep).
  rewrite Ascii.eqb_refl.
  rewrite <- (append_empty (decimal b)).
  now rewrite (scan_d_decimal b "" Hb eq_refl).
Qed.

Lemma sscanf_blank (sep : ascii) (s : string) :
  Libc.skip_spaces s = EmptyString -> Libc.sscanf_d_d sep s = Libc.ScanEOF.
Proof.
  intros H. unfold Libc.sscanf_d_d, Libc.scan_d. now rewrite H.
Qed.

(** * [GetBoolenEnv] *)

(** X1: a variable whose value is a decimal [int] switches the feature on
    exactly when the number is not zero. *)
Theorem GetBoolenEnv_reads_a_number
    (getenv : string -> option string) (name : string) (n : Z) :
  Int.in_range n = true -> getenv name = Some (decimal n) ->
  GetBoolenEnv getenv name = negb (n =? 0).
Proof.
  intros Hn Hv. unfold GetBoolenEnv. rewrite Hv.
  now rewrite (atoi_decimal _ Hn).
Qed.

Lemma GetBoolenEnv_reads_a_number_witness :
  GetBoolenEnv (fun _ => Some "1"%string) "TIMG_USE_UPPER_BLOCK" = true
  /\ GetBoolenEnv (fun _ => Some "0"%string) "TIMG_USE_UPPER_BLOCK" = false.
Proof.
  split.
  - exact (GetBoolenEnv_reads_a_number (fun _ => Some "1"%string)
             "TIMG_USE_UPPER_BLOCK" 1 eq_refl eq_refl).
  - exact (GetBoolenEnv_reads_a_number (fun _ => Some "0"%string)
             "TIMG_USE_UPPER_BLOCK" 0 eq_refl eq_refl).
Defined.

Lemma signed_number_word (c : ascii) (rest : string) :
  Libc.isdigit c = false -> c <> "-"%char -> c <> "+"%char ->
  Libc.signed_number (String c rest) = None.
Proof.
  intros Hd Hm Hp. unfold Libc.signed_number.
  destruct c as [[|] [|] [|] [|] [|] [|] [|] [|]];
    try (now elim Hm); try (now elim Hp);
    cbn [Libc.starts_with_digit]; now rewrite Hd.
Qed.

(** X2: a variable that is unset, or whose value begins with something else
    than blanks, a sign or a digit, such as [yes] or [true], leaves the
    feature off. *)
Theorem GetBoolenEnv_word_is_false
    (getenv : string -> option string) (name : string) :
  getenv name = None
  \/ (exists c rest, getenv name = Some (String c rest)
        /\ Libc.isspace c = false /\ Libc.isdigit c = false
        /\ c <> "-"%char /\ c <> "+"%char) ->
  GetBoolenEnv getenv name = false.
Proof.
  unfold GetBoolenEnv.
  intros [-> | (c & rest & -> & Hs & Hd & Hm & Hp)]; [reflexivity |].
  unfold Libc.atoi, Libc.strtol. cbn [Libc.skip_spaces]. rewrite Hs.
  now rewrite (signed_number_word _ _ Hd Hm Hp).
Qed.

Lemma GetBoolenEnv_word_is_false_witness :
  GetBoolenEnv (fun _ => Some "yes"%string) "TIMG_USE_UPPER_BLOCK" = false.
Proof.
  apply GetBoolenEnv_word_is_false. right.
  exists "y"%char, "es"%string.
  repeat split; try reflexivity; discriminate.
Defined.

(** * [DetermineTermSize] *)

(** X3: the size is invalid, with width and height -1, exactly when none of
    stdout, stderr and stdin is a terminal; otherwise it is that of the first
    terminal in this order: as many columns wide and twice the rows less one
    high, an even number that is -2 at least. *)
Theorem DetermineTermSize_first_terminal (tiocgwinsz : Z -> option winsize) :
  (forall fd w, tiocgwinsz fd = Some w ->
     0 <= ws_col w < 65536 /\ 0 <= ws_row w < 65536) ->
  let term := DetermineTermSize tiocgwinsz in
  (Term.size_valid term = false <->
   tiocgwinsz STDOUT_FILENO = None /\ tiocgwinsz STDERR_FILENO = None
   /\ tiocgwinsz STDIN_FILENO = None)
  /\ (Term.size_valid term = false ->
      Term.width term = -1 /\ Term.height term = -1)
  /\ (Term.size_valid term = true ->
      exists fd w,
        tiocgwinsz fd = Some w
        /\ (fd = STDOUT_FILENO
            \/ (fd = STDERR_FILENO /\ tiocgwinsz STDOUT_FILENO = None)
            \/ (fd = STDIN_FILENO /\ tiocgwinsz STDOUT_FILENO = None
                /\ tiocgwinsz STDERR_FILENO = None))
        /\ Term.width term = ws_col w
        /\ Term.height term = 2 * (ws_row w - 1)
        /\ Z.even (Term.height term) = true /\ -2 <= Term.height term).
Proof.
  intros Hrange. unfold DetermineTermSize. cbn [probe_terminals].
  assert (Hh : forall fd w, tiocgwinsz fd = Some w ->
            Int.mul 2 (Int.sub (ws_row w) 1) = 2 * (ws_row w - 1)).
  { intros fd w Hw. destruct (Hrange fd w Hw) as [_ Hr].
    unfold Int.mul, Int.sub, Int.wrap, Int.min_signed.
    rewrite (Z.mod_small (ws_row w - 1 - - 2 ^ 31)) by lia.
    rewrite Z.mod_small; lia. }
  assert (Hfound : forall fd w, tiocgwinsz fd = Some w ->
            ws_col w = ws_col w
            /\ Int.mul 2 (Int.sub (ws_row w) 1) = 2 * (ws_row w - 1)
            /\ Z.even (Int.mul 2 (Int.sub (ws_row w) 1)) = true
            /\ -2 <= Int.mul 2 (Int.sub (ws_row w) 1)).
  { intros fd w Hw. rewrite (Hh fd w Hw).
    destruct (Hrange fd w Hw) as [_ Hr].
    repeat split; [| lia]. rewrite Z.even_mul. reflexivity. }
  destruct (tiocgwinsz STDOUT_FILENO) as [w1 |] eqn:E1;
    [| destruct (tiocgwinsz STDERR_FILENO) as [w2 |] eqn:E2;
       [| destruct (tiocgwinsz STDIN_FILENO) as [w0 |] eqn:E0]];
    cbn [Term.size_valid Term.width Term.height].
  - split; [split; [discriminate | now intros [H _]] |].
    split; [discriminate |]. intros _. exists STDOUT_FILENO, w1.
    split; [exact E1 | split; [now left | apply (Hfound _ _ E1)]].
  - split; [split; [discriminate | now intros (_ & H & _)] |].
    split; [discriminate |]. intros _. exists STDERR_FILENO, w2.
    split; [exact E2 | split; [right; left; auto | apply (Hfound _ _ E2)]].
  - split; [split; [discriminate | now intros (_ & _ & H)] |].
    split; [discriminate |]. intros _. exists STDIN_FILENO, w0.
    split; [exact E0 | split; [right; right; auto | apply (Hfound _ _ E0)]].
  - split; [split; auto |]. split; [auto | discriminate].
Qed.

Lemma DetermineTermSize_first_terminal_witness :
  Term.size_valid (DetermineTermSize (terminal_on STDERR_FILENO 80 24)) = true
  /\ exists fd w,
       terminal_on STDERR_FILENO 80 24 fd = Some w
       /\ Term.height (DetermineTermSize (terminal_on STDERR_FILENO 80 24))
          = 2 * (ws_row w - 1).
Proof.
  assert (Hrange : forall fd w, terminal_on STDERR_FILENO 80 24 fd = Some w ->
            0 <= ws_col w < 65536 /\ 0 <= ws_row w < 65536).
  { intros fd w. unfold terminal_on.
    destruct (fd =? STDERR_FILENO); [| discriminate].
    intros [= <-]. cbn. lia. }
  split; [reflexivity |].
  destruct (DetermineTermSize_first_terminal _ Hrange) as (_ & _ & H).
  destruct (H eq_refl) as (fd & w & Hw & _ & _ & Hh & _).
  exists fd, w. split; [exact Hw | exact Hh].
Defined.

(** * The option loop *)

Ltac option_cases :=
  cbn [handle_option];
  repeat match goal with
         | |- context [match ?x with _ => _ end] => destruct x
         end.

Section OptionFacts.
Variables (build : Build) (WITH : bool).

Let handle := handle_option build WITH.
Let loop := getopt_loop build WITH.

Lemma emit_all_run (t : list Event) (flag : bool) :
  emit_all t flag = (tt, t, flag).
Proof.
  induction t as [| e t IH]; [reflexivity |].
  cbn [emit_all]. unfold bind, emit. now rewrite IH.
Qed.

(** An option leaves the flag alone, causes diagnostics only, and ends the
    program with status 0 or 2 if at all. *)
Lemma handle_option_run opt st flag :
  flag_after (handle opt st flag) = flag
  /\ Forall diagnostic (events (handle opt st flag))
  /\ (forall status, value (handle opt st flag) = inr status ->
      status = 0 \/ status = 2).
Proof.
  subst handle. destruct opt; option_cases;
    try rewrite bind_run, emit_all_run;
    (cbn; split; [reflexivity | split];
     [rewrite ?app_nil_r; unfold version_text;
      repeat first [ apply Forall_app; split | constructor
                   | exact I | destruct WITH ]
     | intros status E; inversion E; auto]).
Qed.

Lemma getopt_loop_cons opt rest st flag :
  loop (opt :: rest) st flag =
  let r := handle opt st flag in
  match value r with
  | inl st' =>
      let r' := loop rest st' flag in
      (value r', events r ++ events r', flag_after r')
  | inr status => (inr status, events r, flag)
  end.
Proof.
  subst loop. cbn [getopt_loop]. rewrite bind_run. fold handle.
  destruct (handle_option_run opt st flag) as (-> & _ & _).
  cbn zeta. destruct (value (handle opt st flag)); [reflexivity |].
  cbn. now rewrite app_nil_r.
Qed.

Lemma getopt_loop_run options : forall st flag,
  flag_after (loop options st flag) = flag
  /\ Forall diagnostic (events (loop options st flag))
  /\ (forall status, value (loop options st flag) = inr status ->
      status = 0 \/ status = 2).
Proof.
  induction options as [| opt rest IH]; intros st flag.
  - cbn. repeat split; [constructor | discriminate].
  - rewrite getopt_loop_cons. cbn zeta.
    destruct (handle_option_run opt st flag) as (_ & Hd & Hs).
    destruct (value (handle opt st flag)) as [st' | status'].
    + destruct (IH st' flag) as (Hf' & Hd' & Hs').
      cbn [value events flag_after fst snd] in *.
      repeat split; [exact Hf' | now apply Forall_app | exact Hs'].
    + cbn [value events flag_after fst snd] in *.
      repeat split; [exact Hd |]. intros status [= <-]. now apply Hs.
Qed.

(** What every option on a list keeps, the loop over the list keeps. *)
Lemma getopt_loop_keeps (P : Parsing -> Prop) options :
  (forall opt st flag st', In opt options -> P st ->
     value (handle opt st flag) = inl st' -> P st') ->
  forall st flag st',
    P st -> value (loop options st flag) = inl st' -> P st'.
Proof.
  induction options as [| opt rest IH]; intros Hkeep st flag st' HP.
  - cbn. now intros [= <-].
  - rewrite getopt_loop_cons. cbn zeta.
    destruct (value (handle opt st flag)) as [st1 | status] eqn:E;
      [| discriminate].
    cbn [value fst]. apply IH.
    + intros opt' st0 flag0 st0' Hin. apply Hkeep. now right.
    + eapply Hkeep; [now left | exact HP | exact E].
Qed.

Lemma getopt_loop_app a b st flag :
  loop (a ++ b) st flag
  = bind (loop a st) (fun r => and_then r (loop b)) flag.
Proof.
  revert st. induction a as [| opt a IH]; intros st.
  - rewrite bind_run. cbn.
    now destruct (loop b st flag) as [[v t] f].
  - cbn [app]. rewrite getopt_loop_cons, bind_run, getopt_loop_cons.
    cbn zeta.
    destruct (value (handle opt st flag)) as [st1 | status].
    + rewrite IH, bind_run. cbn [value events flag_after fst snd].
      now rewrite app_assoc.
    + cbn. now rewrite app_nil_r.
Qed.
End OptionFacts.

(** * Single options *)

(** X4: [-g<w>x<h>], with the numbers as [%d] prints them, sets the width
    and the height of the display to [w] and [h], prints nothing and leaves
    the other locals as they are. *)
Theorem geometry_option_sets_the_size
    (build : Build) (WITH_TIMG_VIDEO : bool) (w h : Z) (st : Parsing)
    (flag : bool) :
  Int.in_range w = true -> Int.in_range h = true ->
  handle_option build WITH_TIMG_VIDEO
    (opt_g (decimal w ++ "x" ++ decimal h)) st flag
  = (inl (on_display_opts (fun o => set_height (set_width o w) h) st),
     [], flag).
Proof.
  intros Hw Hh. cbn [handle_option].
  change ("x" ++ decimal h)%string with (String "x" (decimal h)).
  now rewrite (sscanf_two_numbers "x" w h eq_refl Hw Hh).
Qed.

Lemma geometry_option_sets_the_size_witness :
  handle_option sample_build true (opt_g "160x-100") sample_parsing false
  = (inl (on_display_opts (fun o => set_height (set_width o 160) (-100))
            sample_parsing), [], false).
Proof.
  exact (geometry_option_sets_the_size sample_build true 160 (-100)
           sample_parsing false eq_refl eq_refl).
Defined.

(** X5: [--grid=<n>] asks for [n] columns and [n] rows, [--grid=<c>x<r>] for
    [c] columns and [r] rows; neither prints anything. *)
Theorem grid_option_shapes
    (build : Build) (WITH_TIMG_VIDEO : bool) (c r : Z) (st : Parsing)
    (flag : bool) :
  Int.in_range c = true -> Int.in_range r = true ->
  handle_option build WITH_TIMG_VIDEO (OPT_GRID (decimal c)) st flag
  = (inl (on_locals (fun l => with_grid l c c) st), [], flag)
  /\ handle_option build WITH_TIMG_VIDEO
       (OPT_GRID (decimal c ++ "x" ++ decimal r)) st flag
     = (inl (on_locals (fun l => with_grid l c r) st), [], flag).
Proof.
  intros Hc Hr. cbn [handle_option].
  change ("x" ++ decimal r)%string with (String "x" (decimal r)).
  rewrite (sscanf_two_numbers "x" c r eq_refl Hc Hr).
  now rewrite (sscanf_one_number "x" c Hc).
Qed.

Lemma grid_option_shapes_witness :
  handle_option sample_build true (OPT_GRID "3") sample_parsing false
  = (inl (on_locals (fun l => with_grid l 3 3) sample_parsing), [], false)
  /\ handle_option sample_build true (OPT_GRID "3x2") sample_parsing false
     = (inl (on_locals (fun l => with_grid l 3 2) sample_parsing), [], false).
Proof.
  exact (grid_option_shapes sample_build true 3 2 sample_parsing false
           eq_refl eq_refl).
Defined.

(** X6: an argument that is empty or all blanks is passed over by [--grid],
    which leaves the grid as it was and prints nothing, while [-g] rejects
    it with status 2. *)
Theorem blank_argument_grid_and_geometry
    (build : Build) (WITH_TIMG_VIDEO : bool) (optarg : string)
    (st : Parsing) (flag : bool) :
  Libc.skip_spaces optarg = EmptyString ->
  handle_option build WITH_TIMG_VIDEO (OPT_GRID optarg) st flag
  = (inl st, [], flag)
  /\ handle_option build WITH_TIMG_VIDEO (opt_g optarg) st flag
     = (inr 2,
        [EvStderr ("Invalid size spec '" ++ optarg ++ "'")%string;
         EvUsage 2], flag).
Proof.
  intros Hblank. cbn [handle_option].
  now rewrite (sscanf_blank "x" optarg Hblank).
Qed.

Lemma blank_argument_grid_and_geometry_witness :
  handle_option sample_build true (OPT_GRID " ") sample_parsing false
  = (inl sample_parsing, [], false)
  /\ handle_option sample_build true (opt_g " ") sample_parsing false
     = (inr 2, [EvStderr "Invalid size spec ' '"; EvUsage 2], false).
Proof.
  exact (blank_argument_grid_and_geometry sample_build true " "
           sample_parsing false eq_refl).
Defined.

(** X7: [-d<dx>] sets the horizontal step and keeps the vertical one,
    [-d<dx>:<dy>] sets both. *)
Theorem delta_move_option_steps
    (build : Build) (WITH_TIMG_VIDEO : bool) (dx dy : Z) (st : Parsing)
    (flag : bool) :
  Int.in_range dx = true -> Int.in_range dy = true ->
  handle_option build WITH_TIMG_VIDEO (opt_d (decimal dx)) st flag
  = (inl (on_display_opts (fun o => set_scroll_dx o dx) st), [], flag)
  /\ handle_option build WITH_TIMG_VIDEO
       (opt_d (decimal dx ++ ":" ++ decimal dy)) st flag
     = (inl (on_display_opts
               (fun o => set_scroll_dy (set_scroll_dx o dx) dy) st),
        [], flag).
Proof.
  intros Hx Hy. cbn [handle_option].
  change (":" ++ decimal dy)%string with (String ":" (decimal dy)).
  rewrite (sscanf_two_numbers ":" dx dy eq_refl Hx Hy).
  now rewrite (sscanf_one_number ":" dx Hx).
Qed.

Lemma delta_move_option_steps_witness :
  handle_option sample_build true (opt_d "2") sample_parsing false
  = (inl (on_display_opts (fun o => set_scroll_dx o 2) sample_parsing),
     [], false)
  /\ handle_option sample_build true (opt_d "1:-1") sample_parsing false
     = (inl (on_display_opts
               (fun o => set_scroll_dy (set_scroll_dx o 1) (-1))
               sample_parsing), [], false).
Proof.
  split.
  - exact (proj1 (delta_move_option_steps sample_build true 2 0
                    sample_parsing false eq_refl eq_refl)).
  - exact (proj2 (delta_move_option_steps sample_build true 1 (-1)
                    sample_parsing false eq_refl eq_refl)).
Defined.

(** * The option loop as a whole *)

(** X8: reading the options writes to stderr and prints the usage text at
    most: no file is opened, the cursor and stdout are left alone and the
    interrupt flag is as it was.  When it ends the program, the status is 0
    (for [-v] and [-h]) or 2. *)
Theorem getopt_loop_only_diagnoses
    (build : Build) (WITH_TIMG_VIDEO : bool) (options : list Opt)
    (st : Parsing) (flag : bool) :
  let r := getopt_loop build WITH_TIMG_VIDEO options st flag in
  Forall diagnostic (events r) /\ flag_after r = flag
  /\ (forall status, value r = inr status -> status = 0 \/ status = 2).
Proof.
  cbv zeta.
  destruct (getopt_loop_run build WITH_TIMG_VIDEO options st flag)
    as (Hf & Hd & Hs).
  auto.
Qed.

(** X9: options are read from left to right, each from the locals its
    predecessors left; once one of them ends the program, those after it are
    not looked at. *)
Theorem options_after_a_rejected_one_are_ignored
    (build : Build) (WITH_TIMG_VIDEO : bool) (a b : list Opt)
    (st : Parsing) (flag : bool) :
  let ra := getopt_loop build WITH_TIMG_VIDEO a st flag in
  getopt_loop build WITH_TIMG_VIDEO (a ++ b) st flag =
  match value ra with
  | inl st' =>
      let rb := getopt_loop build WITH_TIMG_VIDEO b st' flag in
      (value rb, events ra ++ events rb, flag_after rb)
  | inr status => ra
  end.
Proof.
  cbv zeta. rewrite getopt_loop_app, bind_run.
  destruct (getopt_loop_run build WITH_TIMG_VIDEO a st flag) as (Hf & _ & _).
  rewrite Hf.
  destruct (getopt_loop build WITH_TIMG_VIDEO a st flag) as [[v t] f].
  cbn [value events flag_after fst snd] in *. subst f.
  destruct v as [st' | status]; cbn [and_then]; [reflexivity |].
  cbn. now rewrite app_nil_r.
Qed.

(** X10: [-U] and [-F] are toggles: given twice, each leaves the options as
    they were. *)
Theorem toggles_given_twice_cancel
    (build : Build) (WITH_TIMG_VIDEO : bool) (rest : list Opt)
    (st : Parsing) (flag : bool) :
  getopt_loop build WITH_TIMG_VIDEO (opt_U :: opt_U :: rest) st flag
  = getopt_loop build WITH_TIMG_VIDEO rest st flag
  /\ getopt_loop build WITH_TIMG_VIDEO (opt_F :: opt_F :: rest) st flag
     = getopt_loop build WITH_TIMG_VIDEO rest st flag.
Proof.
  rewrite !getopt_loop_cons. cbn [handle_option]. cbn.
  destruct st as [[sv tw th [w h up fw fh aa sa dx dy sf] hc du mf lp gr gc
                   fit di dv fs sb] m].
  unfold on_display_opts, on_locals, set_upscale, set_show_filename,
    with_display_opts. cbn. rewrite !negb_involutive.
  split; now destruct (getopt_loop _ _ _ _ _) as [[v t] f].
Qed.

(** * What the options leave alone *)

Ltac option_kept :=
  option_cases; try rewrite bind_run;
  cbn; intros E; inversion E; subst; cbn; auto.

Lemma handle_option_frame build WITH opt st flag st' :
  value (handle_option build WITH opt st flag) = inl st' ->
  size_valid (locals st') = size_valid (locals st)
  /\ term_width (locals st') = term_width (locals st)
  /\ term_height (locals st') = term_height (locals st)
  /\ files (locals st') = files (locals st)
  /\ sigint_before_loop (locals st') = sigint_before_loop (locals st).
Proof. destruct opt; option_kept. Qed.

Lemma handle_option_keeps_geometry build WITH opt st flag st' :
  gives_geometry opt = false ->
  value (handle_option build WITH opt st flag) = inl st' ->
  width (display_opts (locals st')) = width (display_opts (locals st))
  /\ height (display_opts (locals st')) = height (display_opts (locals st)).
Proof. destruct opt; try discriminate; intros _; option_kept. Qed.

Lemma handle_option_keeps_loaders build WITH opt st flag st' :
  chooses_loader opt = false ->
  value (handle_option build WITH opt st flag) = inl st' ->
  do_image_loading (locals st') = do_image_loading (locals st)
  /\ do_video_loading (locals st') = do_video_loading (locals st).
Proof. destruct opt; try discriminate; intros _; option_kept. Qed.

Lemma handle_option_some_loader build WITH opt st flag st' :
  do_image_loading (locals st) || do_video_loading (locals st) = true
  /\ (WITH = false -> do_image_loading (locals st) = true) ->
  value (handle_option build WITH opt st flag) = inl st' ->
  do_image_loading (locals st') || do_video_loading (locals st') = true
  /\ (WITH = false -> do_image_loading (locals st') = true).
Proof.
  intros [H1 H2]. destruct opt; option_kept; try discriminate.
Qed.

Lemma handle_option_cursor_shown build WITH opt st flag st' :
  hide_cursor (locals st) = false ->
  value (handle_option build WITH opt st flag) = inl st' ->
  hide_cursor (locals st') = false.
Proof. intros H. destruct opt; option_kept. Qed.

Lemma timg_run build WITH k tty getenv options files s flag :
  timg build WITH k tty getenv options files s flag =
  let r := getopt_loop build WITH options
             (initial build k (DetermineTermSize tty) files s) flag in
  match value r with
  | inl st =>
      let m := main WITH k (locals st) flag in
      (value m, events r ++ events m, flag_after m)
  | inr status => (Exited status, events r, flag)
  end.
Proof.
  unfold timg. cbv zeta. rewrite bind_run.
  destruct (getopt_loop_run build WITH options
              (initial build k (DetermineTermSize tty) files s) flag)
    as (-> & _ & _).
  destruct (value (getopt_loop _ _ _ _ _)); [reflexivity |].
  cbn. now rewrite app_nil_r.
Qed.

(** * [main] after the options: cursor, stdout and the order of the files *)

Lemma cursor_offs_app (t1 t2 : list Event) :
  cursor_offs (t1 ++ t2) = (cursor_offs t1 + cursor_offs t2)%nat.
Proof. unfold cursor_offs. now rewrite filter_app, length_app. Qed.

Lemma cursor_ons_app (t1 t2 : list Event) :
  cursor_ons (t1 ++ t2) = (cursor_ons t1 + cursor_ons t2)%nat.
Proof. unfold cursor_ons. now rewrite filter_app, length_app. Qed.

Lemma stdout_of_app (t1 t2 : list Event) :
  stdout_of (t1 ++ t2) = stdout_of t1 ++ stdout_of t2.
Proof. unfold stdout_of. apply flat_map_app. Qed.

Lemma attempts_app (t1 t2 : list Event) :
  attempts (t1 ++ t2) = attempts t1 ++ attempts t2.
Proof. unfold attempts. apply flat_map_app. Qed.

(** The calls of the loop over the files touch neither the cursor nor
    stdout, and every [Create] among them has the flags of the loop. *)
Lemma called_with_quiet o d mf lp di dv (t : list Event) :
  Forall (called_with o d mf lp di dv) t ->
  cursor_offs t = 0%nat /\ cursor_ons t = 0%nat /\ stdout_of t = []
  /\ Forall (fun a => a = (di, dv)) (attempts t).
Proof.
  induction 1 as [| e t He _ IH]; [cbn; auto |].
  destruct IH as (H1 & H2 & H3 & H4).
  destruct e; cbn in He; try contradiction;
    cbn [cursor_offs cursor_ons stdout_of attempts filter flat_map app
         List.length] in *;
    repeat split; auto.
  destruct He as (_ & -> & ->). now constructor.
Qed.

Lemma diagnostic_quiet (t : list Event) :
  Forall diagnostic t ->
  cursor_offs t = 0%nat /\ cursor_ons t = 0%nat /\ stdout_of t = []
  /\ attempts t = [] /\ created t = [].
Proof.
  induction 1 as [| e t He _ IH]; [cbn; auto |].
  destruct IH as (H1 & H2 & H3 & H4 & H5).
  destruct e; cbn in He; try contradiction;
    cbn [cursor_offs cursor_ons stdout_of attempts created filter flat_map
         app List.length] in *;
    repeat split; auto.
Qed.

(** The three ways [main] goes from line 314 on. *)
Lemma main_cases WITH k l flag :
  (exists text status,
     (bad_geometry l = true \/ files l = [])
     /\ main WITH k l flag
        = (Exited status, [EvStderr text; EvUsage status], flag)
     /\ (status = 3 \/ status = 1))
  \/ (bad_geometry l = false /\ files l <> []
      /\ main WITH k l flag = (Trapped, prologue l, flag))
  \/ (bad_geometry l = false /\ files l <> []
      /\ exists w h,
           let r := main_loop WITH k (cell_options l w h) (duration l)
                      (max_frames l) (forced_loops l) (do_image_loading l)
                      (do_video_loading l) (files l)
                      (flag || sigint_before_loop l) in
           main WITH k l flag
           = if value r then
               (Exited 0, prologue l ++ events r ++ epilogue l (flag_after r),
                flag_after r)
             else (Running, prologue l ++ events r, flag_after r)).
Proof.
  destruct (bad_geometry l) eqn:Hg.
  { left. destruct (main_refused WITH k l flag (or_introl Hg))
      as (text & status & H & Hs). exists text, status. auto. }
  destruct (files l) as [| arg rest] eqn:Hf.
  { left. destruct (main_refused WITH k l flag (or_intror Hf))
      as (text & status & H & Hs). exists text, status. auto. }
  right.
  assert (Hne : files l <> []) by (rewrite Hf; discriminate).
  rewrite <- Hf.
  rewrite (main_run WITH k l flag Hg Hne).
  destruct (Int.div (width (canvas_options l)) (grid_cols l)) as [w |];
    [| left; auto].
  destruct (Int.div (height (canvas_options l)) (grid_rows l)) as [h |];
    [| left; auto].
  right. split; [reflexivity | split; [exact Hne |]].
  exists w, h. reflexivity.
Qed.

Lemma prologue_cursor (l : Locals) :
  cursor_offs (prologue l) = (if hide_cursor l then 1 else 0)%nat
  /\ cursor_ons (prologue l) = 0%nat /\ stdout_of (prologue l) = []
  /\ attempts (prologue l) = [].
Proof.
  unfold prologue. destruct (no_scroll_movement l), (hide_cursor l);
    cbn; auto.
Qed.

Lemma epilogue_cursor (l : Locals) (b : bool) :
  cursor_offs (epilogue l b) = 0%nat
  /\ cursor_ons (epilogue l b) = (if hide_cursor l then 1 else 0)%nat
  /\ stdout_of (epilogue l b) = (if b then [nl] else [])
  /\ attempts (epilogue l b) = [].
Proof.
  unfold epilogue. destruct (hide_cursor l), b; cbn; auto.
Qed.

(** X11: [main] hides the cursor at most once and not at all after [-E];
    when it returns, the cursor has been shown again as often as it was
    hidden, and when the process dies in a division or is still playing, the
    cursor has not been shown again. *)
Theorem cursor_is_restored_when_main_returns
    (WITH_TIMG_VIDEO : bool) (kNotInitialized : Z) (l : Locals)
    (flag : bool) :
  let m := main WITH_TIMG_VIDEO kNotInitialized l flag in
  (cursor_offs (events m) <= 1)%nat
  /\ (hide_cursor l = false -> cursor_offs (events m) = 0%nat)
  /\ match value m with
     | Exited _ => cursor_ons (events m) = cursor_offs (events m)
     | Trapped | Running => cursor_ons (events m) = 0%nat
     end.
Proof.
  cbv zeta.
  destruct (main_cases WITH_TIMG_VIDEO kNotInitialized l flag)
    as [(text & status & _ & -> & _) | [(_ & _ & ->) | (_ & _ & w & h & ->)]].
  - cbn. auto.
  - cbn [value events fst snd].
    destruct (prologue_cursor l) as (-> & -> & _).
    destruct (hide_cursor l); repeat split; auto; discriminate.
  - cbv zeta.
    match goal with
    | |- context [main_loop ?a ?b ?c ?d ?e ?f ?g ?h ?i ?j] =>
        pose proof (called_with_quiet _ _ _ _ _ _ _
                      (main_loop_called_with a b c d e f g h i j))
          as (Hoff & Hon & _);
        set (r := main_loop a b c d e f g h i j) in *
    end.
    destruct (prologue_cursor l) as (Hp1 & Hp2 & _).
    destruct (epilogue_cursor l (flag_after r)) as (He1 & He2 & _).
    destruct (value r); cbn [value events fst snd];
      rewrite ?cursor_offs_app, ?cursor_ons_app, ?Hoff, ?Hon, ?Hp1, ?Hp2,
        ?He1, ?He2;
      destruct (hide_cursor l); repeat split; auto; discriminate.
Qed.

(** X12: past its two checks [main] writes to stdout itself only when it
    returns with the interrupt flag set, and then a single newline. *)
Theorem newline_after_interrupt
    (WITH_TIMG_VIDEO : bool) (kNotInitialized : Z) (l : Locals)
    (flag : bool) :
  bad_geometry l = false -> files l <> [] ->
  let m := main WITH_TIMG_VIDEO kNotInitialized l flag in
  stdout_of (events m)
  = match value m with
    | Exited _ => if flag_after m then [nl] else []
    | Trapped | Running => []
    end.
Proof.
  intros Hg Hf. cbv zeta.
  destruct (main_cases WITH_TIMG_VIDEO kNotInitialized l flag)
    as [(text & status & [Hr | Hr] & _) | [(_ & _ & ->) | (_ & _ & w & h & ->)]];
    [congruence | congruence | |].
  - cbn [value events fst snd].
    now destruct (prologue_cursor l) as (_ & _ & -> & _).
  - cbv zeta.
    match goal with
    | |- context [main_loop ?a ?b ?c ?d ?e ?f ?g ?h ?i ?j] =>
        pose proof (called_with_quiet _ _ _ _ _ _ _
                      (main_loop_called_with a b c d e f g h i j))
          as (_ & _ & Hout & _);
        set (r := main_loop a b c d e f g h i j) in *
    end.
    destruct (prologue_cursor l) as (_ & _ & Hp & _).
    destruct (epilogue_cursor l (flag_after r)) as (_ & _ & He & _).
    destruct (value r); cbn [value events flag_after fst snd];
      now rewrite ?stdout_of_app, ?Hout, ?Hp, ?He.
Qed.

Lemma newline_after_interrupt_witness :
  let m := main true (-1)
             (invocation 80 46 1 1 (-1) (-1)
                [interrupted_load "a.gif"; still "b.png"]) false in
  stdout_of (events m) = [nl] /\ value m = Exited 0.
Proof.
  split; [| reflexivity].
  exact (newline_after_interrupt true (-1)
           (invocation 80 46 1 1 (-1) (-1)
              [interrupted_load "a.gif"; still "b.png"]) false
           eq_refl ltac:(discriminate)).
Defined.

Section FilesInOrder.
Variables (WITH : bool) (k : Z).
Variables (o : DisplayOptions) (d : Duration) (mf lp : Z) (di dv : bool).

Lemma main_loop_created args : forall flag,
  let r := main_loop WITH k o d mf lp di dv args flag in
  exists rest,
    map filename args = created (events r) ++ rest
    /\ (value r = true -> flag_after r = false -> rest = []).
Proof.
  induction args as [| arg args IH]; intros [|]; cbv zeta;
    try (rewrite main_loop_interrupted; eexists; split;
         [reflexivity | cbn; discriminate]).
  - exists []. cbn. auto.
  - rewrite main_loop_cons. cbn zeta.
    destruct (Create_shows_nothing WITH arg o di dv false) as (_ & _ & Hc).
    destruct (value (Create WITH arg o di dv false)) as [kind |].
    + destruct (SendFrames_creates_nothing k kind arg d mf lp
                  (flag_after (Create WITH arg o di dv false))) as (Hs & _).
      destruct (fst (value (SendFrames k kind arg d mf lp
                  (flag_after (Create WITH arg o di dv false))))).
      * match goal with
        | |- context [main_loop _ _ _ _ _ _ _ _ args ?f] =>
            destruct (IH f) as (rest & Hrest & Hall)
        end.
        exists rest. cbn [value events flag_after fst snd].
        rewrite !created_app, Hc, Hs. cbn [app map].
        split; [now rewrite Hrest | exact Hall].
      * exists (map filename args). cbn [value events flag_after fst snd].
        rewrite created_app, Hc, Hs. split; [reflexivity | discriminate].
    + match goal with
      | |- context [main_loop _ _ _ _ _ _ _ _ args ?f] =>
          destruct (IH f) as (rest & Hrest & Hall)
      end.
      exists rest. cbn [value events flag_after fst snd].
      rewrite created_app, Hc. cbn [app map].
      split; [now rewrite Hrest | exact Hall].
Qed.
End FilesInOrder.

(** X13: [main] opens the files in the order of the command line, each at
    most once and none out of turn: the files opened are a prefix of the
    file arguments, and all of them when [main] returns 0 with the interrupt
    flag clear. *)
Theorem files_are_opened_in_order
    (WITH_TIMG_VIDEO : bool) (kNotInitialized : Z) (l : Locals)
    (flag : bool) :
  let m := main WITH_TIMG_VIDEO kNotInitialized l flag in
  exists rest,
    map filename (files l) = created (events m) ++ rest
    /\ (value m = Exited 0 -> flag_after m = false -> rest = []).
Proof.
  cbv zeta.
  destruct (main_cases WITH_TIMG_VIDEO kNotInitialized l flag)
    as [(text & status & Hr & -> & Hs) | [(_ & _ & ->) | (Hg & Hf & w & h & ->)]].
  - exists (map filename (files l)). split; [reflexivity |].
    cbn. intros [= ->]. destruct Hs; discriminate.
  - exists (map filename (files l)). cbn [value events fst snd].
    destruct (prologue_quiet l) as (_ & _ & -> & _).
    split; [reflexivity | discriminate].
  - cbv zeta.
    match goal with
    | |- context [main_loop ?a ?b ?c ?d ?e ?f ?g ?h ?i ?j] =>
        destruct (main_loop_created a b c d e f g h i j)
          as (rest & Hrest & Hall);
        set (r := main_loop a b c d e f g h i j) in *
    end.
    exists rest.
    destruct (prologue_quiet l) as (_ & _ & Hp & _).
    destruct (epilogue_quiet l (flag_after r)) as (_ & _ & He & _).
    destruct (value r); cbn [value events flag_after fst snd];
      rewrite !created_app, ?Hp, ?He, ?app_nil_r; cbn [app];
      (split; [exact Hrest |]); [auto | discriminate].
Qed.

(** * [ImageSource::Create]: what it says on stderr *)

(** X14: [Create] is silent when a loader takes the file.  When none does,
    it writes the line that names the file and, in a build with video
    support and for the names [-] and [/dev/stdin] only, the hint about
    [-V]; nothing else. *)
Theorem Create_reports_only_failure
    (WITH_TIMG_VIDEO : bool) (arg : Input) (options : DisplayOptions)
    (attempt_image_loading attempt_video_loading : bool) (flag : bool) :
  let c := Create WITH_TIMG_VIDEO arg options attempt_image_loading
             attempt_video_loading flag in
  stderr_of (events c)
  = match value c with
    | Some _ => []
    | None =>
        couldnt_load (filename arg)
        :: (if WITH_TIMG_VIDEO && is_stdin (filename arg)
            then [stdin_hint] else [])
    end.
Proof.
  cbv zeta. rewrite Create_run. cbv zeta.
  destruct attempt_image_loading, (loads (image arg)), WITH_TIMG_VIDEO,
    attempt_video_loading, (loads (video arg)); cbn;
    try reflexivity; now destruct (is_stdin (filename arg)).
Qed.

(** * The program as a whole *)

Section Whole.
Variables (build : Build) (WITH : bool) (k : Z).
Variables (tty : Z -> option winsize) (getenv : string -> option string).
Variables (files0 : list Input) (s : bool).

Let start := initial build k (DetermineTermSize tty) files0 s.

(** The locals the options cannot reach are those of the start. *)
Lemma getopt_loop_frame options flag st :
  value (getopt_loop build WITH options start flag) = inl st ->
  size_valid (locals st) = Term.size_valid (DetermineTermSize tty)
  /\ term_width (locals st) = Term.width (DetermineTermSize tty)
  /\ term_height (locals st) = Term.height (DetermineTermSize tty)
  /\ files (locals st) = files0
  /\ sigint_before_loop (locals st) = s.
Proof.
  apply (getopt_loop_keeps build WITH
           (fun st => size_valid (locals st)
                      = Term.size_valid (DetermineTermSize tty)
                      /\ term_width (locals st)
                         = Term.width (DetermineTermSize tty)
                      /\ term_height (locals st)
                         = Term.height (DetermineTermSize tty)
                      /\ files (locals st) = files0
                      /\ sigint_before_loop (locals st) = s) options).
  - intros opt st0 flag0 st0' _ (H1 & H2 & H3 & H4 & H5) E.
    destruct (handle_option_frame _ _ _ _ _ _ E) as (-> & -> & -> & -> & ->).
    auto.
  - subst start. cbn. auto.
Qed.

Lemma getopt_loop_some_loader options flag st :
  value (getopt_loop build WITH options start flag) = inl st ->
  do_image_loading (locals st) || do_video_loading (locals st) = true
  /\ (WITH = false -> do_image_loading (locals st) = true).
Proof.
  apply (getopt_loop_keeps build WITH
           (fun st => do_image_loading (locals st)
                      || do_video_loading (locals st) = true
                      /\ (WITH = false -> do_image_loading (locals st) = true))
           options).
  - intros opt st0 flag0 st0' _ H E.
    exact (handle_option_some_loader _ _ _ _ _ _ H E).
  - subst start. cbn. auto.
Qed.

Lemma getopt_loop_keeps_geometry options : forall st0 flag st,
  forallb (fun opt => negb (gives_geometry opt)) options = true ->
  value (getopt_loop build WITH options st0 flag) = inl st ->
  width (display_opts (locals st)) = width (display_opts (locals st0))
  /\ height (display_opts (locals st)) = height (display_opts (locals st0)).
Proof.
  intros st0 flag st Hno.
  apply (getopt_loop_keeps build WITH
           (fun st => width (display_opts (locals st))
                      = width (display_opts (locals st0))
                      /\ height (display_opts (locals st))
                         = height (display_opts (locals st0))) options);
    [| auto].
  intros opt st1 flag1 st1' Hin [H1 H2] E.
  rewrite forallb_forall in Hno. specialize (Hno opt Hin).
  apply negb_true_iff in Hno.
  destruct (handle_option_keeps_geometry _ _ _ _ _ _ Hno E) as [-> ->].
  auto.
Qed.

Lemma getopt_loop_keeps_loaders options : forall st0 flag st,
  forallb (fun opt => negb (chooses_loader opt)) options = true ->
  value (getopt_loop build WITH options st0 flag) = inl st ->
  do_image_loading (locals st) = do_image_loading (locals st0)
  /\ do_video_loading (locals st) = do_video_loading (locals st0).
Proof.
  intros st0 flag st Hno.
  apply (getopt_loop_keeps build WITH
           (fun st => do_image_loading (locals st)
                      = do_image_loading (locals st0)
                      /\ do_video_loading (locals st)
                         = do_video_loading (locals st0)) options);
    [| auto].
  intros opt st1 flag1 st1' Hin [H1 H2] E.
  rewrite forallb_forall in Hno. specialize (Hno opt Hin).
  apply negb_true_iff in Hno.
  destruct (handle_option_keeps_loaders _ _ _ _ _ _ Hno E) as [-> ->].
  auto.
Qed.

Lemma getopt_loop_cursor_shown options : forall st0 flag st,
  hide_cursor (locals st0) = false ->
  value (getopt_loop build WITH options st0 flag) = inl st ->
  hide_cursor (locals st) = false.
Proof.
  intros st0 flag st.
  apply (getopt_loop_keeps build WITH
           (fun st => hide_cursor (locals st) = false) options).
  intros opt st1 flag1 st1' _ H E.
  exact (handle_option_cursor_shown _ _ _ _ _ _ H E).
Qed.

(** Reading [pre], then [opt], then [post]. *)
Lemma getopt_loop_split pre opt post st0 flag st :
  value (getopt_loop build WITH (pre ++ opt :: post) st0 flag) = inl st ->
  exists st1 st2,
    value (getopt_loop build WITH pre st0 flag) = inl st1
    /\ value (handle_option build WITH opt st1 flag) = inl st2
    /\ value (getopt_loop build WITH post st2 flag) = inl st.
Proof.
  rewrite getopt_loop_app, bind_run.
  destruct (getopt_loop_run build WITH pre st0 flag) as (-> & _ & _).
  destruct (value (getopt_loop build WITH pre st0 flag)) as [st1 |];
    [| discriminate].
  cbn [and_then value fst]. rewrite getopt_loop_cons. cbv zeta.
  destruct (value (handle_option build WITH opt st1 flag)) as [st2 |] eqn:E;
    [| discriminate].
  cbn [value fst]. intros H. exists st1, st2. auto.
Qed.
End Whole.

(** X15: when [timg] returns, its status is 0, 1, 2 or 3; a status other
    than 0 means that nothing was displayed: no file was opened, the cursor
    and stdout were left alone, and only diagnostics were written. *)
Theorem nonzero_status_shows_nothing
    (build : Build) (WITH_TIMG_VIDEO : bool) (kNotInitialized : Z)
    (tiocgwinsz : Z -> option winsize) (getenv : string -> option string)
    (options : list Opt) (files : list Input) (sigint_before_loop : bool)
    (flag : bool) (status : Z) :
  let r := timg build WITH_TIMG_VIDEO kNotInitialized tiocgwinsz getenv
             options files sigint_before_loop flag in
  value r = Exited status ->
  (status = 0 \/ status = 1 \/ status = 2 \/ status = 3)
  /\ (status <> 0 -> Forall diagnostic (events r) /\ created (events r) = []).
Proof.
  cbv zeta. rewrite timg_run. cbv zeta.
  destruct (getopt_loop_run build WITH_TIMG_VIDEO options
              (initial build kNotInitialized (DetermineTermSize tiocgwinsz)
                 files sigint_before_loop) flag) as (_ & Hd & Hs).
  destruct (value (getopt_loop _ _ _ _ _)) as [st | status'].
  - cbv zeta. cbn [value events fst snd].
    destruct (main_cases WITH_TIMG_VIDEO kNotInitialized (locals st) flag)
      as [(text & st' & _ & -> & Hst)
         | [(_ & _ & ->) | (_ & _ & w & h & ->)]].
    + cbn [value events fst snd]. intros [= ->].
      split; [destruct Hst as [-> | ->]; auto |]. intros _.
      assert (Hall : Forall diagnostic
                       (events (getopt_loop build WITH_TIMG_VIDEO options
                          (initial build kNotInitialized
                             (DetermineTermSize tiocgwinsz) files
                             sigint_before_loop) flag)
                        ++ [EvStderr text; EvUsage status])).
      { apply Forall_app. split; [exact Hd | repeat constructor]. }
      split; [exact Hall | now apply diagnostic_quiet].
    + discriminate.
    + cbv zeta.
      destruct (value (main_loop _ _ _ _ _ _ _ _ _ _)); [| discriminate].
      cbn [value fst]. intros [= <-]. split; [auto | now intros H].
  - cbn [value events fst snd]. intros [= <-].
    split; [destruct (Hs status' eq_refl) as [-> | ->]; auto |].
    intros _. split; [exact Hd | now apply diagnostic_quiet].
Qed.

Lemma nonzero_status_shows_nothing_witness :
  let r := timg sample_build true (-1) (terminal_on STDOUT_FILENO 80 24) unset
             [OPT_ROTATE "90"; opt_h] [still "a.png"] false false in
  value r = Exited 2 /\ created (events r) = [].
Proof.
  split; [reflexivity |].
  exact (proj2 (proj2 (nonzero_status_shows_nothing sample_build true (-1)
                         (terminal_on STDOUT_FILENO 80 24) unset
                         [OPT_ROTATE "90"; opt_h] [still "a.png"] false false 2
                         eq_refl)
                  ltac:(discriminate))).
Defined.

(** X16: without a usable terminal size (no terminal among stdout, stderr
    and stdin, or one of no columns or at most one row) and without [-g],
    [timg] opens no file: unless an option ends it first, it returns 3. *)
Theorem no_terminal_and_no_geometry_option
    (build : Build) (WITH_TIMG_VIDEO : bool) (kNotInitialized : Z)
    (tiocgwinsz : Z -> option winsize) (getenv : string -> option string)
    (options : list Opt) (files : list Input) (sigint_before_loop : bool)
    (flag : bool) :
  Term.width (DetermineTermSize tiocgwinsz) < 1
  \/ Term.height (DetermineTermSize tiocgwinsz) < 1 ->
  forallb (fun opt => negb (gives_geometry opt)) options = true ->
  let r := timg build WITH_TIMG_VIDEO kNotInitialized tiocgwinsz getenv
             options files sigint_before_loop flag in
  Forall diagnostic (events r) /\ created (events r) = []
  /\ (value r = Exited 3
      \/ exists status,
           value (getopt_loop build WITH_TIMG_VIDEO options
                    (initial build kNotInitialized
                       (DetermineTermSize tiocgwinsz) files
                       sigint_before_loop) flag) = inr status
           /\ value r = Exited status).
Proof.
  intros Hterm Hno. cbv zeta. rewrite timg_run. cbv zeta.
  destruct (getopt_loop_run build WITH_TIMG_VIDEO options
              (initial build kNotInitialized (DetermineTermSize tiocgwinsz)
                 files sigint_before_loop) flag) as (_ & Hd & Hs).
  pose proof (getopt_loop_keeps_geometry build WITH_TIMG_VIDEO options
                (initial build kNotInitialized (DetermineTermSize tiocgwinsz)
                   files sigint_before_loop) flag) as Hkeep.
  destruct (value (getopt_loop _ _ _ _ _)) as [st | status].
  - destruct (Hkeep st Hno eq_refl) as [Hw Hh]. cbn in Hw, Hh.
    assert (Hbad : bad_geometry (locals st) = true).
    { unfold bad_geometry. rewrite Hw, Hh. apply orb_true_iff.
      destruct Hterm; [left | right]; now apply Z.ltb_lt. }
    cbv zeta. unfold main. fold (bad_geometry (locals st)). rewrite Hbad.
    match goal with
    | |- context [if ?b then emit ?a else emit ?c] =>
        destruct b
    end; cbn [value events fst snd]; cbn;
      (assert (Hall : forall text,
                 Forall diagnostic
                   (events (getopt_loop build WITH_TIMG_VIDEO options
                      (initial build kNotInitialized
                         (DetermineTermSize tiocgwinsz) files
                         sigint_before_loop) flag)
                    ++ [EvStderr text; EvUsage 3]));
       [intros text; apply Forall_app; split;
          [exact Hd | repeat constructor] |]);
      (split; [apply Hall | split; [apply diagnostic_quiet, Hall | now left]]).
  - cbn [value events fst snd].
    split; [exact Hd | split; [now apply diagnostic_quiet |]].
    right. exists status. auto.
Qed.

Lemma no_terminal_and_no_geometry_option_witness :
  let r := timg sample_build true (-1) no_terminal unset
             [opt_U; opt_W] [still "a.png"] false false in
  value r = Exited 3 /\ created (events r) = [].
Proof.
  split; [reflexivity |].
  exact (proj1 (proj2 (no_terminal_and_no_geometry_option sample_build true
                         (-1) no_terminal unset [opt_U; opt_W]
                         [still "a.png"] false false
                         (or_introl eq_refl) eq_refl))).
Defined.

(** X17: the last [-g] decides: after options that are all accepted, the
    width and the height of the display are those of the last [-g<w>x<h>],
    whatever the terminal and the options before it said. *)
Theorem last_geometry_option_wins
    (build : Build) (WITH_TIMG_VIDEO : bool) (pre post : list Opt)
    (w h : Z) (st0 st : Parsing) (flag : bool) :
  Int.in_range w = true -> Int.in_range h = true ->
  forallb (fun opt => negb (gives_geometry opt)) post = true ->
  value (getopt_loop build WITH_TIMG_VIDEO
           (pre ++ opt_g (decimal w ++ "x" ++ decimal h) :: post) st0 flag)
  = inl st ->
  width (display_opts (locals st)) = w
  /\ height (display_opts (locals st)) = h.
Proof.
  intros Hw Hh Hpost Hrun.
  destruct (getopt_loop_split _ _ _ _ _ _ _ _ Hrun)
    as (st1 & st2 & _ & Hg & Hrest).
  destruct (getopt_loop_keeps_geometry _ _ _ _ _ _ Hpost Hrest) as [-> ->].
  cbn [handle_option] in Hg.
  change ("x" ++ decimal h)%string with (String "x" (decimal h)) in Hg.
  rewrite (sscanf_two_numbers "x" w h eq_refl Hw Hh) in Hg.
  cbn in Hg. injection Hg as <-. cbn. auto.
Qed.

Lemma last_geometry_option_wins_witness :
  exists st,
    value (getopt_loop sample_build true
             [opt_g "10x10"; opt_g "160x100"; opt_U] sample_parsing false)
    = inl st
    /\ width (display_opts (locals st)) = 160
    /\ height (display_opts (locals st)) = 100.
Proof.
  eexists. split; [reflexivity |].
  exact (last_geometry_option_wins sample_build true [opt_g "10x10"] [opt_U]
           160 100 sample_parsing _ false eq_refl eq_refl eq_refl eq_refl).
Defined.

Lemma main_attempts WITH k l flag :
  Forall (fun a => a = (do_image_loading l, do_video_loading l))
    (attempts (events (main WITH k l flag))).
Proof.
  destruct (main_cases WITH k l flag)
    as [(text & status & _ & -> & _) | [(_ & _ & ->) | (_ & _ & w & h & ->)]].
  - constructor.
  - cbn [events fst snd].
    destruct (prologue_cursor l) as (_ & _ & _ & ->). constructor.
  - cbv zeta.
    match goal with
    | |- context [main_loop ?a ?b ?c ?d ?e ?f ?g ?h ?i ?j] =>
        pose proof (called_with_quiet _ _ _ _ _ _ _
                      (main_loop_called_with a b c d e f g h i j))
          as (_ & _ & _ & Hat);
        set (r := main_loop a b c d e f g h i j) in *
    end.
    destruct (prologue_cursor l) as (_ & _ & _ & Hp).
    destruct (epilogue_cursor l (flag_after r)) as (_ & _ & _ & He).
    destruct (value r); cbn [events fst snd];
      rewrite !attempts_app, ?Hp, ?He, ?app_nil_r; exact Hat.
Qed.

(** X18: whatever the options, every call of [ImageSource::Create] asks for
    at least one of the loaders, and in a build without video support it
    asks for the image loader: [-V] and [-I] never leave a file with nothing
    to try it with. *)
Theorem some_loader_is_always_tried
    (build : Build) (WITH_TIMG_VIDEO : bool) (kNotInitialized : Z)
    (tiocgwinsz : Z -> option winsize) (getenv : string -> option string)
    (options : list Opt) (files : list Input) (sigint_before_loop : bool)
    (flag : bool) :
  Forall (fun a => fst a || snd a = true
                   /\ (WITH_TIMG_VIDEO = false -> fst a = true))
    (attempts (events (timg build WITH_TIMG_VIDEO kNotInitialized tiocgwinsz
                         getenv options files sigint_before_loop flag))).
Proof.
  rewrite timg_run. cbv zeta.
  destruct (getopt_loop_run build WITH_TIMG_VIDEO options
              (initial build kNotInitialized (DetermineTermSize tiocgwinsz)
                 files sigint_before_loop) flag) as (_ & Hd & _).
  destruct (diagnostic_quiet _ Hd) as (_ & _ & _ & Hat & _).
  pose proof (getopt_loop_some_loader build WITH_TIMG_VIDEO kNotInitialized
                tiocgwinsz files sigint_before_loop options flag) as Hsome.
  destruct (value (getopt_loop _ _ _ _ _)) as [st | status];
    cbn [events fst snd]; [| rewrite Hat; constructor].
  rewrite attempts_app, Hat. cbn [app].
  eapply Forall_impl;
    [| apply (main_attempts WITH_TIMG_VIDEO kNotInitialized (locals st) flag)].
  intros a ->. cbn [fst snd]. now apply Hsome.
Qed.

(** X19: in a build with video support the last of [-V] and [-I] decides
    which loader is tried: [-V] leaves the video loader alone, [-I] the image
    loader alone. *)
Theorem last_loader_choice_wins
    (build : Build) (pre post : list Opt) (choice : Opt)
    (st0 st : Parsing) (flag : bool) :
  chooses_loader choice = true ->
  forallb (fun opt => negb (chooses_loader opt)) post = true ->
  value (getopt_loop build true (pre ++ choice :: post) st0 flag) = inl st ->
  (do_image_loading (locals st), do_video_loading (locals st))
  = match choice with
    | opt_V => (false, true)
    | _ => (true, false)
    end.
Proof.
  intros Hchoice Hpost Hrun.
  destruct (getopt_loop_split _ _ _ _ _ _ _ _ Hrun)
    as (st1 & st2 & _ & Hc & Hrest).
  destruct (getopt_loop_keeps_loaders _ _ _ _ _ _ Hpost Hrest) as [-> ->].
  destruct choice; try discriminate; cbn in Hc; injection Hc as <-;
    reflexivity.
Qed.

Lemma last_loader_choice_wins_witness :
  exists st,
    value (getopt_loop sample_build true [opt_I; opt_V; opt_a] sample_parsing
             false) = inl st
    /\ (do_image_loading (locals st), do_video_loading (locals st))
       = (false, true).
Proof.
  eexists. split; [reflexivity |].
  exact (last_loader_choice_wins sample_build [opt_I] [opt_a] opt_V
           sample_parsing _ false eq_refl eq_refl eq_refl).
Defined.

Lemma main_cursor_shown WITH k l flag :
  hide_cursor l = false ->
  cursor_offs (events (main WITH k l flag)) = 0%nat
  /\ cursor_ons (events (main WITH k l flag)) = 0%nat.
Proof.
  intros Hc.
  destruct (main_cases WITH k l flag)
    as [(text & status & _ & -> & _) | [(_ & _ & ->) | (_ & _ & w & h & ->)]].
  - cbn. auto.
  - cbn [events fst snd].
    destruct (prologue_cursor l) as (-> & -> & _). now rewrite Hc.
  - cbv zeta.
    match goal with
    | |- context [main_loop ?a ?b ?c ?d ?e ?f ?g ?h ?i ?j] =>
        pose proof (called_with_quiet _ _ _ _ _ _ _
                      (main_loop_called_with a b c d e f g h i j))
          as (Hoff & Hon & _);
        set (r := main_loop a b c d e f g h i j) in *
    end.
    destruct (prologue_cursor l) as (Hp1 & Hp2 & _).
    destruct (epilogue_cursor l (flag_after r)) as (He1 & He2 & _).
    rewrite Hc in *.
    destruct (value r); cbn [events fst snd];
      rewrite ?cursor_offs_app, ?cursor_ons_app, ?Hoff, ?Hon, ?Hp1, ?Hp2,
        ?He1, ?He2; auto.
Qed.

(** X20: with [-E] anywhere among the options, [timg] never touches the
    cursor, whatever else it does. *)
Theorem cursor_untouched_with_E
    (build : Build) (WITH_TIMG_VIDEO : bool) (kNotInitialized : Z)
    (tiocgwinsz : Z -> option winsize) (getenv : string -> option string)
    (options : list Opt) (files : list Input) (sigint_before_loop : bool)
    (flag : bool) :
  In opt_E options ->
  let r := timg build WITH_TIMG_VIDEO kNotInitialized tiocgwinsz getenv
             options files sigint_before_loop flag in
  cursor_offs (events r) = 0%nat /\ cursor_ons (events r) = 0%nat.
Proof.
  intros Hin. cbv zeta. rewrite timg_run. cbv zeta.
  destruct (getopt_loop_run build WITH_TIMG_VIDEO options
              (initial build kNotInitialized (DetermineTermSize tiocgwinsz)
                 files sigint_before_loop) flag) as (_ & Hd & _).
  destruct (diagnostic_quiet _ Hd) as (Hoff & Hon & _).
  destruct (value (getopt_loop _ _ _ _ _)) as [st | status] eqn:Hrun;
    cbn [events fst snd]; [| auto].
  apply in_split in Hin as (pre & post & ->).
  destruct (getopt_loop_split _ _ _ _ _ _ _ _ Hrun)
    as (st1 & st2 & _ & HE & Hrest).
  cbn in HE. injection HE as <-.
  assert (Hshown : hide_cursor (locals st) = false).
  { eapply getopt_loop_cursor_shown; [| exact Hrest]. reflexivity. }
  destruct (main_cursor_shown WITH_TIMG_VIDEO kNotInitialized (locals st)
              flag Hshown) as [Hm1 Hm2].
  now rewrite cursor_offs_app, cursor_ons_app, Hoff, Hon, Hm1, Hm2.
Qed.

Lemma cursor_untouched_with_E_witness :
  let r := timg sample_build true (-1) (terminal_on STDOUT_FILENO 80 24) unset
             [opt_U; opt_E] [still "a.png"] false false in
  value r = Exited 0 /\ cursor_offs (events r) = 0%nat.
Proof.
  split; [reflexivity |].
  exact (proj1 (cursor_untouched_with_E sample_build true (-1)
                  (terminal_on STDOUT_FILENO 80 24) unset [opt_U; opt_E]
                  [still "a.png"] false false (or_intror (or_introl eq_refl)))).
Defined.

(** * Rounding to 24 bits *)

(** What the two bits of a record say about the rest, as arithmetic. *)
Ltac bits_to_arith Hr Hs :=
  match type of Hr with
  | (true = true <-> _) => apply proj1 in Hr; specialize (Hr eq_refl)
  | (false = true <-> ?P) =>
      apply proj2 in Hr;
      assert (~ P) by (let H := fresh in intros H; now apply Hr in H);
      clear Hr
  end;
  match type of Hs with
  | (true = true <-> _) => apply proj1 in Hs; specialize (Hs eq_refl)
  | (false = true <-> ?t <> 0 /\ ?h <> ?U) =>
      apply proj2 in Hs;
      assert (t = 0 \/ h = U)
        by (destruct (Z.eq_dec t 0); [now left |];
            destruct (Z.eq_dec h U); [now right |];
            exfalso; assert (false = true) by (now apply Hs); discriminate);
      clear Hs
  end.

Lemma located_exact (m : Z) : located 1 (shr_record_of_loc m loc_Exact) m.
Proof.
  exists 0. cbn. repeat split; try lia; try discriminate.
Qed.

Lemma located_new_location (b q r : Z) :
  0 < b -> 0 <= r < b ->
  located b (shr_record_of_loc q (new_location b r)) (q * b + r).
Proof.
  intros Hb Hr. pose proof (new_location_spec b r Hb Hr) as Hloc.
  exists r.
  destruct (new_location b r) as [| []];
    cbn [shr_record_of_loc shr_m shr_r shr_s];
    repeat split; intros; try reflexivity; try lia; exfalso; lia.
Qed.

Lemma shr_1_halves (m : Z) (r s : bool) :
  0 <= m ->
  exists h b,
    m = 2 * h + Z.b2z b /\ 0 <= h
    /\ shr_1 (Build_shr_record m r s) = Build_shr_record h b (r || s).
Proof.
  intros Hm. destruct m as [| [p | p |] | p]; try lia.
  - exists 0, false. cbn. auto with zarith.
  - exists (Zpos p), true. cbn [shr_1 Z.b2z]. rewrite Pos2Z.inj_xI.
    repeat split; lia.
  - exists (Zpos p), false. cbn [shr_1 Z.b2z]. rewrite Pos2Z.inj_xO.
    repeat split; lia.
  - exists 0, true. cbn. auto with zarith.
Qed.

Lemma shr_1_located (U : Z) (mrs : shr_record) (X : Z) :
  0 < U -> 0 <= shr_m mrs -> located U mrs X ->
  located (2 * U) (shr_1 mrs) X /\ 0 <= shr_m (shr_1 mrs).
Proof.
  intros HU Hm (t & HX & Ht & Hr & Hs).
  destruct mrs as [m r s]. cbn [shr_m shr_r shr_s] in *.
  destruct (shr_1_halves m r s Hm) as (h & b & -> & Hh & ->).
  cbn [shr_m]. split; [| exact Hh].
  exists (Z.b2z b * U + t). cbn [shr_m shr_r shr_s].
  set (hU := h * U) in *.
  assert (HX' : X = 2 * hU + Z.b2z b * U + t) by (subst hU; lia).
  clear HX.
  destruct b; cbn [Z.b2z] in *; rewrite ?Z.mul_1_l, ?Z.mul_0_l in *;
    (split; [subst hU; lia |]); (split; [lia |]);
    destruct r, s; bits_to_arith Hr Hs; cbn [orb];
    repeat split; intros; try reflexivity; try lia; exfalso; lia.
Qed.

Lemma iter_shr_1_located (p : positive) : forall U mrs X,
  0 < U -> 0 <= shr_m mrs -> located U mrs X ->
  located (2 ^ Zpos p * U) (iter_pos shr_1 p mrs) X
  /\ 0 <= shr_m (iter_pos shr_1 p mrs).
Proof.
  induction p as [p IH | p IH |]; intros U mrs X HU Hm Hloc;
    cbn [iter_pos].
  - destruct (shr_1_located U mrs X HU Hm Hloc) as [H1 Hm1].
    destruct (IH (2 * U) _ X ltac:(lia) Hm1 H1) as [H2 Hm2].
    assert (Hp : 0 < 2 ^ Zpos p) by (apply Z.pow_pos_nonneg; lia).
    destruct (IH (2 ^ Zpos p * (2 * U)) _ X ltac:(nia) Hm2 H2) as [H3 Hm3].
    split; [| exact Hm3].
    replace (2 ^ Zpos p~1 * U) with (2 ^ Zpos p * (2 ^ Zpos p * (2 * U)));
      [exact H3 |].
    assert (E : Zpos p~1 = Zpos p + Zpos p + 1) by lia.
    rewrite E, !Z.pow_add_r by lia. ring.
  - destruct (IH U _ X HU Hm Hloc) as [H2 Hm2].
    assert (Hp : 0 < 2 ^ Zpos p) by (apply Z.pow_pos_nonneg; lia).
    destruct (IH (2 ^ Zpos p * U) _ X ltac:(nia) Hm2 H2) as [H3 Hm3].
    split; [| exact Hm3].
    replace (2 ^ Zpos p~0 * U) with (2 ^ Zpos p * (2 ^ Zpos p * U));
      [exact H3 |].
    assert (E : Zpos p~0 = Zpos p + Zpos p) by lia.
    rewrite E, !Z.pow_add_r by lia. ring.
  - change (2 ^ 1 * U) with (2 * U). now apply shr_1_located.
Qed.

(** Rounding to nearest: the result is within half a unit of [X]; it is one
    of the two neighbours of [X], and [X] itself when that is a whole number
    of units. *)
Lemma located_round (U : Z) (mrs : shr_record) (X : Z) :
  0 < U -> located U mrs X ->
  let m2 := round_nearest_even (shr_m mrs) (loc_of_shr_record mrs) in
  2 * (m2 * U) <= 2 * X + U /\ 2 * X <= 2 * (m2 * U) + U
  /\ (m2 - 1) * U < X /\ X < (m2 + 1) * U
  /\ shr_m mrs <= m2 <= shr_m mrs + 1.
Proof.
  intros HU (t & HX & Ht & Hr & Hs). cbv zeta.
  destruct mrs as [m r s]. cbn [shr_m shr_r shr_s] in *.
  set (mU := m * U) in *.
  destruct r, s; bits_to_arith Hr Hs;
    cbn [loc_of_shr_record round_nearest_even];
    try destruct (Z.even m);
    rewrite ?Z.mul_add_distr_r, ?Z.mul_sub_distr_r, ?Z.mul_1_l;
    fold mU; repeat split; lia.
Qed.

(** [binary_round_aux] on a mantissa of [24 + k] bits: [k] bits are shifted
    out, the rest is rounded to nearest, and a mantissa that reaches 2^24 is
    renormalised. *)
Lemma round_aux_located (m0 e0 : Z) (l : location) (U0 X k : Z) :
  0 < U0 -> 0 <= k ->
  2 ^ (23 + k) <= m0 < 2 ^ (24 + k) ->
  -149 <= e0 + k <= 100 ->
  located U0 (shr_record_of_loc m0 l) X ->
  exists m2,
    2 ^ 23 <= m2 <= 2 ^ 24
    /\ binary_round_aux 24 128 false m0 e0 l
       = (if m2 =? 2 ^ 24 then S754_finite false 8388608 (e0 + k + 1)
          else S754_finite false (Z.to_pos m2) (e0 + k))
    /\ 2 * (m2 * (2 ^ k * U0)) <= 2 * X + 2 ^ k * U0
    /\ 2 * X <= 2 * (m2 * (2 ^ k * U0)) + 2 ^ k * U0
    /\ (m2 - 1) * (2 ^ k * U0) < X /\ X < (m2 + 1) * (2 ^ k * U0).
Proof.
  intros HU0 Hk Hm0 He Hloc0.
  assert (HK : 0 < 2 ^ k) by (apply Z.pow_pos_nonneg; lia).
  assert (H23 : 2 ^ (23 + k) = 2 ^ 23 * 2 ^ k) by (apply Z.pow_add_r; lia).
  assert (H24 : 2 ^ (24 + k) = 2 ^ 24 * 2 ^ k) by (apply Z.pow_add_r; lia).
  assert (Hpos : 0 < m0) by lia.
  destruct m0 as [| p | p]; try lia.
  assert (Hd : Zpos (digits2_pos p) = 24 + k).
  { apply digits2_pos_unique. now replace (24 + k - 1) with (23 + k) by lia. }
  assert (Hfirst : exists mrs,
            shr_fexp 24 128 (Zpos p) e0 l = (mrs, e0 + k)
            /\ located (2 ^ k * U0) mrs X /\ 0 <= shr_m mrs).
  { unfold shr_fexp. cbn [Zdigits2]. rewrite Hd.
    replace (fexp 24 128 (24 + k + e0) - e0) with k
      by (unfold fexp, emin; lia).
    destruct k as [| pk | pk]; try lia.
    - exists (shr_record_of_loc (Zpos p) l). cbn [shr].
      rewrite Z.add_0_r, Z.mul_1_l, shr_m_of_loc. auto with zarith.
    - exists (iter_pos shr_1 pk (shr_record_of_loc (Zpos p) l)).
      split; [reflexivity |].
      apply iter_shr_1_located; [exact HU0 | | exact Hloc0].
      rewrite shr_m_of_loc. lia. }
  destruct Hfirst as (mrs & Hshift & Hloc & Hm1).
  set (U := 2 ^ k * U0) in *.
  assert (HU : 0 < U) by (subst U; nia).
  pose proof (located_round U mrs X HU Hloc) as Hround. cbv zeta in Hround.
  set (m2 := round_nearest_even (shr_m mrs) (loc_of_shr_record mrs)) in *.
  destruct Hround as (R1 & R2 & R3 & R4 & R5).
  assert (Hrange : 2 ^ 23 <= shr_m mrs < 2 ^ 24).
  { destruct Hloc as (t & HX & Ht & _).
    destruct Hloc0 as (t0 & HX0 & Ht0 & _).
    rewrite shr_m_of_loc in HX0.
    set (m1 := shr_m mrs) in *.
    assert (Hup : (Zpos p + 1) * U0 <= 2 ^ 24 * U).
    { subst U. rewrite Z.mul_assoc, <- H24.
      apply Z.mul_le_mono_nonneg_r; lia. }
    assert (Hlow : 2 ^ 23 * U <= Zpos p * U0).
    { subst U. rewrite Z.mul_assoc, <- H23.
      apply Z.mul_le_mono_nonneg_r; lia. }
    split.
    - assert (2 ^ 23 * U < (m1 + 1) * U) by lia.
      assert (2 ^ 23 < m1 + 1); [| lia].
      now apply (Z.mul_lt_mono_pos_r U).
    - assert (m1 * U < 2 ^ 24 * U) by lia.
      now apply (Z.mul_lt_mono_pos_r U). }
  exists m2. split; [lia |]. split; [| auto].
  unfold binary_round_aux. rewrite Hshift. fold m2.
  apply second_shift; lia.
Qed.

Lemma rounded_shape (m2 e : Z) :
  2 ^ 23 <= m2 <= 2 ^ 24 ->
  exists m' j,
    (if m2 =? 2 ^ 24 then S754_finite false 8388608 (e + 1)
     else S754_finite false (Z.to_pos m2) e)
    = S754_finite false m' (e + j)
    /\ normal m' /\ 0 <= j <= 1 /\ m2 = Zpos m' * 2 ^ j.
Proof.
  intros Hm. destruct (Z.eqb_spec m2 (2 ^ 24)) as [-> | Hne].
  - exists 8388608%positive, 1. unfold normal. cbn. repeat split; lia.
  - exists (Z.to_pos m2), 0. rewrite Z.add_0_r, Z.mul_1_r.
    unfold normal. rewrite Z2Pos.id by lia. repeat split; lia.
Qed.

(** The product of two binary32 numbers with full mantissas: the exact
    product of the mantissas loses [k] bits, 23 or 24; the result is within
    half a unit of it and is one of its two neighbours. *)
Lemma mul_rounds (ms mn : positive) (es en : Z) :
  normal ms -> normal mn -> -172 <= es + en <= 76 ->
  exists m' k j,
    F32.mul (S754_finite false ms es) (S754_finite false mn en)
    = S754_finite false m' (es + en + k + j)
    /\ normal m' /\ 23 <= k <= 24 /\ 0 <= j <= 1
    /\ 2 ^ (23 + k) <= Zpos ms * Zpos mn < 2 ^ (24 + k)
    /\ 2 * (Zpos m' * 2 ^ j * 2 ^ k) <= 2 * (Zpos ms * Zpos mn) + 2 ^ k
    /\ 2 * (Zpos ms * Zpos mn) <= 2 * (Zpos m' * 2 ^ j * 2 ^ k) + 2 ^ k
    /\ (Zpos m' * 2 ^ j - 1) * 2 ^ k < Zpos ms * Zpos mn
    /\ Zpos ms * Zpos mn < (Zpos m' * 2 ^ j + 1) * 2 ^ k.
Proof.
  intros Hs Hn He. unfold F32.mul, SFmul, F32.prec, F32.emax. cbn [xorb].
  rewrite Pos2Z.inj_mul.
  set (P := Zpos ms * Zpos mn).
  assert (HP : 2 ^ 46 <= P < 2 ^ 48) by (unfold normal in *; subst P; nia).
  assert (Hk : exists k, 23 <= k <= 24 /\ 2 ^ (23 + k) <= P < 2 ^ (24 + k)).
  { destruct (Z_lt_le_dec P (2 ^ 47)); [exists 23 | exists 24];
      (split; [lia |]); cbn [Z.add]; lia. }
  destruct Hk as (k & Hk & HPk).
  destruct (round_aux_located P (es + en) loc_Exact 1 P k)
    as (m2 & Hm2 & Hround & R1 & R2 & R3 & R4);
    [lia | lia | exact HPk | lia | apply located_exact |].
  destruct (rounded_shape m2 (es + en + k) Hm2) as (m' & j & E & Hm' & Hj & ->).
  exists m', k, j. rewrite Hround, E.
  rewrite !Z.mul_1_r in *. repeat split; try lia; apply Hm'.
Qed.

(** The quotient of two binary32 numbers with full mantissas. *)
Lemma div_rounds (ma mb : positive) (ea eb : Z) :
  normal ma -> normal mb -> -23 <= ea <= 1 -> -23 <= eb <= 1 ->
  exists m' k j,
    F32.div (S754_finite false ma ea) (S754_finite false mb eb)
    = S754_finite false m' (ea - eb - 24 + k + j)
    /\ normal m' /\ 0 <= k <= 1 /\ 0 <= j <= 1
    /\ (k = 0 <-> Zpos ma < Zpos mb)
    /\ 2 * (Zpos m' * 2 ^ j * (2 ^ k * Zpos mb))
       <= 2 * (Zpos ma * 2 ^ 24) + 2 ^ k * Zpos mb
    /\ 2 * (Zpos ma * 2 ^ 24)
       <= 2 * (Zpos m' * 2 ^ j * (2 ^ k * Zpos mb)) + 2 ^ k * Zpos mb.
Proof.
  intros Ha Hb Hea Heb. rewrite (div_unfold ma mb ea eb Ha Hb Hea Heb).
  unfold normal in Ha, Hb.
  set (A := Zpos ma) in *. set (B := Zpos mb) in *.
  assert (HB : 0 < B) by lia.
  pose proof (Z.div_mod (A * 2 ^ 24) B ltac:(lia)) as Hdm.
  pose proof (Z.mod_pos_bound (A * 2 ^ 24) B HB) as Hr.
  pose proof (located_new_location B (A * 2 ^ 24 / B) _ HB Hr) as Hloc.
  set (q := A * 2 ^ 24 / B) in *. set (r := (A * 2 ^ 24) mod B) in *.
  replace (q * B + r) with (A * 2 ^ 24) in Hloc by lia.
  assert (Hk : exists k, 0 <= k <= 1 /\ (k = 0 <-> A < B)
                         /\ 2 ^ (23 + k) <= q < 2 ^ (24 + k)).
  { destruct (Z_lt_le_dec A B); [exists 0 | exists 1];
      (split; [lia |]); (split; [lia |]); cbn [Z.add]; nia. }
  destruct Hk as (k & Hk & Hk0 & Hq).
  destruct (round_aux_located q (ea - eb - 24) (new_location B r) B
              (A * 2 ^ 24) k)
    as (m2 & Hm2 & Hround & R1 & R2 & _);
    [lia | lia | exact Hq | lia | exact Hloc |].
  destruct (rounded_shape m2 (ea - eb - 24 + k) Hm2)
    as (m' & j & E & Hm' & Hj & ->).
  exists m', k, j. rewrite Hround, E.
  repeat split; try lia; try apply Hm'; apply Hk0.
Qed.

Lemma div_self (m : positive) (e : Z) :
  normal m -> -23 <= e <= 1 ->
  F32.div (S754_finite false m e) (S754_finite false m e) = F32.one.
Proof.
  intros Hm He.
  destruct (div_rounds m m e e Hm Hm He He)
    as (m' & k & j & -> & Hm' & Hk & Hj & Hk0 & R1 & R2).
  rewrite one_value. unfold normal in *.
  assert (k = 1) by lia. subst k.
  assert (Hj' : j = 0 \/ j = 1) by lia.
  change (2 ^ 1) with 2 in *. change (2 ^ 24) with 16777216 in *.
  destruct Hj' as [-> | ->]; [change (2 ^ 0) with 1 in * | change (2 ^ 1) with 2 in *].
  - assert (Zpos m' = 8388608) by nia.
    f_equal; [congruence | lia].
  - exfalso. nia.
Qed.

(** * Comparing, rounding and converting binary32 numbers *)

(** Positive numbers with full mantissas compare by exponent, then by
    mantissa. *)
Lemma lt_normal (ma mb : positive) (ea eb : Z) :
  SFltb (S754_finite false ma ea) (S754_finite false mb eb) = true
  <-> ea < eb \/ (ea = eb /\ Zpos ma < Zpos mb).
Proof.
  unfold SFltb. cbn [SFcompare].
  destruct (Z.compare_spec ea eb) as [-> | H | H].
  - change (Pos.compare_cont Eq ma mb) with (Pos.compare ma mb).
    destruct (Pos.compare_spec ma mb) as [-> | H | H];
      split; intros; try discriminate; try reflexivity; lia.
  - split; intros; [lia | reflexivity].
  - split; intros; [discriminate | lia].
Qed.

Lemma not_gt_one (m : positive) (e : Z) :
  normal m ->
  F32.gt (S754_finite false m e) F32.one = false ->
  e < -23 \/ (e = -23 /\ Zpos m = 2 ^ 23).
Proof.
  intros Hm H. unfold F32.gt in H. rewrite one_value in H.
  pose proof (lt_normal 8388608 m (-23) e) as Hlt.
  destruct (SFltb (S754_finite false 8388608 (-23)) (S754_finite false m e));
    [discriminate |].
  unfold normal in Hm.
  destruct (Z_lt_le_dec e (-23)); [now left |]. right.
  destruct (Z.eq_dec e (-23)) as [-> | Hne].
  - split; [reflexivity |].
    destruct (Z.eq_dec (Zpos m) (2 ^ 23)); [assumption |].
    assert (false = true); [| discriminate].
    apply Hlt. right. split; [reflexivity |]. change (Zpos 8388608) with (2 ^ 23). lia.
  - assert (false = true); [| discriminate]. apply Hlt. left. lia.
Qed.

(** [(int) roundf (x)] for a positive [x] with a full mantissa that is 2^24
    at most: the nearest integer, halfway cases upwards. *)
Lemma to_int_roundf (oor : F32.float -> Z) (m : positive) (e : Z) :
  normal m ->
  let n := if 0 <=? e then Zpos m * 2 ^ e else F32.nearest_away m e in
  0 <= n <= 2 ^ 24 ->
  F32.to_int oor (F32.roundf (S754_finite false m e)) = n.
Proof.
  intros Hm n Hn. unfold F32.roundf. subst n.
  assert (Hrange : forall v, 0 <= v <= 2 ^ 24 -> Int.in_range v = true).
  { intros v Hv. unfold Int.in_range, Int.min_signed, Int.max_signed.
    apply andb_true_iff. split; apply Z.leb_le; lia. }
  destruct (Z.leb_spec 0 e) as [He | He].
  - unfold F32.to_int, F32.truncate. cbn [cond_Zopp].
    destruct (Z.leb_spec 0 e); [| lia].
    rewrite Z.shiftl_mul_pow2 by lia. now rewrite (Hrange _ Hn).
  - cbn [cond_Zopp].
    set (n := F32.nearest_away m e) in *.
    destruct (Z.eq_dec n 0) as [E | NE].
    + rewrite E. cbn. reflexivity.
    + assert (Hn1 : 1 <= n <= 2 ^ 24) by lia.
      change (binary_normalize F32.prec F32.emax n 0 false)
        with (F32.of_int n).
      destruct (of_int_represents n Hn1) as (m' & e' & Hof & Hrep).
      rewrite Hof.
      destruct (roundf_integral n m' e' Hn1 Hof Hrep) as [_ Ht].
      unfold F32.to_int. rewrite Ht. now rewrite (Hrange _ Hn).
Qed.

(** A number below [D + 1/2] is rounded and converted to [D] at most;
    [c] is any scale at which its value is an integer. *)
Lemma to_int_roundf_le (oor : F32.float -> Z) (m : positive) (e D c : Z) :
  normal m -> 0 <= D <= 2 ^ 24 -> 0 <= c -> 0 <= e + c ->
  2 * (Zpos m * 2 ^ (e + c)) < (2 * D + 1) * 2 ^ c ->
  0 <= F32.to_int oor (F32.roundf (S754_finite false m e)) <= D.
Proof.
  intros Hm HD Hc Hec Hval.
  assert (Hn : 0 <= (if 0 <=? e then Zpos m * 2 ^ e
                     else F32.nearest_away m e) <= D).
  { destruct (Z.leb_spec 0 e) as [He | He].
    - rewrite Z.pow_add_r in Hval by lia.
      assert (0 < 2 ^ c) by (apply Z.pow_pos_nonneg; lia).
      assert (0 < 2 ^ e) by (apply Z.pow_pos_nonneg; lia).
      set (v := Zpos m * 2 ^ e) in *.
      assert (Hv : 2 * v * 2 ^ c < (2 * D + 1) * 2 ^ c) by (subst v; lia).
      apply Z.mul_lt_mono_pos_r in Hv; [| assumption]. subst v. nia.
    - assert (Hd : 0 < 2 ^ (- e)) by (apply Z.pow_pos_nonneg; lia).
      assert (Hs : 2 ^ c = 2 ^ (e + c) * 2 ^ (- e)).
      { rewrite <- Z.pow_add_r by lia. f_equal. lia. }
      assert (Hp : 0 < 2 ^ (e + c)) by (apply Z.pow_pos_nonneg; lia).
      rewrite Hs in Hval.
      assert (Hv : 2 * Zpos m * 2 ^ (e + c)
                   < (2 * D + 1) * 2 ^ (- e) * 2 ^ (e + c)) by lia.
      apply Z.mul_lt_mono_pos_r in Hv; [| assumption].
      unfold F32.nearest_away. destruct (Z.leb_spec 0 e); [lia |].
      set (d := 2 ^ (- e)) in *.
      pose proof (Z.div_mod (Zpos m) d ltac:(lia)) as Hdm.
      pose proof (Z.mod_pos_bound (Zpos m) d Hd) as Hr.
      set (q := Zpos m / d) in *. set (r := Zpos m mod d) in *.
      assert (0 <= q) by (subst q; apply Z.div_pos; lia).
      destruct (Z.leb_spec d (2 * r)); nia. }
  rewrite to_int_roundf; [exact Hn | exact Hm | lia].
Qed.

(** A number from [D - 1/2] on and below [D + 1/2] is rounded and converted
    to [D]. *)
Lemma to_int_roundf_eq (oor : F32.float -> Z) (m : positive) (e D c : Z) :
  normal m -> 0 <= D <= 2 ^ 24 -> 0 <= c -> 0 <= e + c ->
  (2 * D - 1) * 2 ^ c <= 2 * (Zpos m * 2 ^ (e + c)) ->
  2 * (Zpos m * 2 ^ (e + c)) < (2 * D + 1) * 2 ^ c ->
  F32.to_int oor (F32.roundf (S754_finite false m e)) = D.
Proof.
  intros Hm HD Hc Hec Hlow Hval.
  assert (Hn : (if 0 <=? e then Zpos m * 2 ^ e
                else F32.nearest_away m e) = D).
  { destruct (Z.leb_spec 0 e) as [He | He].
    - rewrite Z.pow_add_r in Hval, Hlow by lia.
      assert (0 < 2 ^ c) by (apply Z.pow_pos_nonneg; lia).
      assert (0 < 2 ^ e) by (apply Z.pow_pos_nonneg; lia).
      set (v := Zpos m * 2 ^ e) in *.
      assert (Hv : 2 * v * 2 ^ c < (2 * D + 1) * 2 ^ c) by (subst v; lia).
      apply Z.mul_lt_mono_pos_r in Hv; [| assumption].
      assert (Hv' : (2 * D - 1) * 2 ^ c <= 2 * v * 2 ^ c) by (subst v; lia).
      apply Z.mul_le_mono_pos_r in Hv'; [| assumption]. lia.
    - assert (Hd : 0 < 2 ^ (- e)) by (apply Z.pow_pos_nonneg; lia).
      assert (Hs : 2 ^ c = 2 ^ (e + c) * 2 ^ (- e)).
      { rewrite <- Z.pow_add_r by lia. f_equal. lia. }
      assert (Hp : 0 < 2 ^ (e + c)) by (apply Z.pow_pos_nonneg; lia).
      rewrite Hs in Hval, Hlow.
      assert (Hv : 2 * Zpos m * 2 ^ (e + c)
                   < (2 * D + 1) * 2 ^ (- e) * 2 ^ (e + c)) by lia.
      apply Z.mul_lt_mono_pos_r in Hv; [| assumption].
      assert (Hv' : (2 * D - 1) * 2 ^ (- e) * 2 ^ (e + c)
                    <= 2 * Zpos m * 2 ^ (e + c)) by lia.
      apply Z.mul_le_mono_pos_r in Hv'; [| assumption].
      unfold F32.nearest_away. destruct (Z.leb_spec 0 e); [lia |].
      set (d := 2 ^ (- e)) in *.
      pose proof (Z.div_mod (Zpos m) d ltac:(lia)) as Hdm.
      pose proof (Z.mod_pos_bound (Zpos m) d Hd) as Hr.
      set (q := Zpos m / d) in *. set (r := Zpos m mod d) in *.
      destruct (Z.leb_spec d (2 * r)); nia. }
  rewrite to_int_roundf; [exact Hn | exact Hm | lia].
Qed.

(** * The fractions and the scaled dimensions of [CalcScaleToFitDisplay] *)

(** Integers from 1 to 2^24 compare as their binary32 forms do. *)
Lemma represents_le (a b : Z) (ma mb : positive) (ea eb : Z) :
  represents a ma ea -> represents b mb eb ->
  (a <= b <-> ea < eb \/ (ea = eb /\ Zpos ma <= Zpos mb)).
Proof.
  intros (Ha & Hea & Hva) (Hb & Heb & Hvb). unfold normal in *.
  assert (H23 : 0 < 2 ^ 23) by (apply Z.pow_pos_nonneg; lia).
  assert (Hpa : 0 < 2 ^ (ea + 23)) by (apply Z.pow_pos_nonneg; lia).
  assert (Hpb : 0 < 2 ^ (eb + 23)) by (apply Z.pow_pos_nonneg; lia).
  destruct (Z.lt_trichotomy ea eb) as [Hlt | [-> | Hgt]].
  - split; [auto |]. intros _.
    assert (Hs : 2 ^ (eb + 23) = 2 ^ (ea + 23) * 2 ^ (eb - ea)).
    { rewrite <- Z.pow_add_r by lia. f_equal. lia. }
    assert (2 <= 2 ^ (eb - ea)).
    { change 2 with (2 ^ 1) at 1. apply Z.pow_le_mono_r; lia. }
    assert (a * 2 ^ 23 <= b * 2 ^ 23); [| nia].
    rewrite Hva, Hvb, Hs. nia.
  - split.
    + intros Hab. right. split; [reflexivity |].
      assert (a * 2 ^ 23 <= b * 2 ^ 23) by nia.
      rewrite Hva, Hvb in *. nia.
    + intros [Hlt | [_ Hm]]; [lia |].
      assert (a * 2 ^ 23 <= b * 2 ^ 23); [| nia].
      rewrite Hva, Hvb. nia.
  - split; [| intros [H | [H _]]; lia].
    intros Hab. exfalso.
    assert (Hs : 2 ^ (ea + 23) = 2 ^ (eb + 23) * 2 ^ (ea - eb)).
    { rewrite <- Z.pow_add_r by lia. f_equal. lia. }
    assert (2 <= 2 ^ (ea - eb)).
    { change 2 with (2 ^ 1) at 1. apply Z.pow_le_mono_r; lia. }
    assert (a * 2 ^ 23 <= b * 2 ^ 23) by nia.
    rewrite Hva, Hvb, Hs in *. nia.
Qed.

(** The fraction of two sizes is a positive number with a full mantissa. *)
Lemma fraction_shape (a b : Z) :
  1 <= a <= 2 ^ 24 -> 1 <= b <= 2 ^ 24 ->
  exists m e,
    F32.div (F32.of_int a) (F32.of_int b) = S754_finite false m e
    /\ normal m /\ -48 <= e <= 3.
Proof.
  intros Ha Hb.
  destruct (of_int_represents a Ha) as (ma & ea & -> & Hma & Hea & _).
  destruct (of_int_represents b Hb) as (mb & eb & -> & Hmb & Heb & _).
  destruct (div_rounds ma mb ea eb Hma Hmb Hea Heb)
    as (m & k & j & -> & Hm & Hk & Hj & _).
  exists m, (ea - eb - 24 + k + j). repeat split; try apply Hm; lia.
Qed.

(** A fraction that is not above 1.0 belongs to a size that does not exceed
    the other. *)
Lemma fraction_not_gt_one (a b : Z) :
  1 <= a <= 2 ^ 24 -> 1 <= b <= 2 ^ 24 ->
  F32.gt (F32.div (F32.of_int a) (F32.of_int b)) F32.one = false ->
  a <= b.
Proof.
  intros Ha Hb.
  destruct (of_int_represents a Ha) as (ma & ea & -> & Hra).
  destruct (of_int_represents b Hb) as (mb & eb & -> & Hrb).
  pose proof (represents_le a b ma mb ea eb Hra Hrb) as Hle.
  destruct Hra as (Hma & Hea & _). destruct Hrb as (Hmb & Heb & _).
  destruct (div_rounds ma mb ea eb Hma Hmb Hea Heb)
    as (m & k & j & -> & Hm & Hk & Hj & Hk0 & _ & R2).
  intros Hgt. apply (not_gt_one _ _ Hm) in Hgt.
  apply Hle. unfold normal in *.
  assert (Hk' : k = 0 \/ k = 1) by lia.
  assert (Hj' : j = 0 \/ j = 1) by lia.
  change (2 ^ 24) with 16777216 in *. change (2 ^ 23) with 8388608 in *.
  destruct Hk' as [-> | ->], Hj' as [-> | ->];
    change (2 ^ 0) with 1 in *; change (2 ^ 1) with 2 in *;
    destruct Hgt as [Hgt | [Hgt Hm1]]; lia.
Qed.

(** A dimension scaled by a factor that is not above 1.0 does not grow. *)
Lemma scaled_by_at_most_one
    (oor : F32.float -> Z) (ms : positive) (es n : Z) :
  normal ms -> -48 <= es ->
  F32.gt (S754_finite false ms es) F32.one = false ->
  1 <= n <= 2 ^ 24 ->
  0 <= scaled_by oor (S754_finite false ms es) n <= n.
Proof.
  intros Hms Hes Hgt Hn. apply (not_gt_one _ _ Hms) in Hgt.
  destruct Hgt as [Hlt | [-> Hone]].
  - unfold scaled_by.
    destruct (of_int_represents n Hn) as (mn & en & -> & Hmn & Hen & Hval).
    destruct (mul_rounds ms mn es en Hms Hmn ltac:(lia))
      as (m' & k & j & -> & Hm' & Hk & Hj & _ & _ & _ & R3 & _).
    apply (to_int_roundf_le oor m' _ n (- es - k + 23)); try lia;
      [exact Hm' |].
    replace (es + en + k + j + (- es - k + 23)) with (j + (en + 23)) by lia.
    rewrite Z.pow_add_r by lia.
    replace (- es - k + 23) with ((- es - k) + 23) by lia.
    rewrite (Z.pow_add_r 2 (- es - k) 23) by lia.
    unfold normal in *.
    assert (Ha : 0 < 2 ^ (- es - k)) by (apply Z.pow_pos_nonneg; lia).
    assert (Hsk : 2 ^ (- es) = 2 ^ (- es - k) * 2 ^ k).
    { rewrite <- Z.pow_add_r by lia. f_equal. lia. }
    assert (H24 : 2 ^ 24 <= 2 ^ (- es)) by (apply Z.pow_le_mono_r; lia).
    assert (HK : 0 < 2 ^ k) by (apply Z.pow_pos_nonneg; lia).
    assert (Hen' : 0 < 2 ^ (en + 23)) by (apply Z.pow_pos_nonneg; lia).
    set (A := 2 ^ (- es - k)) in *. set (K := 2 ^ k) in *.
    set (J := 2 ^ j) in *. set (E := 2 ^ (en + 23)) in *.
    assert (Hprod : Zpos ms * Zpos mn < A * K * Zpos mn) by nia.
    assert (Hm2 : (Zpos m' * J - 1) * K < A * Zpos mn * K) by lia.
    apply Z.mul_lt_mono_pos_r in Hm2; [| assumption].
    assert (Hle : Zpos m' * J <= A * Zpos mn) by lia.
    assert (Hle' : Zpos m' * J * E <= A * Zpos mn * E)
      by (apply Z.mul_le_mono_nonneg_r; lia).
    nia.
  - assert (E : S754_finite false ms (-23) = F32.one).
    { rewrite one_value. f_equal. change (2 ^ 23) with (Zpos 8388608) in Hone.
      congruence. }
    rewrite E, scaled_by_one by exact Hn. lia.
Qed.

Lemma fraction_self (n : Z) :
  1 <= n <= 2 ^ 24 -> F32.div (F32.of_int n) (F32.of_int n) = F32.one.
Proof.
  intros Hn. destruct (of_int_represents n Hn) as (m & e & -> & Hm & He & _).
  now apply div_self.
Qed.

(** [scale_to_options] with the names of the specification's step 4. *)
Lemma scale_to_options_scaled_by oor iw ih o :
  scale_to_options oor iw ih o =
  let wf := width_fraction iw o in
  let hf := height_fraction ih o in
  if fill_width o && fill_height o then
    let f := if F32.gt wf hf then wf else hf in
    (scaled_by oor f iw, scaled_by oor f ih)
  else if fill_height o then (scaled_by oor hf iw, height o)
  else if fill_width o then (width o, scaled_by oor wf ih)
  else
    let f := if F32.lt wf hf then wf else hf in
    (scaled_by oor f iw, scaled_by oor f ih).
Proof. reflexivity. Qed.

(** X21: an image that has exactly the size of the display is left as it
    is, with [false] returned, whatever the fill flags and the upscale
    flag. *)
Theorem exact_fit_is_kept
    (out_of_range : F32.float -> Z) (img_width img_height : Z)
    (options : DisplayOptions) :
  1 <= img_width <= 2 ^ 24 -> 1 <= img_height <= 2 ^ 24 ->
  width options = img_width -> height options = img_height ->
  CalcScaleToFitDisplay out_of_range img_width img_height options
  = mkScaled img_width img_height false.
Proof.
  intros Hw Hh Ew Eh.
  destruct (keeps_native_size img_width img_height options) eqn:Hk;
    [now apply CalcScaleToFitDisplay_native |].
  rewrite (CalcScaleToFitDisplay_scaled _ _ _ _ Hk).
  rewrite scale_to_options_scaled_by. cbv zeta.
  unfold width_fraction, height_fraction. rewrite Ew, Eh.
  rewrite !fraction_self by assumption.
  assert (Hpair :
    (if fill_width options && fill_height options
     then (scaled_by out_of_range
             (if F32.gt F32.one F32.one then F32.one else F32.one) img_width,
           scaled_by out_of_range
             (if F32.gt F32.one F32.one then F32.one else F32.one) img_height)
     else if fill_height options
          then (scaled_by out_of_range F32.one img_width, img_height)
          else if fill_width options
               then (img_width, scaled_by out_of_range F32.one img_height)
               else (scaled_by out_of_range
                       (if F32.lt F32.one F32.one then F32.one else F32.one)
                       img_width,
                     scaled_by out_of_range
                       (if F32.lt F32.one F32.one then F32.one else F32.one)
                       img_height))
    = (img_width, img_height)).
  { destruct (F32.gt F32.one F32.one), (F32.lt F32.one F32.one),
      (fill_width options), (fill_height options); cbn [andb];
      now rewrite ?scaled_by_one. }
  rewrite Hpair. cbn [fst snd].
  rewrite !at_least_one_id by lia. now rewrite !Z.eqb_refl.
Qed.

Lemma exact_fit_is_kept_witness :
  CalcScaleToFitDisplay F32.cvttss2si_indefinite 640 480
    (display 640 480 true true false) = mkScaled 640 480 false.
Proof.
  apply exact_fit_is_kept; cbn; lia.
Defined.

(** X22: without [-U] the image is never enlarged, whatever the fill flags:
    neither target dimension exceeds the native one. *)
Theorem never_enlarged_without_upscale
    (out_of_range : F32.float -> Z) (img_width img_height : Z)
    (options : DisplayOptions) :
  1 <= img_width <= 2 ^ 24 -> 1 <= img_height <= 2 ^ 24 ->
  1 <= width options <= 2 ^ 24 -> 1 <= height options <= 2 ^ 24 ->
  upscale options = false ->
  let g := CalcScaleToFitDisplay out_of_range img_width img_height options in
  target_width g <= img_width /\ target_height g <= img_height.
Proof.
  intros Hiw Hih Hw Hh Hup. cbv zeta.
  destruct (keeps_native_size img_width img_height options) eqn:Hk.
  { rewrite CalcScaleToFitDisplay_native by exact Hk. cbn. lia. }
  rewrite (CalcScaleToFitDisplay_scaled _ _ _ _ Hk). cbv zeta.
  cbn [target_width target_height].
  assert (Hclamp : forall t n, t <= n -> 1 <= n -> at_least_one t <= n).
  { intros t n Ht Hn. unfold at_least_one. destruct (Z.leb_spec t 0); lia. }
  rewrite scale_to_options_scaled_by. cbv zeta.
  unfold keeps_native_size in Hk. rewrite Hup in Hk. cbn [negb andb] in Hk.
  unfold width_fraction, height_fraction in *.
  destruct (fraction_shape (width options) img_width Hw Hiw)
    as (mw & ew & Ewf & Hmw & Hew).
  destruct (fraction_shape (height options) img_height Hh Hih)
    as (mh & eh & Ehf & Hmh & Heh).
  pose proof (fraction_not_gt_one (width options) img_width Hw Hiw) as Hwle.
  pose proof (fraction_not_gt_one (height options) img_height Hh Hih) as Hhle.
  rewrite Ewf, Ehf in *.
  pose proof (fun H n => scaled_by_at_most_one out_of_range mw ew n Hmw
                           ltac:(lia) H) as Sw.
  pose proof (fun H n => scaled_by_at_most_one out_of_range mh eh n Hmh
                           ltac:(lia) H) as Sh.
  destruct (fill_width options), (fill_height options);
    cbn [orb andb fst snd] in *.
  - discriminate.
  - rewrite andb_true_r in Hk.
    split; apply Hclamp; try lia; [apply Hwle; exact Hk |].
    apply (Sw Hk img_height Hih).
  - split; apply Hclamp; try lia; [| apply Hhle; exact Hk].
    apply (Sh Hk img_width Hiw).
  - match goal with
    | |- context [scaled_by _ ?f img_width] =>
        assert (Hf : exists m e,
                  f = S754_finite false m e
                  /\ normal m /\ -48 <= e
                  /\ F32.gt (S754_finite false m e) F32.one = false)
    end.
    { pose proof (lt_normal mw mh ew eh) as Hlt.
      unfold F32.lt.
      destruct (SFltb (S754_finite false mw ew) (S754_finite false mh eh)).
      - exists mw, ew. repeat split; try apply Hmw; try lia.
        destruct (F32.gt (S754_finite false mw ew) F32.one) eqn:Hgw;
          [| reflexivity].
        cbn [andb] in Hk.
        apply (not_gt_one _ _ Hmh) in Hk.
        unfold F32.gt in Hgw. rewrite one_value in Hgw.
        apply lt_normal in Hgw.
        assert (Hl : ew < eh \/ ew = eh /\ Zpos mw < Zpos mh)
          by (now apply Hlt).
        change (Zpos 8388608) with (2 ^ 23) in Hgw. unfold normal in *. lia.
      - exists mh, eh. repeat split; try apply Hmh; try lia.
        destruct (F32.gt (S754_finite false mh eh) F32.one) eqn:Hgh;
          [| reflexivity].
        rewrite andb_true_r in Hk.
        apply (not_gt_one _ _ Hmw) in Hk.
        unfold F32.gt in Hgh. rewrite one_value in Hgh.
        apply lt_normal in Hgh.
        assert (Hl : ~ (ew < eh \/ ew = eh /\ Zpos mw < Zpos mh)).
        { intros H. apply Hlt in H. discriminate. }
        change (Zpos 8388608) with (2 ^ 23) in Hgh. unfold normal in *. lia. }
    destruct Hf as (m & e & -> & Hm & He & Hgt).
    split; apply Hclamp; try lia;
      apply (scaled_by_at_most_one out_of_range m e _ Hm He Hgt);
      assumption.
Qed.

Lemma never_enlarged_without_upscale_witness :
  let g := CalcScaleToFitDisplay F32.cvttss2si_indefinite 50 40
             (display 160 100 false true false) in
  target_width g <= 50 /\ target_height g <= 40.
Proof.
  apply never_enlarged_without_upscale; cbn; lia.
Defined.

(** * The scaled image and the display *)

(** A size below 2^22 has a binary32 form with two bits to spare. *)
Lemma represents_small (D : Z) (mD : positive) (eD : Z) :
  represents D mD eD -> 1 <= D < 2 ^ 22 -> eD <= -2.
Proof.
  intros (Hm & He & Hv) HD. unfold normal in Hm.
  assert (Hlt : 2 ^ (eD + 23) < 2 ^ 22).
  { assert (0 < 2 ^ (eD + 23)) by (apply Z.pow_pos_nonneg; lia). nia. }
  apply Z.pow_lt_mono_r_iff in Hlt; lia.
Qed.

(** The fraction [D / n], rounded to binary32, times [n] is within a quarter
    of [D]; the fraction [(mf, ef)] is counted in units of 2^-48. *)
Lemma fraction_times_native (D n : Z) (mD mn mf : positive) (eD en k j : Z) :
  represents D mD eD -> represents n mn en -> 1 <= D < 2 ^ 22 ->
  0 <= k <= 1 -> 0 <= j <= 1 ->
  2 * (Zpos mf * 2 ^ j * (2 ^ k * Zpos mn))
    <= 2 * (Zpos mD * 2 ^ 24) + 2 ^ k * Zpos mn ->
  2 * (Zpos mD * 2 ^ 24)
    <= 2 * (Zpos mf * 2 ^ j * (2 ^ k * Zpos mn)) + 2 ^ k * Zpos mn ->
  let Ff := Zpos mf * 2 ^ (eD - en - 24 + k + j + 48) in
  (4 * D - 1) * 2 ^ 48 < 4 * (Ff * n) < (4 * D + 1) * 2 ^ 48.
Proof.
  intros HrD Hrn HD Hk Hj R1 R2 Ff.
  pose proof (represents_small D mD eD HrD HD) as HeD.
  destruct HrD as (HmD & HeD' & HvD). destruct Hrn as (Hmn & Hen & Hvn).
  unfold normal in *.
  set (Q := 2 ^ (eD - en + 24)).
  set (B := 2 ^ (en + 23)) in *.
  assert (HQ : 0 < Q) by (apply Z.pow_pos_nonneg; lia).
  assert (HB : 0 < B) by (apply Z.pow_pos_nonneg; lia).
  assert (HQB : Q * B = 2 ^ (eD + 47)).
  { subst Q B. rewrite <- Z.pow_add_r by lia. f_equal. lia. }
  assert (HE : 2 ^ (eD + 47) = 2 ^ (eD + 23) * 2 ^ 24).
  { rewrite <- Z.pow_add_r by lia. f_equal. lia. }
  assert (HEle : 2 ^ (eD + 47) <= 2 ^ 45) by (apply Z.pow_le_mono_r; lia).
  assert (HFf : Ff = Zpos mf * 2 ^ j * 2 ^ k * Q).
  { subst Ff Q.
    replace (eD - en - 24 + k + j + 48) with (j + (k + (eD - en + 24)))
      by lia.
    rewrite !Z.pow_add_r by lia. ring. }
  set (E := 2 ^ (eD + 47)) in *. set (ED := 2 ^ (eD + 23)) in *.
  set (M := Zpos mf * 2 ^ j * 2 ^ k) in *.
  set (K := 2 ^ k) in *.
  assert (HK : 1 <= K <= 2).
  { subst K. assert (k = 0 \/ k = 1) as [-> | ->] by lia; cbn; lia. }
  (* the identities at the common scale *)
  assert (L1 : 2 * (M * Zpos mn) * (Q * B) = 2 * (Ff * n) * 2 ^ 23).
  { rewrite HFf.
    replace (2 * (M * Zpos mn) * (Q * B)) with (2 * (M * Q) * (Zpos mn * B))
      by ring.
    rewrite <- Hvn. ring. }
  assert (L2 : 2 * (Zpos mD * 2 ^ 24) * (Q * B) = 2 * D * 2 ^ 23 * 2 ^ 48).
  { rewrite HQB, HE.
    replace (2 * (Zpos mD * 2 ^ 24) * (ED * 2 ^ 24))
      with (2 * (Zpos mD * ED) * 2 ^ 48) by (change (2 ^ 48) with (2 ^ 24 * 2 ^ 24); ring).
    rewrite <- HvD. ring. }
  assert (L3 : 0 < K * Zpos mn * (Q * B) < 2 ^ 22 * 2 ^ 48).
  { rewrite HQB. split; [nia |].
    assert (K * Zpos mn < 2 ^ 25) by nia.
    assert (K * Zpos mn * E < 2 ^ 25 * 2 ^ 45); [nia |].
    change (2 ^ 22 * 2 ^ 48) with (2 ^ 25 * 2 ^ 45). lia. }
  assert (R1' : 2 * (M * Zpos mn) * (Q * B)
                <= (2 * (Zpos mD * 2 ^ 24) + K * Zpos mn) * (Q * B)).
  { apply Z.mul_le_mono_nonneg_r; [nia |].
    replace (M * Zpos mn) with (Zpos mf * 2 ^ j * (K * Zpos mn))
      by (subst M; ring).
    exact R1. }
  assert (R2' : 2 * (Zpos mD * 2 ^ 24) * (Q * B)
                <= (2 * (M * Zpos mn) + K * Zpos mn) * (Q * B)).
  { apply Z.mul_le_mono_nonneg_r; [nia |].
    replace (M * Zpos mn) with (Zpos mf * 2 ^ j * (K * Zpos mn))
      by (subst M; ring).
    exact R2. }
  rewrite Z.mul_add_distr_r in R1', R2'.
  rewrite L1 in R1', R2'. rewrite L2 in R1', R2'.
  set (T := K * Zpos mn * (Q * B)) in *.
  set (V := Ff * n) in *.
  change (2 ^ 23) with 8388608 in *. change (2 ^ 22) with 4194304 in *.
  change (2 ^ 48) with 281474976710656 in *.
  lia.
Qed.

(** The product of a factor [(ms, es)], counted in units of 2^-48, and a
    native size [n], when the exact product is below [D + 1/4]: the rounded
    product is below [D + 1/2], and from [D - 1/2] on when the exact product
    is above [D - 1/4]. *)
Lemma scaled_product (ms mn : positive) (es en n D : Z) :
  normal ms -> represents n mn en -> -48 <= es <= 3 -> 0 <= D < 2 ^ 22 ->
  4 * (Zpos ms * 2 ^ (es + 48) * n) < (4 * D + 1) * 2 ^ 48 ->
  exists mr er c,
    F32.mul (S754_finite false ms es) (S754_finite false mn en)
    = S754_finite false mr er
    /\ normal mr /\ 0 <= c /\ 0 <= er + c
    /\ 2 * (Zpos mr * 2 ^ (er + c)) < (2 * D + 1) * 2 ^ c
    /\ ((4 * D - 1) * 2 ^ 48 < 4 * (Zpos ms * 2 ^ (es + 48) * n) ->
        (2 * D - 1) * 2 ^ c <= 2 * (Zpos mr * 2 ^ (er + c))).
Proof.
  intros Hms (Hmn & Hen & Hvn) Hes HD Hup.
  destruct (mul_rounds ms mn es en Hms Hmn ltac:(lia))
    as (mr & k & j & Hmul & Hmr & Hk & Hj & HP & _ & _ & R3 & R4).
  unfold normal in *.
  set (P := Zpos ms * Zpos mn) in *.
  set (Y := 2 ^ (es + en + 71)).
  assert (HY : 0 < Y) by (apply Z.pow_pos_nonneg; lia).
  assert (HSn : Zpos ms * 2 ^ (es + 48) * n * 2 ^ 23 = P * Y).
  { subst P Y.
    replace (es + en + 71) with ((es + 48) + (en + 23)) by lia.
    rewrite (Z.pow_add_r 2 (es + 48) (en + 23)) by lia.
    replace (Zpos ms * 2 ^ (es + 48) * n * 2 ^ 23)
      with (Zpos ms * 2 ^ (es + 48) * (n * 2 ^ 23)) by ring.
    rewrite Hvn. ring. }
  set (Sn := Zpos ms * 2 ^ (es + 48) * n) in *.
  assert (Hup' : 4 * (P * Y) < (4 * D + 1) * 2 ^ 71).
  { rewrite <- HSn. change (2 ^ 71) with (2 ^ 48 * 2 ^ 23).
    change (2 ^ 23) with 8388608. lia. }
  (* the exponent before the carry is -2 at most *)
  assert (He1 : es + en + k <= -2).
  { assert (Hlow : 2 ^ (23 + k) * Y <= P * Y)
      by (apply Z.mul_le_mono_nonneg_r; lia).
    assert (Hpow : 2 ^ (23 + k) * Y = 2 ^ (es + en + k + 94)).
    { subst Y. rewrite <- Z.pow_add_r by lia. f_equal. lia. }
    assert (Hlt : 2 ^ (es + en + k + 94) < 2 ^ 93).
    { rewrite <- Hpow. change (2 ^ 93) with (2 ^ 22 * 2 ^ 71).
      change (2 ^ 71) with 2361183241434822606848 in *.
      change (2 ^ 22) with 4194304 in *. lia. }
    apply Z.pow_lt_mono_r_iff in Hlt; lia. }
  set (c := - (es + en + k)).
  set (G := 2 ^ (c - 2)).
  assert (HG : 0 < G) by (apply Z.pow_pos_nonneg; lia).
  assert (HK : 0 < 2 ^ k) by (apply Z.pow_pos_nonneg; lia).
  assert (Hc : 2 ^ c = 4 * G).
  { subst G. replace c with (2 + (c - 2)) at 1 by lia.
    rewrite Z.pow_add_r by lia. reflexivity. }
  assert (H71 : 2 ^ 71 = 4 * G * 2 ^ k * Y).
  { subst G Y. rewrite <- Hc, <- !Z.pow_add_r by lia. f_equal. lia. }
  set (K := 2 ^ k) in *. set (m2 := Zpos mr * 2 ^ j) in *.
  exists mr, (es + en + k + j), c.
  replace (es + en + k + j + c) with j by lia. fold m2.
  split; [exact Hmul |]. split; [exact Hmr |].
  split; [lia |]. split; [lia |].
  rewrite Hc. split.
  - assert (Hlt : P * (4 * Y) < (4 * D + 1) * G * K * (4 * Y)).
    { rewrite H71 in Hup'. lia. }
    apply Z.mul_lt_mono_pos_r in Hlt; [| lia].
    assert (Hm : (m2 - 1) * K < (4 * D + 1) * G * K) by lia.
    apply Z.mul_lt_mono_pos_r in Hm; [| lia].
    lia.
  - intros Hlow.
    assert (Hlow' : (4 * D - 1) * 2 ^ 71 < 4 * (P * Y)).
    { rewrite <- HSn. change (2 ^ 71) with (2 ^ 48 * 2 ^ 23).
      change (2 ^ 23) with 8388608. lia. }
    assert (Hlt : (4 * D - 1) * G * K * (4 * Y) < P * (4 * Y)).
    { rewrite H71 in Hlow'. lia. }
    apply Z.mul_lt_mono_pos_r in Hlt; [| lia].
    assert (Hm : (4 * D - 1) * G * K < (m2 + 1) * K) by lia.
    apply Z.mul_lt_mono_pos_r in Hm; [| lia].
    lia.
Qed.

Lemma lex_value (ms mf : positive) (es ef : Z) :
  normal ms -> normal mf -> -48 <= es ->
  es < ef \/ (es = ef /\ Zpos ms <= Zpos mf) ->
  Zpos ms * 2 ^ (es + 48) <= Zpos mf * 2 ^ (ef + 48).
Proof.
  intros Hs Hf He [Hlt | [-> Hle]]; unfold normal in *.
  - assert (Hp : 0 < 2 ^ (es + 48)) by (apply Z.pow_pos_nonneg; lia).
    assert (Hsplit : 2 ^ (ef + 48) = 2 ^ (es + 48) * 2 ^ (ef - es)).
    { rewrite <- Z.pow_add_r by lia. f_equal. lia. }
    assert (2 <= 2 ^ (ef - es)).
    { change 2 with (2 ^ 1) at 1. apply Z.pow_le_mono_r; lia. }
    rewrite Hsplit. nia.
  - assert (Hp : 0 < 2 ^ (ef + 48)) by (apply Z.pow_pos_nonneg; lia). nia.
Qed.

(** The native size scaled by the fraction of the display over it gives the
    display size again. *)
Lemma scaled_by_fraction (oor : F32.float -> Z) (D n : Z) :
  1 <= D < 2 ^ 22 -> 1 <= n <= 2 ^ 24 ->
  scaled_by oor (F32.div (F32.of_int D) (F32.of_int n)) n = D.
Proof.
  intros HD Hn. unfold scaled_by.
  destruct (of_int_represents D ltac:(lia)) as (mD & eD & -> & HrD).
  destruct (of_int_represents n Hn) as (mn & en & -> & Hrn).
  destruct (div_rounds mD mn eD en ltac:(apply HrD) ltac:(apply Hrn)
              ltac:(apply HrD) ltac:(apply Hrn))
    as (mf & k & j & -> & Hmf & Hk & Hj & _ & R1 & R2).
  pose proof (fraction_times_native D n mD mn mf eD en k j HrD Hrn HD Hk Hj
                R1 R2) as [Hlow Hup].
  destruct HrD as (_ & HeD & _). pose proof Hrn as (_ & Hen & _).
  destruct (scaled_product mf mn (eD - en - 24 + k + j) en n D Hmf Hrn
              ltac:(lia) ltac:(lia) Hup)
    as (mr & er & c & -> & Hmr & Hc & Hec & Hlt & Hge).
  apply (to_int_roundf_eq oor mr er D c); try assumption; lia.
Qed.

(** The native size scaled by a factor that is not above the fraction of the
    display over it does not exceed the display size. *)
Lemma scaled_by_below_fraction
    (oor : F32.float -> Z) (D n : Z) (ms : positive) (es : Z) :
  1 <= D < 2 ^ 22 -> 1 <= n <= 2 ^ 24 ->
  normal ms -> -48 <= es <= 3 ->
  F32.lt (F32.div (F32.of_int D) (F32.of_int n)) (S754_finite false ms es)
  = false ->
  0 <= scaled_by oor (S754_finite false ms es) n <= D.
Proof.
  intros HD Hn Hms Hes. unfold scaled_by.
  destruct (of_int_represents D ltac:(lia)) as (mD & eD & -> & HrD).
  destruct (of_int_represents n Hn) as (mn & en & -> & Hrn).
  destruct (div_rounds mD mn eD en ltac:(apply HrD) ltac:(apply Hrn)
              ltac:(apply HrD) ltac:(apply Hrn))
    as (mf & k & j & -> & Hmf & Hk & Hj & _ & R1 & R2).
  intros Hlt.
  pose proof (fraction_times_native D n mD mn mf eD en k j HrD Hrn HD Hk Hj
                R1 R2) as [_ Hup].
  assert (Hlex : es < eD - en - 24 + k + j
                 \/ (es = eD - en - 24 + k + j /\ Zpos ms <= Zpos mf)).
  { pose proof (lt_normal mf ms (eD - en - 24 + k + j) es) as H.
    unfold F32.lt in Hlt. rewrite Hlt in H.
    destruct (Z_lt_le_dec es (eD - en - 24 + k + j)); [now left |].
    right.
    destruct (Z.eq_dec es (eD - en - 24 + k + j)) as [E | NE].
    - split; [exact E |].
      destruct (Z_le_gt_dec (Zpos ms) (Zpos mf)); [assumption |].
      assert (false = true); [| discriminate]. apply H. right. lia.
    - assert (false = true); [| discriminate]. apply H. left. lia. }
  pose proof (lex_value ms mf es _ Hms Hmf ltac:(lia) Hlex) as Hval.
  assert (Hup' : 4 * (Zpos ms * 2 ^ (es + 48) * n) < (4 * D + 1) * 2 ^ 48).
  { assert (Zpos ms * 2 ^ (es + 48) * n
            <= Zpos mf * 2 ^ (eD - en - 24 + k + j + 48) * n)
      by (apply Z.mul_le_mono_nonneg_r; lia).
    lia. }
  destruct (scaled_product ms mn es en n D Hms Hrn Hes ltac:(lia) Hup')
    as (mr & er & c & -> & Hmr & Hc & Hec & Hlt' & _).
  apply (to_int_roundf_le oor mr er D c); try assumption; lia.
Qed.

(** A fraction above 1.0 belongs to a size that exceeds the other. *)
Lemma fraction_gt_one (a b : Z) :
  1 <= a <= 2 ^ 24 -> 1 <= b <= 2 ^ 24 ->
  F32.gt (F32.div (F32.of_int a) (F32.of_int b)) F32.one = true ->
  b <= a.
Proof.
  intros Ha Hb.
  destruct (of_int_represents a Ha) as (ma & ea & -> & Hra).
  destruct (of_int_represents b Hb) as (mb & eb & -> & Hrb).
  pose proof (represents_le b a mb ma eb ea Hrb Hra) as Hle.
  destruct Hra as (Hma & Hea & _). destruct Hrb as (Hmb & Heb & _).
  destruct (div_rounds ma mb ea eb Hma Hmb Hea Heb)
    as (m & k & j & -> & Hm & Hk & Hj & Hk0 & R1 & _).
  unfold F32.gt. rewrite one_value. intros Hgt. apply lt_normal in Hgt.
  change (Zpos 8388608) with (2 ^ 23) in Hgt.
  apply Hle. unfold normal in *.
  assert (Hk' : k = 0 \/ k = 1) by lia.
  assert (Hj' : j = 0 \/ j = 1) by lia.
  change (2 ^ 24) with 16777216 in *. change (2 ^ 23) with 8388608 in *.
  destruct Hk' as [-> | ->], Hj' as [-> | ->];
    change (2 ^ 0) with 1 in *; change (2 ^ 1) with 2 in *;
    destruct Hgt as [Hgt | [Hgt Hm1]]; nia.
Qed.

(** X23: with no fill flag the result fits the display: neither target
    dimension exceeds the display's, for a display below 2^22 in each
    dimension; and when the function reports scaling, the result touches the
    display on one axis at least. *)
Theorem scaled_image_fits_the_display
    (out_of_range : F32.float -> Z) (img_width img_height : Z)
    (options : DisplayOptions) :
  1 <= img_width <= 2 ^ 24 -> 1 <= img_height <= 2 ^ 24 ->
  1 <= width options < 2 ^ 22 -> 1 <= height options < 2 ^ 22 ->
  fill_width options = false -> fill_height options = false ->
  let g := CalcScaleToFitDisplay out_of_range img_width img_height options in
  target_width g <= width options /\ target_height g <= height options
  /\ (was_scaled g = true ->
      target_width g = width options \/ target_height g = height options).
Proof.
  intros Hiw Hih Hw Hh Hfw Hfh. cbv zeta.
  assert (Hw' : 1 <= width options <= 2 ^ 24) by lia.
  assert (Hh' : 1 <= height options <= 2 ^ 24) by lia.
  destruct (keeps_native_size img_width img_height options) eqn:Hk.
  { rewrite CalcScaleToFitDisplay_native by exact Hk.
    cbn [target_width target_height was_scaled].
    unfold keeps_native_size in Hk. rewrite Hfw, Hfh in Hk.
    cbn [orb] in Hk.
    apply andb_true_iff in Hk as [Hk Hgh].
    apply andb_true_iff in Hk as [_ Hgw].
    apply (fraction_gt_one _ _ Hw' Hiw) in Hgw.
    apply (fraction_gt_one _ _ Hh' Hih) in Hgh.
    repeat split; try lia; discriminate. }
  rewrite (CalcScaleToFitDisplay_scaled _ _ _ _ Hk). cbv zeta.
  cbn [target_width target_height was_scaled].
  rewrite scale_to_options_scaled_by. cbv zeta.
  rewrite Hfw, Hfh. cbn [andb fst snd].
  unfold width_fraction, height_fraction.
  pose proof (scaled_by_fraction out_of_range (width options) img_width
                Hw Hiw) as Ew.
  pose proof (scaled_by_fraction out_of_range (height options) img_height
                Hh Hih) as Eh.
  destruct (fraction_shape (width options) img_width Hw' Hiw)
    as (mw & ew & Ewf & Hmw & Hew).
  destruct (fraction_shape (height options) img_height Hh' Hih)
    as (mh & eh & Ehf & Hmh & Heh).
  pose proof (scaled_by_below_fraction out_of_range (height options)
                img_height mw ew Hh Hih Hmw Hew) as Bh.
  pose proof (scaled_by_below_fraction out_of_range (width options)
                img_width mh eh Hw Hiw Hmh Heh) as Bw.
  rewrite Ewf, Ehf in *.
  assert (Hclamp : forall t D, 0 <= t <= D -> 1 <= D -> at_least_one t <= D).
  { intros t D Ht HD. unfold at_least_one. destruct (Z.leb_spec t 0); lia. }
  destruct (F32.lt (S754_finite false mw ew) (S754_finite false mh eh))
    eqn:Hlt.
  - rewrite Ew, (at_least_one_id (width options)) by lia.
    assert (Hle : at_least_one
                    (scaled_by out_of_range (S754_finite false mw ew)
                       img_height) <= height options).
    { apply Hclamp; [| lia]. apply Bh.
      unfold F32.lt in *. now apply SFltb_asym. }
    repeat split; [lia | exact Hle | now left].
  - rewrite Eh, (at_least_one_id (height options)) by lia.
    assert (Hle : at_least_one
                    (scaled_by out_of_range (S754_finite false mh eh)
                       img_width) <= width options).
    { apply Hclamp; [| lia]. now apply Bw. }
    repeat split; [exact Hle | lia | now right].
Qed.

Lemma scaled_image_fits_the_display_witness :
  let g := CalcScaleToFitDisplay F32.cvttss2si_indefinite 1920 1080
             (display 160 100 false false false) in
  target_width g <= 160 /\ target_height g <= 100.
Proof.
  pose proof (scaled_image_fits_the_display F32.cvttss2si_indefinite 1920
                1080 (display 160 100 false false false)
                ltac:(lia) ltac:(lia) ltac:(cbn; lia) ltac:(cbn; lia)
                eq_refl eq_refl) as H.
  cbv zeta in H. destruct H as (Hw & Hh & _).
  cbv zeta. split; [exact Hw | exact Hh].
Defined.

(** The bound on the display is not idle: at 8388607 columns the target is
    one column wider than the display. *)
Example display_bound_is_needed :
  target_width
    (CalcScaleToFitDisplay F32.cvttss2si_indefinite 16777213 100
       (display 8388607 8388607 false false false)) = 8388608.
Proof. vm_compute. reflexivity. Qed.

(** Of two positive numbers with full mantissas, neither below the other,
    both are the same. *)
Lemma normal_trichotomy (ma mb : positive) (ea eb : Z) :
  SFltb (S754_finite false ma ea) (S754_finite false mb eb) = false ->
  SFltb (S754_finite false mb eb) (S754_finite false ma ea) = false ->
  S754_finite false ma ea = S754_finite false mb eb.
Proof.
  intros H1 H2.
  pose proof (lt_normal ma mb ea eb) as L1.
  pose proof (lt_normal mb ma eb ea) as L2.
  rewrite H1 in L1. rewrite H2 in L2.
  assert (ea = eb).
  { destruct (Z.lt_trichotomy ea eb) as [H | [H | H]]; [| exact H |].
    - assert (false = true) by (apply L1; now left). discriminate.
    - assert (false = true) by (apply L2; now left). discriminate. }
  subst eb.
  assert (Zpos ma = Zpos mb).
  { destruct (Z.lt_trichotomy (Zpos ma) (Zpos mb)) as [H | [H | H]];
      [| exact H |].
    - assert (false = true) by (apply L1; now right). discriminate.
    - assert (false = true) by (apply L2; now right). discriminate. }
  congruence.
Qed.

(** X24: the computation does not prefer an axis: for the image and the
    display lying on their sides, fill flags exchanged, the targets are
    those of the upright case with width and height exchanged, and the
    boolean is the same. *)
Theorem transposition_exchanges_the_targets
    (out_of_range : F32.float -> Z) (img_width img_height : Z)
    (options : DisplayOptions) :
  1 <= img_width <= 2 ^ 24 -> 1 <= img_height <= 2 ^ 24 ->
  1 <= width options <= 2 ^ 24 -> 1 <= height options <= 2 ^ 24 ->
  let g := CalcScaleToFitDisplay out_of_range img_width img_height options in
  let g' := CalcScaleToFitDisplay out_of_range img_height img_width
              (transposed options) in
  target_width g' = target_height g /\ target_height g' = target_width g
  /\ was_scaled g' = was_scaled g.
Proof.
  intros Hiw Hih Hw Hh. cbv zeta.
  assert (Hkeep : keeps_native_size img_height img_width (transposed options)
                  = keeps_native_size img_width img_height options).
  { unfold keeps_native_size, width_fraction, height_fraction, transposed.
    cbn [width height upscale fill_width fill_height].
    now rewrite <- andb_assoc, (andb_comm (fill_width options || _)),
      andb_assoc. }
  destruct (keeps_native_size img_width img_height options) eqn:Hk.
  { rewrite !CalcScaleToFitDisplay_native by assumption. cbn. auto. }
  rewrite !CalcScaleToFitDisplay_scaled by assumption. cbv zeta.
  cbn [target_width target_height was_scaled].
  assert (Hpair : scale_to_options out_of_range img_height img_width
                    (transposed options)
                  = (snd (scale_to_options out_of_range img_width img_height
                            options),
                     fst (scale_to_options out_of_range img_width img_height
                            options))).
  { rewrite !scale_to_options_scaled_by. cbv zeta.
    unfold width_fraction, height_fraction, transposed.
    cbn [width height upscale fill_width fill_height].
    destruct (fraction_shape (width options) img_width Hw Hiw)
      as (mw & ew & -> & _).
    destruct (fraction_shape (height options) img_height Hh Hih)
      as (mh & eh & -> & _).
    unfold F32.gt, F32.lt.
    destruct (SFltb (S754_finite false mh eh) (S754_finite false mw ew))
      eqn:H1;
      destruct (SFltb (S754_finite false mw ew) (S754_finite false mh eh))
        eqn:H2;
      try (rewrite (SFltb_asym _ _ H1) in H2; discriminate);
      try rewrite (normal_trichotomy _ _ _ _ H1 H2);
      destruct (fill_width options), (fill_height options); reflexivity. }
  rewrite Hpair. cbn [fst snd].
  repeat split. apply orb_comm.
Qed.

Lemma transposition_exchanges_the_targets_witness :
  let g := CalcScaleToFitDisplay F32.cvttss2si_indefinite 1920 1080
             (display 160 100 false true false) in
  let g' := CalcScaleToFitDisplay F32.cvttss2si_indefinite 1080 1920
              (transposed (display 160 100 false true false)) in
  target_width g' = target_height g /\ target_height g' = target_width g.
Proof.
  pose proof (transposition_exchanges_the_targets F32.cvttss2si_indefinite
                1920 1080 (display 160 100 false true false)
                ltac:(lia) ltac:(lia) ltac:(cbn; lia) ltac:(cbn; lia)) as H.
  cbv zeta in H. destruct H as (H1 & H2 & _).
  cbv zeta. split; [exact H1 | exact H2].
Defined.

(** * How far the scaled dimension is from the exact product *)

(** The fraction [D / n], rounded to binary32 and counted in units of
    2^-48, times [n] is within half a unit of the fraction's last place,
    times [n], of [D]. *)
Lemma fraction_error (D n : Z) (mD mn mf : positive) (eD en k j : Z) :
  represents D mD eD -> represents n mn en ->
  0 <= k <= 1 -> 0 <= j <= 1 ->
  2 * (Zpos mf * 2 ^ j * (2 ^ k * Zpos mn))
    <= 2 * (Zpos mD * 2 ^ 24) + 2 ^ k * Zpos mn ->
  2 * (Zpos mD * 2 ^ 24)
    <= 2 * (Zpos mf * 2 ^ j * (2 ^ k * Zpos mn)) + 2 ^ k * Zpos mn ->
  let Uf := 2 ^ (eD - en - 24 + k + j + 48) in
  let Ff := Zpos mf * Uf in
  2 * (Ff * n) <= 2 * (D * 2 ^ 48) + Uf * n
  /\ 2 * (D * 2 ^ 48) <= 2 * (Ff * n) + Uf * n.
Proof.
  intros (HmD & HeD & HvD) (Hmn & Hen & Hvn) Hk Hj R1 R2 Uf Ff.
  unfold normal in *.
  set (Q := 2 ^ (eD - en + 24)).
  set (B := 2 ^ (en + 23)) in *.
  assert (HQ : 0 < Q) by (apply Z.pow_pos_nonneg; lia).
  assert (HB : 0 < B) by (apply Z.pow_pos_nonneg; lia).
  assert (HJ : 1 <= 2 ^ j).
  { assert (j = 0 \/ j = 1) as [-> | ->] by lia; cbn; lia. }
  assert (HK : 1 <= 2 ^ k).
  { assert (k = 0 \/ k = 1) as [-> | ->] by lia; cbn; lia. }
  assert (HQB : Q * B = 2 ^ (eD + 23) * 2 ^ 24).
  { subst Q B. rewrite <- !Z.pow_add_r by lia. f_equal. lia. }
  assert (HUf : Uf = 2 ^ j * 2 ^ k * Q).
  { subst Uf Q.
    replace (eD - en - 24 + k + j + 48) with (j + (k + (eD - en + 24)))
      by lia.
    rewrite !Z.pow_add_r by lia. ring. }
  set (ED := 2 ^ (eD + 23)) in *.
  set (J := 2 ^ j) in *. set (K := 2 ^ k) in *.
  assert (L1 : 2 * (Zpos mf * J * (K * Zpos mn)) * (Q * B)
               = 2 * (Ff * n) * 2 ^ 23).
  { subst Ff. rewrite HUf.
    replace (2 * (Zpos mf * J * (K * Zpos mn)) * (Q * B))
      with (2 * (Zpos mf * (J * K * Q)) * (Zpos mn * B)) by ring.
    rewrite <- Hvn. ring. }
  assert (L2 : 2 * (Zpos mD * 2 ^ 24) * (Q * B) = 2 * (D * 2 ^ 48) * 2 ^ 23).
  { rewrite HQB.
    replace (2 * (Zpos mD * 2 ^ 24) * (ED * 2 ^ 24))
      with (2 * (Zpos mD * ED) * 2 ^ 48)
      by (change (2 ^ 48) with (2 ^ 24 * 2 ^ 24); ring).
    rewrite <- HvD. ring. }
  assert (L3 : K * Zpos mn * (Q * B) <= Uf * n * 2 ^ 23).
  { rewrite HUf.
    replace (K * Zpos mn * (Q * B)) with (K * Q * (Zpos mn * B)) by ring.
    rewrite <- Hvn.
    replace (J * K * Q * n * 2 ^ 23) with (J * (K * Q * (n * 2 ^ 23)))
      by ring.
    assert (0 <= n).
    { assert (0 < 2 ^ 23) by (apply Z.pow_pos_nonneg; lia).
      assert (0 < Zpos mn * B) by nia. nia. }
    assert (0 <= K * Q * (n * 2 ^ 23)) by nia.
    nia. }
  assert (R1' : 2 * (Zpos mf * J * (K * Zpos mn)) * (Q * B)
                <= (2 * (Zpos mD * 2 ^ 24) + K * Zpos mn) * (Q * B))
    by (apply Z.mul_le_mono_nonneg_r; [nia | exact R1]).
  assert (R2' : 2 * (Zpos mD * 2 ^ 24) * (Q * B)
                <= (2 * (Zpos mf * J * (K * Zpos mn)) + K * Zpos mn)
                   * (Q * B))
    by (apply Z.mul_le_mono_nonneg_r; [nia | exact R2]).
  rewrite Z.mul_add_distr_r in R1', R2'.
  rewrite L1 in R1', R2'. rewrite L2 in R1', R2'.
  set (T := K * Zpos mn * (Q * B)) in *.
  set (V := Ff * n) in *. set (W := Uf * n) in *. set (X := D * 2 ^ 48) in *.
  change (2 ^ 23) with 8388608 in *.
  lia.
Qed.

(** The nearest integer of a positive number is not negative and, counted
    in halves, at most the mantissa. *)
Lemma nearest_away_bounds (m : positive) (e : Z) :
  e < 0 -> 0 <= F32.nearest_away m e <= Zpos m.
Proof.
  intros He. unfold F32.nearest_away.
  destruct (Z.leb_spec 0 e) as [H0 | _]; [lia |].
  assert (Hd : 2 <= 2 ^ (- e)).
  { change 2 with (2 ^ 1) at 1. apply Z.pow_le_mono_r; lia. }
  pose proof (Z.div_mod (Zpos m) (2 ^ (- e)) ltac:(lia)) as Hdm.
  pose proof (Z.mod_pos_bound (Zpos m) (2 ^ (- e)) ltac:(lia)) as Hr.
  set (d := 2 ^ (- e)) in *.
  set (q := Zpos m / d) in *. set (r := Zpos m mod d) in *.
  assert (0 <= q) by (apply Z.div_pos; lia).
  destruct (Z.leb_spec d (2 * r)); nia.
Qed.

(** The scaled dimension against the exact product: with sizes up to 2^24
    and a product [D * q / n] below 2^21, the dimension [q] scaled by the
    binary32 fraction [D / n] differs from [D * q / n] by less than 1. *)
Lemma scaled_by_fraction_accuracy (oor : F32.float -> Z) (D n q : Z) :
  1 <= D <= 2 ^ 24 -> 1 <= n <= 2 ^ 24 -> 1 <= q <= 2 ^ 24 ->
  D * q < 2 ^ 21 * n ->
  let t := scaled_by oor (F32.div (F32.of_int D) (F32.of_int n)) q in
  0 <= t /\ (t - 1) * n < D * q < (t + 1) * n.
Proof.
  intros HD Hn Hq Hprod. unfold scaled_by.
  destruct (of_int_represents D HD) as (mD & eD & -> & HrD).
  destruct (of_int_represents n Hn) as (mn & en & -> & Hrn).
  destruct (of_int_represents q Hq) as (mq & eq & -> & Hrq).
  destruct (div_rounds mD mn eD en ltac:(apply HrD) ltac:(apply Hrn)
              ltac:(apply HrD) ltac:(apply Hrn))
    as (mf & k & j & -> & Hmf & Hk & Hj & _ & R1 & R2).
  pose proof (fraction_error D n mD mn mf eD en k j HrD Hrn Hk Hj R1 R2)
    as [E1 E2]. cbv zeta in E1, E2.
  destruct HrD as (_ & HeD & _). destruct Hrn as (_ & Hen & _).
  destruct Hrq as (Hmq & Heq & Hvq).
  set (ef := eD - en - 24 + k + j) in *.
  destruct (mul_rounds mf mq ef eq Hmf Hmq ltac:(lia))
    as (mr & k2 & j2 & -> & Hmr & Hk2 & Hj2 & _ & M1 & M2 & _ & _).
  unfold normal in *.
  set (er := ef + eq + k2 + j2).
  (* the product at the scale 2^-71 *)
  set (Uf := 2 ^ (ef + 48)) in *.
  set (Bq := 2 ^ (eq + 23)) in *.
  set (Ur := 2 ^ (er + 71)).
  assert (HUf : 0 < Uf) by (apply Z.pow_pos_nonneg; lia).
  assert (HBq : 0 < Bq) by (apply Z.pow_pos_nonneg; lia).
  assert (HJ2 : 1 <= 2 ^ j2).
  { assert (j2 = 0 \/ j2 = 1) as [-> | ->] by lia; cbn; lia. }
  assert (HK2 : 0 < 2 ^ k2) by (apply Z.pow_pos_nonneg; lia).
  assert (HUr : Ur = 2 ^ j2 * 2 ^ k2 * (Uf * Bq)).
  { subst Ur Uf Bq er.
    replace (ef + eq + k2 + j2 + 71)
      with (j2 + (k2 + ((ef + 48) + (eq + 23)))) by lia.
    rewrite Z.pow_add_r by lia.
    rewrite (Z.pow_add_r 2 k2) by lia.
    rewrite (Z.pow_add_r 2 (ef + 48) (eq + 23)) by lia. ring. }
  set (J2 := 2 ^ j2) in *. set (K2 := 2 ^ k2) in *.
  set (Ff := Zpos mf * Uf) in *.
  set (R := Zpos mr * Ur).
  set (A := Ff * q).
  assert (HR : Zpos mr * J2 * K2 * (Uf * Bq) = R).
  { subst R. rewrite HUr. ring. }
  assert (HA : Zpos mf * Zpos mq * (Uf * Bq) = A * 2 ^ 23).
  { subst A Ff.
    replace (Zpos mf * Zpos mq * (Uf * Bq))
      with (Zpos mf * Uf * (Zpos mq * Bq)) by ring.
    rewrite <- Hvq. ring. }
  assert (HW : K2 * (Uf * Bq) <= Ur).
  { rewrite HUr. assert (0 < K2 * (Uf * Bq)) by nia. nia. }
  assert (M1' : 2 * (Zpos mr * J2 * K2) * (Uf * Bq)
                <= (2 * (Zpos mf * Zpos mq) + K2) * (Uf * Bq))
    by (apply Z.mul_le_mono_nonneg_r; [nia | exact M1]).
  assert (M2' : 2 * (Zpos mf * Zpos mq) * (Uf * Bq)
                <= (2 * (Zpos mr * J2 * K2) + K2) * (Uf * Bq))
    by (apply Z.mul_le_mono_nonneg_r; [nia | exact M2]).
  assert (F1 : 2 * R <= 2 * (A * 2 ^ 23) + Ur).
  { rewrite <- HR, <- HA. lia. }
  assert (F2 : 2 * (A * 2 ^ 23) <= 2 * R + Ur).
  { rewrite <- HR, <- HA. lia. }
  assert (HRU : 2 ^ 23 * Ur <= R).
  { subst R. assert (0 < Ur) by (rewrite HUr; nia). nia. }
  assert (HFU : 2 ^ 23 * Uf <= Ff) by (subst Ff; nia).
  clear M1 M2 M1' M2' HR HA HW R1 R2.
  (* the fraction times q, against D * q / n *)
  assert (G1 : 2 * (A * n) <= 2 * (D * q * 2 ^ 48) + Uf * q * n).
  { subst A.
    assert (2 * (Ff * n) * q <= (2 * (D * 2 ^ 48) + Uf * n) * q)
      by (apply Z.mul_le_mono_nonneg_r; lia).
    lia. }
  assert (G2 : 2 * (D * q * 2 ^ 48) <= 2 * (A * n) + Uf * q * n).
  { subst A.
    assert (2 * (D * 2 ^ 48) * q <= (2 * (Ff * n) + Uf * n) * q)
      by (apply Z.mul_le_mono_nonneg_r; lia).
    lia. }
  assert (G3 : 2 ^ 23 * (Uf * q * n) <= A * n).
  { subst A.
    assert (2 ^ 23 * Uf * (q * n) <= Ff * (q * n))
      by (apply Z.mul_le_mono_nonneg_r; nia).
    lia. }
  assert (G4 : D * q * 2 ^ 48 < 2 ^ 21 * n * 2 ^ 48)
    by (apply Z.mul_lt_mono_pos_r; lia).
  assert (HA0 : 0 <= A) by (subst A; nia).
  set (An := A * n) in *. set (Dq := D * q) in *.
  set (Uqn := Uf * q * n) in *.
  change (2 ^ 48) with 281474976710656 in *.
  change (2 ^ 23) with 8388608 in *.
  change (2 ^ 21) with 2097152 in *.
  change (2 ^ 24) with 16777216 in *.
  (* A is below 2^69 (1 + 2^-23) *)
  assert (HAb : 16777215 * A < 2 ^ 93).
  { assert (16777215 * An < 2 ^ 93 * n).
    { change (2 ^ 93) with (16777216 * 2097152 * 281474976710656). lia. }
    subst An. nia. }
  assert (HRb : R < 2 ^ 93).
  { change (2 ^ 93) with 9903520314283042199192993792 in *. lia. }
  assert (Her : er < -1).
  { assert (Hlt : 2 ^ (er + 94) < 2 ^ 93).
    { replace (er + 94) with (23 + (er + 71)) by lia.
      rewrite Z.pow_add_r by lia. fold Ur.
      change (2 ^ 23) with 8388608. lia. }
    apply Z.pow_lt_mono_r_iff in Hlt; lia. }
  pose proof (nearest_away_is_nearest mr er ltac:(lia)) as Hnear.
  pose proof (nearest_away_bounds mr er ltac:(lia)) as Hnb.
  rewrite (to_int_roundf oor mr er Hmr);
    (destruct (Z.leb_spec 0 er) as [H0 | _]; [lia |]);
    [| change (2 ^ 24) with 16777216; lia].
  set (N := F32.nearest_away mr er) in *.
  assert (HdU : 2 ^ (- er) * Ur = 2 ^ 71).
  { subst Ur. rewrite <- Z.pow_add_r by lia. f_equal. lia. }
  set (d := 2 ^ (- er)) in *.
  assert (HUr0 : 0 < Ur) by (subst Ur; apply Z.pow_pos_nonneg; lia).
  assert (HN : 2 * Z.abs (R - N * 2 ^ 71) <= 2 ^ 71).
  { rewrite <- HdU. subst R.
    replace (Zpos mr * Ur - N * (d * Ur)) with ((Zpos mr - N * d) * Ur)
      by ring.
    rewrite Z.abs_mul, (Z.abs_eq Ur) by lia.
    assert (2 * Z.abs (Zpos mr - N * d) * Ur <= d * Ur)
      by (apply Z.mul_le_mono_nonneg_r; lia).
    lia. }
  split; [lia |].
  (* all the errors together, at the scale 2^-71, times n *)
  assert (HRn : 16777216 * Z.abs (R * n - Dq * 2 ^ 71) <= R * n + 8388608 * An).
  { change (2 ^ 71) with (281474976710656 * 8388608).
    assert (H1 : 16777216 * Z.abs (R - A * 8388608) <= R) by lia.
    assert (H2 : 16777216 * Z.abs (An - Dq * 281474976710656) <= An) by lia.
    assert (H3 : 16777216 * Z.abs (R - A * 8388608) * n <= R * n)
      by (apply Z.mul_le_mono_nonneg_r; lia).
    assert (H4 : Z.abs (R * n - A * 8388608 * n)
                 = Z.abs (R - A * 8388608) * n).
    { replace (R * n - A * 8388608 * n) with ((R - A * 8388608) * n) by ring.
      rewrite Z.abs_mul, (Z.abs_eq n) by lia. reflexivity. }
    fold An in H4.
    replace (A * 8388608 * n) with (An * 8388608) in H4 by (subst An; ring).
    set (Rn := R * n) in *. lia. }
  assert (HNn : 2 * Z.abs (R * n - N * 2 ^ 71 * n) <= 2 ^ 71 * n).
  { replace (R * n - N * 2 ^ 71 * n) with ((R - N * 2 ^ 71) * n) by ring.
    rewrite Z.abs_mul, (Z.abs_eq n) by lia.
    assert (2 * Z.abs (R - N * 2 ^ 71) * n <= 2 ^ 71 * n)
      by (apply Z.mul_le_mono_nonneg_r; lia).
    lia. }
  assert (HRnb : R * n + 8388608 * An < 2 ^ 94 * n).
  { assert (R * n < (2 ^ 93 + 2 ^ 71) * n).
    { apply Z.mul_lt_mono_pos_r; [lia |].
      change (2 ^ 93) with 9903520314283042199192993792 in *.
      change (2 ^ 71) with 2361183241434822606848 in *. lia. }
    assert (16777215 * An < 2 ^ 93 * n).
    { change (2 ^ 93) with (16777216 * 2097152 * 281474976710656). lia. }
    change (2 ^ 93) with 9903520314283042199192993792 in *.
    change (2 ^ 94) with 19807040628566084398385987584 in *.
    change (2 ^ 71) with 2361183241434822606848 in *. lia. }
  set (Rn := R * n) in *.
  set (Nn := N * n).
  replace (N * 2 ^ 71 * n) with (Nn * 2 ^ 71) in HNn by (subst Nn; ring).
  replace ((N - 1) * n) with (Nn - n) by (subst Nn; ring).
  replace ((N + 1) * n) with (Nn + n) by (subst Nn; ring).
  change (2 ^ 94) with 19807040628566084398385987584 in *.
  change (2 ^ 71) with 2361183241434822606848 in *.
  lia.
Qed.

(** Of [m * 2^e] with [e < 0], [nearest_away] is the one integer within one
    half, the upper one of two. *)
Lemma nearest_away_half_up (m : positive) (e : Z) :
  e < 0 ->
  - 2 ^ (- e) <= 2 * (Zpos m - F32.nearest_away m e * 2 ^ (- e)) < 2 ^ (- e).
Proof.
  intros He. unfold F32.nearest_away.
  destruct (Z.leb_spec 0 e) as [H0 | _]; [lia |].
  assert (Hd : 0 < 2 ^ (- e)) by (apply Z.pow_pos_nonneg; lia).
  pose proof (Z.div_mod (Zpos m) (2 ^ (- e)) ltac:(lia)) as Hdm.
  pose proof (Z.mod_pos_bound (Zpos m) (2 ^ (- e)) Hd) as Hr.
  set (d := 2 ^ (- e)) in *.
  set (q := Zpos m / d) in *. set (r := Zpos m mod d) in *.
  destruct (Z.leb_spec d (2 * r)); nia.
Qed.

(** C3, as worded, fails: an 11681x8553 image under a 745 columns wide
    display with only [fill_width] is not kept at its native size, and the
    exact product 745 / 11681 * 8553 = 545.49996 has 545 as its nearest
    integer, which is what the real-valued steps 1 and 4 give; the code,
    with the fraction and the product rounded to single precision (the
    product becomes 545.5), gives the height 546. *)
Lemma scaled_as_worded_counterexample :
  keeps_native_size 11681 8553 (display 745 1000 false true false) = false
  /\ fit_mode (display 745 1000 false true false) = FillWidth
  /\ scaled_as_worded 745 11681 8553 = 545
  /\ 2 * Z.abs (545 * 11681 - 745 * 8553) < 11681
  /\ SFmul 24 128
       (SFdiv 24 128 (binary_normalize 24 128 745 0 false)
                     (binary_normalize 24 128 11681 0 false))
       (binary_normalize 24 128 8553 0 false)
     = S754_finite false 8937472 (-14)
  /\ 2 * 8937472 = 1091 * 2 ^ 14
  /\ CalcScaleToFitDisplay F32.cvttss2si_indefinite 11681 8553
       (display 745 1000 false true false)
     = mkScaled 745 546 true.
Proof.
  repeat split; vm_compute; reflexivity.
Qed.

(** C3, amended: when the early return is not taken, the factor is chosen by
    mode among the two fractions, which are the single precision quotients
    of the constraint by the native size: with both fill flags the larger
    one scales both dimensions, with only [fill_height] the width is scaled
    by the height fraction and the height is the constraint, with only
    [fill_width] the height is scaled by the width fraction and the width
    is the constraint, and with neither the smaller one scales both; the
    targets are these values after the clamp to 1.
    A scaled dimension is the single precision product of the factor and
    the native dimension, rounded to the nearest integer, halves upwards:
    of a product [m * 2^e] with a fraction it is the one integer [t] with
    [-1/2 <= m * 2^e - t < 1/2], and a product that is an integer and fits
    an [int] is returned as it is.  Against the exact product the two
    roundings of single precision can move the result to the neighbouring
    integer: with sizes up to 2^24 and [D * q / n] below 2^21, the
    dimension [q] scaled by the fraction of [D] over [n] differs from
    [D * q / n] by less than 1.
    In particular a 200x100 image with constraints 100x100 and only
    [fill_width] gives (100, 50, true). *)
Theorem fit_factor_chosen_by_mode
    (out_of_range : F32.float -> Z) (img_width img_height : Z)
    (options : DisplayOptions) :
  keeps_native_size img_width img_height options = false ->
  let float n := binary_normalize 24 128 n 0 false in
  let wf := SFdiv 24 128 (float (width options)) (float img_width) in
  let hf := SFdiv 24 128 (float (height options)) (float img_height) in
  let scaled f n :=
    F32.to_int out_of_range (F32.roundf (SFmul 24 128 f (float n))) in
  let g := CalcScaleToFitDisplay out_of_range img_width img_height options in
  match fit_mode options with
  | FillBoth =>
      exists f, (f = wf \/ f = hf)
        /\ SFltb f wf = false /\ SFltb f hf = false
        /\ target_width g = at_least_one (scaled f img_width)
        /\ target_height g = at_least_one (scaled f img_height)
  | FillHeight =>
      target_width g = at_least_one (scaled hf img_width)
      /\ target_height g = at_least_one (height options)
  | FillWidth =>
      target_width g = at_least_one (width options)
      /\ target_height g = at_least_one (scaled wf img_height)
  | Contain =>
      exists f, (f = wf \/ f = hf)
        /\ SFltb wf f = false /\ SFltb hf f = false
        /\ target_width g = at_least_one (scaled f img_width)
        /\ target_height g = at_least_one (scaled f img_height)
  end
  /\ (forall f n m e,
        SFmul 24 128 f (float n) = S754_finite false m e -> normal m ->
        (e < 0 ->
         - 2 ^ (- e) <= 2 * (Zpos m - scaled f n * 2 ^ (- e)) < 2 ^ (- e))
        /\ (0 <= e -> Int.in_range (Zpos m * 2 ^ e) = true ->
            scaled f n = Zpos m * 2 ^ e))
  /\ (forall D n q,
        1 <= D <= 2 ^ 24 -> 1 <= n <= 2 ^ 24 -> 1 <= q <= 2 ^ 24 ->
        D * q < 2 ^ 21 * n ->
        let t := scaled (SFdiv 24 128 (float D) (float n)) q in
        (t - 1) * n < D * q < (t + 1) * n)
  /\ (forall up,
        CalcScaleToFitDisplay out_of_range 200 100
          (display 100 100 up true false) = mkScaled 100 50 true).
Proof.
  intros Hk float wf hf scaled g. subst g.
  rewrite (CalcScaleToFitDisplay_scaled _ _ _ _ Hk).
  cbv zeta. cbn [target_width target_height].
  split; [| split; [| split]].
  - unfold fit_mode, scale_to_options.
    change (width_fraction img_width options) with wf.
    change (height_fraction img_height options) with hf.
    destruct (fill_width options), (fill_height options);
      cbn [andb fst snd].
    + exists (if F32.gt wf hf then wf else hf).
      destruct (larger_of_choice wf hf) as (H1 & H2 & H3).
      repeat split; try assumption; reflexivity.
    + split; reflexivity.
    + split; reflexivity.
    + exists (if F32.lt wf hf then wf else hf).
      destruct (smaller_of_choice wf hf) as (H1 & H2 & H3).
      repeat split; try assumption; reflexivity.
  - intros f n m e Hmul Hm. subst scaled. cbv beta. rewrite Hmul. split.
    + intros He.
      pose proof (nearest_away_bounds m e He) as Hb.
      rewrite (to_int_roundf out_of_range m e Hm);
        (destruct (Z.leb_spec 0 e) as [H0 | _]; [lia |]);
        [now apply nearest_away_half_up | unfold normal in Hm; lia].
    + intros He Hr. unfold F32.roundf.
      destruct (Z.leb_spec 0 e) as [_ | H0]; [| lia].
      unfold F32.to_int, F32.truncate.
      destruct (Z.leb_spec 0 e) as [_ | H0]; [| lia].
      cbn [cond_Zopp]. rewrite Z.shiftl_mul_pow2 by lia. now rewrite Hr.
  - intros D n q HD Hn Hq Hprod.
    apply (scaled_by_fraction_accuracy out_of_range D n q HD Hn Hq Hprod).
  - intros [|]; vm_compute; reflexivity.
Qed.

Lemma fit_factor_chosen_by_mode_witness :
  keeps_native_size 11681 8553 (display 745 1000 false true false) = false
  /\ target_width (CalcScaleToFitDisplay F32.cvttss2si_indefinite 11681 8553
                     (display 745 1000 false true false))
     = at_least_one 745
  /\ target_height (CalcScaleToFitDisplay F32.cvttss2si_indefinite 11681 8553
                      (display 745 1000 false true false))
     = at_least_one
         (F32.to_int F32.cvttss2si_indefinite
            (F32.roundf
               (SFmul 24 128
                  (SFdiv 24 128 (binary_normalize 24 128 745 0 false)
                     (binary_normalize 24 128 11681 0 false))
                  (binary_normalize 24 128 8553 0 false)))).
Proof.
  assert (H : keeps_native_size 11681 8553
                (display 745 1000 false true false) = false)
    by (vm_compute; reflexivity).
  split; [exact H |].
  exact (proj1 (fit_factor_chosen_by_mode F32.cvttss2si_indefinite 11681 8553
                  (display 745 1000 false true false) H)).
Defined.

(** * The fit policy that reaches the loaders *)

Lemma cell_options_flags (l : Locals) (w h : Z) :
  let o := cell_options l w h in
  scroll_animation o
  = scroll_animation (display_opts l) && negb (no_scroll_movement l)
  /\ scroll_dx o = scroll_dx (display_opts l)
  /\ scroll_dy o = scroll_dy (display_opts l)
  /\ fill_width o
     = fit_width l || (scroll_animation o && negb (scroll_dy o =? 0))
  /\ fill_height o = scroll_animation o && negb (scroll_dx o =? 0).
Proof.
  cbv zeta. unfold cell_options, canvas_options.
  destruct (no_scroll_movement l); cbv zeta;
    match goal with
    | |- context [if ?b then _ else _] => destruct b
    end; cbn; rewrite ?andb_true_r, ?andb_false_r; auto.
Qed.

(** X25: every file is opened with the fit policy of lines 333-344:
    scrolling is on only if it was asked for and some step is not zero; the
    width is filled exactly with [-W] or when scrolling vertically, the
    height exactly when scrolling horizontally. *)
Theorem files_are_opened_with_the_fit_policy
    (WITH_TIMG_VIDEO : bool) (kNotInitialized : Z) (l : Locals)
    (flag : bool) (name : string) (o : DisplayOptions) (ti tv : bool) :
  In (EvCreate name o ti tv)
    (events (main WITH_TIMG_VIDEO kNotInitialized l flag)) ->
  scroll_animation o
  = scroll_animation (display_opts l)
    && negb ((scroll_dx (display_opts l) =? 0)
             && (scroll_dy (display_opts l) =? 0))
  /\ fill_width o
     = fit_width l
       || (scroll_animation o && negb (scroll_dy (display_opts l) =? 0))
  /\ fill_height o
     = scroll_animation o && negb (scroll_dx (display_opts l) =? 0).
Proof.
  intros Hin.
  assert (Hcell : exists w h, o = cell_options l w h).
  { destruct (main_cases WITH_TIMG_VIDEO kNotInitialized l flag)
      as [(text & status & _ & E & _) | [(_ & _ & E) | (_ & _ & w & h & E)]];
      rewrite E in Hin; clear E.
    - cbn in Hin. destruct Hin as [H | [H | []]]; discriminate.
    - cbn [events fst snd] in Hin. unfold prologue in Hin.
      destruct (no_scroll_movement l), (hide_cursor l); cbn in Hin;
        repeat (destruct Hin as [Hin | Hin]; [discriminate |]);
        contradiction.
    - cbv zeta in Hin.
      match type of Hin with
      | context [main_loop ?a ?b ?c ?d ?e ?f ?g ?h' ?i ?j] =>
          pose proof (main_loop_called_with a b c d e f g h' i j) as Hcw;
          set (r := main_loop a b c d e f g h' i j) in *
      end.
      assert (Hloop : In (EvCreate name o ti tv) (events r)).
      { destruct (value r); cbn [events fst snd] in Hin;
          repeat (apply in_app_or in Hin as [Hin | Hin]); try exact Hin;
          exfalso; unfold prologue, epilogue in Hin;
          destruct (no_scroll_movement l), (hide_cursor l);
          try destruct (flag_after r); cbn in Hin;
          repeat (destruct Hin as [Hin | Hin]; [discriminate |]);
          contradiction. }
      rewrite Forall_forall in Hcw. apply Hcw in Hloop.
      cbn in Hloop. destruct Hloop as (-> & _). eauto. }
  destruct Hcell as (w & h & ->).
  destruct (cell_options_flags l w h) as (Hs & Hx & Hy & Hfw & Hfh).
  rewrite Hfw, Hfh, Hs, Hx, Hy. auto.
Qed.

Lemma files_are_opened_with_the_fit_policy_witness :
  In (EvCreate "a.png" (display 80 46 false false false) true true)
    (events (main true (-1) (invocation 80 46 1 1 (-1) (-1) [still "a.png"])
               false))
  /\ fill_width (display 80 46 false false false) = false.
Proof.
  assert (Hin : In (EvCreate "a.png" (display 80 46 false false false) true
                      true)
                  (events (main true (-1)
                             (invocation 80 46 1 1 (-1) (-1) [still "a.png"])
                             false))).
  { right. right. left. reflexivity. }
  split; [exact Hin |].
  destruct (files_are_opened_with_the_fit_policy true (-1)
              (invocation 80 46 1 1 (-1) (-1) [still "a.png"]) false
              "a.png" _ true true Hin) as (_ & H1 & _).
  exact H1.
Defined.

(** * An option that is read and not used *)

Lemma handle_option_alike build WITH opt st st' flag :
  locals st = locals st' ->
  alike (value (handle_option build WITH opt st flag))
        (value (handle_option build WITH opt st' flag))
  /\ events (handle_option build WITH opt st flag)
     = events (handle_option build WITH opt st' flag).
Proof.
  intros E. destruct st as [l m], st' as [l' m']. cbn in E. subst l'.
  destruct opt; option_cases; try rewrite !bind_run;
    cbn; auto.
Qed.

Lemma getopt_loop_alike build WITH options : forall st st' flag,
  locals st = locals st' ->
  alike (value (getopt_loop build WITH options st flag))
        (value (getopt_loop build WITH options st' flag))
  /\ events (getopt_loop build WITH options st flag)
     = events (getopt_loop build WITH options st' flag).
Proof.
  induction options as [| opt rest IH]; intros st st' flag E.
  - cbn. auto.
  - rewrite !getopt_loop_cons. cbv zeta.
    destruct (handle_option_alike build WITH opt st st' flag E) as [Ha He].
    rewrite He.
    destruct (value (handle_option build WITH opt st flag)) as [s1 | n1],
      (value (handle_option build WITH opt st' flag)) as [s2 | n2];
      cbn in Ha; try contradiction.
    + destruct (IH s1 s2 flag Ha) as [Ha' He'].
      cbn [value events fst snd]. now rewrite He'.
    + subst n2. cbn. auto.
Qed.

(** X26: [-w] is read and then ignored: [between_images_duration] is never
    looked at again, so the program does the same with the option as
    without it. *)
Theorem wait_option_has_no_effect
    (build : Build) (WITH_TIMG_VIDEO : bool) (kNotInitialized : Z)
    (tiocgwinsz : Z -> option winsize) (getenv : string -> option string)
    (pre post : list Opt) (optarg : string) (files : list Input)
    (sigint_before_loop : bool) (flag : bool) :
  timg build WITH_TIMG_VIDEO kNotInitialized tiocgwinsz getenv
    (pre ++ opt_w optarg :: post) files sigint_before_loop flag
  = timg build WITH_TIMG_VIDEO kNotInitialized tiocgwinsz getenv
      (pre ++ post) files sigint_before_loop flag.
Proof.
  rewrite !timg_run. cbv zeta.
  set (st0 := initial build kNotInitialized (DetermineTermSize tiocgwinsz)
                files sigint_before_loop).
  rewrite !getopt_loop_app, !bind_run.
  destruct (getopt_loop_run build WITH_TIMG_VIDEO pre st0 flag)
    as (-> & _ & _).
  destruct (value (getopt_loop build WITH_TIMG_VIDEO pre st0 flag))
    as [st1 | status]; cbn [and_then]; [| reflexivity].
  rewrite getopt_loop_cons. cbv zeta. cbn [handle_option].
  change (value (ret ?x flag)) with x.
  change (events (ret ?x flag)) with (@nil Event).
  cbn iota. cbn [app].
  match goal with
  | |- context [getopt_loop _ _ post ?s flag] =>
      destruct (getopt_loop_alike build WITH_TIMG_VIDEO post s st1 flag
                  eq_refl) as [Ha He]
  end.
  cbn [value events flag_after fst snd] in *. rewrite He.
  match type of Ha with
  | alike ?a ?b => destruct a as [s1 | n1], b as [s2 | n2]
  end; cbn in Ha; try contradiction; [now rewrite Ha | now subst].
Qed.
